(** * OCF-Guru: the open-channel hydraulics engine, embedded in Rocq

    The engine ([utils/calculations.ts] and its multi-reach successor)
    is pure TypeScript arithmetic over JavaScript numbers.  A JavaScript
    number is an IEEE 754 binary64 value, so the embedding computes on
    Rocq's primitive [float]: [+ - * /], [Math.sqrt], [Math.abs] and the
    comparisons are bit-for-bit those of the source, including the
    infinities and NaN.  [Math.pow], [Math.sin] and [Math.acos] are left
    to the host by ECMAScript ("implementation-approximated"); they are
    the fields of the class [MathLib], over which every definition of
    the engine is parameterised. *)

From Stdlib Require Import Floats ZArith List String Bool Lia Sorted Permutation FinFun.
Import ListNotations.

Set Warnings "-inexact-float".
#[local] Open Scope float_scope.

(** ** JavaScript numbers *)

Definition number := float.

(** [a > b] and [a >= b] of the source, by the flipped primitive. *)
Notation "x >? y" := (PrimFloat.ltb y x) (at level 70, no associativity, only parsing) : float_scope.
Notation "x >=? y" := (PrimFloat.leb y x) (at level 70, no associativity, only parsing) : float_scope.

(** [Math.max] on two arguments: NaN is contagious and [+0] is above [-0]. *)
Definition Math_max (a b : number) : number :=
  if is_nan a || is_nan b then nan
  else if a <? b then b
  else if b <? a then a
  else if (a =? 0) && (1 / a <? 0) then b
  else a.

(** The conversion of a loop count to a number (exact below 2^53). *)
Definition of_nat (n : nat) : number :=
  PrimFloat.of_uint63 (Uint63.of_Z (Z.of_nat n)).

(** The host's transcendental functions.  The one law is the clause of
    ECMAScript's [Number::exponentiate] for a base of [+0] and a positive
    exponent, which fixes the result to [+0] exactly. *)
Class MathLib := {
  Math_pow : number -> number -> number;
  Math_sin : number -> number;
  Math_acos : number -> number;
  Math_pow_zero : forall e, (0 <? e) = true -> Math_pow 0 e = 0
}.

(** ** Types ([types.ts]) *)

Inductive ChannelType := Rectangular | Trapezoidal | Triangular | Circular.

Inductive UnitSystem := SI | Imperial.

Record InputParams := {
  flowRate : number;
  slope : number;
  manningN : number;
  width : number;
  sideSlope : number;
  diameter : number
}.

Inductive FlowRegime := Subcritical | Supercritical | Critical.

Record CalculationResult := {
  normalDepth : number;
  criticalDepth : number;
  velocity : number;
  froudeNumber : number;
  flowRegime : FlowRegime;
  criticalVelocity : number;
  error : option string
}.

Record SectionProperties := {
  sp_depth : number;
  area : number;
  perimeter : number;
  hydraulicRadius : number;
  topWidth : number;
  specificEnergy : number;
  specificForce : number;
  sp_velocity : number
}.

(** The reach and profile types of the multi-reach engine.  Their
    declarations are not in [types.ts] as shipped; the fields are the
    ones [calculateMultiReachProfile] reads and writes. *)

Inductive InputMode := Slope | Elevation.

Module Sec.
Record t := {
  length : number;
  inputMode : InputMode;
  slope : number;
  usElevation : number;
  dsElevation : number
}.
End Sec.
Abbreviation CanalSectionInput := Sec.t.

Inductive BCLocation := Upstream | Downstream.
Inductive BCType := FixedDepth | NormalDepth | CriticalDepth.

Module BC.
Record t := {
  location : BCLocation;
  type : BCType;
  value : number
}.
End BC.
Abbreviation BoundaryCondition := BC.t.

Record ProfilePoint := {
  distance : number;
  bedElevation : number;
  waterElevation : number;
  depth : number;
  normalDepthElevation : number;
  criticalDepthElevation : number;
  sectionIndex : nat
}.

(** [{ ...p, slope: s }] *)
Definition withSlope (p : InputParams) (s : number) : InputParams :=
  {| flowRate := flowRate p; slope := s; manningN := manningN p;
     width := width p; sideSlope := sideSlope p; diameter := diameter p |}.

(** [{ ...s, slope }] *)
Definition Sec_withSlope (s : CanalSectionInput) (sl : number) : CanalSectionInput :=
  {| Sec.length := Sec.length s; Sec.inputMode := Sec.inputMode s; Sec.slope := sl;
     Sec.usElevation := Sec.usElevation s; Sec.dsElevation := Sec.dsElevation s |}.

(** ** Exceptions

    [calculateFlow] throws inside a [try] and converts the exception in
    its [catch]; the body lives in this error monad. *)

Inductive Exc (X : Type) : Type :=
| Return (x : X)
| Throw (message : string).
Arguments Return {X} x.
Arguments Throw {X} message.

Definition Exc_bind {X Y} (c : Exc X) (k : X -> Exc Y) : Exc Y :=
  match c with
  | Return x => k x
  | Throw m => Throw m
  end.

(** [if (c) throw new Error(m);] *)
Definition throwIf (c : bool) (m : string) : Exc unit :=
  if c then Throw m else Return tt.

Notation "c ;; k" := (Exc_bind c (fun _ => k)) (at level 61, right associativity).

(** ** Arrays and maps of the runtime *)

(** [arr.map((x, idx) => f x idx)] *)
Fixpoint mapi_from {X Y} (f : X -> nat -> Y) (i : nat) (l : list X) : list Y :=
  match l with
  | [] => []
  | x :: r => f x i :: mapi_from f (S i) r
  end.
Definition mapi {X Y} (f : X -> nat -> Y) (l : list X) : list Y := mapi_from f 0 l.

(** [arr[i] = v] for an index inside the array (every index the engine
    writes is: [z_nodes] has one more entry than there are reaches). *)
Fixpoint assign {X} (l : list X) (i : nat) (v : X) : list X :=
  match l, i with
  | [], _ => []
  | _ :: r, O => v :: r
  | x :: r, S j => x :: assign r j v
  end.

(** An entry of [z_nodes]: [null] or a number; in arithmetic [null]
    coerces to [+0]. *)
Definition toNumber (z : option number) : number :=
  match z with Some v => v | None => 0 end.

(** [Map<number, ProfilePoint[]>], with the [has]/[set]/[get(..).push]
    idiom of the grouping pass. *)
Definition PointMap := list (nat * list ProfilePoint).

Fixpoint Map_get (m : PointMap) (k : nat) : option (list ProfilePoint) :=
  match m with
  | [] => None
  | (k', v) :: r => if Nat.eqb k' k then Some v else Map_get r k
  end.

Fixpoint Map_push (m : PointMap) (k : nat) (p : ProfilePoint) : PointMap :=
  match m with
  | [] => [(k, [p])]
  | (k', v) :: r => if Nat.eqb k' k then (k', v ++ [p]) :: r else (k', v) :: Map_push r k p
  end.

(** [Array.prototype.sort] with a comparator: ECMAScript requires a
    stable sort, and a comparator result of NaN counts as [+0].  The
    model is the stable insertion sort; for a consistent comparator the
    stable sorted order is unique, so every conforming engine returns it. *)
Section Sort.
Context {X : Type} (compareFn : X -> X -> number).

Fixpoint sort_insert (x : X) (l : list X) : list X :=
  match l with
  | [] => [x]
  | y :: r => if compareFn x y >? 0 then y :: sort_insert x r else x :: y :: r
  end.

Fixpoint Array_sort (l : list X) : list X :=
  match l with
  | [] => []
  | x :: r => sort_insert x (Array_sort r)
  end.
End Sort.

Definition ChannelType_eqb (a b : ChannelType) : bool :=
  match a, b with
  | Rectangular, Rectangular | Trapezoidal, Trapezoidal
  | Triangular, Triangular | Circular, Circular => true
  | _, _ => false
  end.

(** ** Constants *)

Definition MAX_ITER : nat := 100.
Definition TOLERANCE : number := 1e-6.

Record UnitConstants := { G : number; K : number }.

Definition UNIT_CONSTANTS (unit : UnitSystem) : UnitConstants :=
  match unit with
  | SI => {| G := 9.81; K := 1.0 |}
  | Imperial => {| G := 32.2; K := 1.486 |}
  end.

(** ** Geometric helpers *)

Record Geometry := {
  A : number;
  P : number;
  T : number;
  centroidDepth : number
}.

Definition zeroGeometry : Geometry :=
  {| A := 0; P := 0; T := 0; centroidDepth := 0 |}.

Section Engine.

Context {M : MathLib}.

Definition getGeometry (type : ChannelType) (y : number) (p : InputParams) : Geometry :=
  if y <=? 0 then {| A := 0; P := 0; T := 0; centroidDepth := 0 |}
  else
    match type with
    | Rectangular =>
        {| A := width p * y;
           P := width p + 2 * y;
           T := width p;
           centroidDepth := y / 2 |}
    | Trapezoidal =>
        let A_ := (width p + sideSlope p * y) * y in
        let P_ := width p + 2 * y * sqrt (1 + sideSlope p * sideSlope p) in
        let T_ := width p + 2 * sideSlope p * y in
        let y_bar_bottom := (y / 3) * ((2 * T_ + width p) / (T_ + width p)) in
        {| A := A_; P := P_; T := T_; centroidDepth := y - y_bar_bottom |}
    | Triangular =>
        {| A := sideSlope p * y * y;
           P := 2 * y * sqrt (1 + sideSlope p * sideSlope p);
           T := 2 * sideSlope p * y;
           centroidDepth := y / 3 |}
    | Circular =>
        let D := diameter p in
        let depth := if y >? D then D else y in
        let r := D / 2 in
        let h := depth in
        let theta := 2 * Math_acos (1 - (2 * h) / D) in
        let A_ := (Math_pow D 2 / 8) * (theta - Math_sin theta) in
        let P_ := (D / 2) * theta in
        let T_ := D * Math_sin (theta / 2) in
        let alpha := theta / 2 in
        let segmentCentroidFromCenter :=
          (2 * D * Math_pow (Math_sin alpha) 3) / (3 * (theta - Math_sin theta)) in
        {| A := A_; P := P_; T := T_;
           centroidDepth := (h - r) + segmentCentroidFromCenter |}
    end.

(** ** Solvers *)

(** The target of the normal-depth bisection, [n·Q/(k·√S)]. *)
Definition normalTarget (p : InputParams) (unit : UnitSystem) : number :=
  (flowRate p * manningN p) / (K (UNIT_CONSTANTS unit) * sqrt (slope p)).

(** The section factor [A·R^(2/3)] the bisection compares with the target. *)
Definition sectionFactor (geom : Geometry) : number :=
  let R := A geom / P geom in
  A geom * Math_pow R (2 / 3).

(** The bracket ceiling shared by the two depth solvers. *)
Definition bracketMax (type : ChannelType) (p : InputParams) : number :=
  match type with Circular => diameter p | _ => 50 end.

(** The [for] loop of [solveNormalDepth]; [iters] counts the iterations
    that remain, [min] and [max] are the loop's two variables. *)
Fixpoint normalLoop (type : ChannelType) (p : InputParams) (target : number)
    (iters : nat) (min max : number) : number :=
  match iters with
  | O => (min + max) / 2
  | S k =>
      let mid := (min + max) / 2 in
      let geom := getGeometry type mid p in
      if P geom =? 0 then normalLoop type p target k mid max
      else
        let val := sectionFactor geom in
        if abs (val - target) <? TOLERANCE then mid
        else if val <? target then normalLoop type p target k mid max
        else normalLoop type p target k min mid
  end.

Definition solveNormalDepth (type : ChannelType) (p : InputParams) (unit : UnitSystem) : number :=
  normalLoop type p (normalTarget p unit) MAX_ITER 0 (bracketMax type p).

Fixpoint criticalLoop (type : ChannelType) (p : InputParams) (G_ Q2 : number)
    (iters : nat) (min max : number) : number :=
  match iters with
  | O => (min + max) / 2
  | S k =>
      let mid := (min + max) / 2 in
      let geom := getGeometry type mid p in
      let val := G_ * Math_pow (A geom) 3 - Q2 * T geom in
      if abs val <? TOLERANCE then mid
      else if val <? 0 then criticalLoop type p G_ Q2 k mid max
      else criticalLoop type p G_ Q2 k min mid
  end.

Definition solveCriticalDepth (type : ChannelType) (p : InputParams) (unit : UnitSystem) : number :=
  criticalLoop type p (G (UNIT_CONSTANTS unit)) (Math_pow (flowRate p) 2)
    MAX_ITER 0 (bracketMax type p).

(** The minimum (critical) specific energy [yc + Vc²/2g] of a section,
    as [solveDepthFromEnergy] and the junction logic both compute it. *)
Definition criticalEnergy (type : ChannelType) (p : InputParams) (Q : number)
    (unit : UnitSystem) (yc : number) : number :=
  let geomC := getGeometry type yc p in
  let Vc := Q / A geomC in
  yc + (Vc * Vc) / (2 * G (UNIT_CONSTANTS unit)).

Fixpoint energyLoop (type : ChannelType) (p : InputParams) (E G_ : number)
    (regime : FlowRegime) (iters : nat) (min max : number) : number :=
  match iters with
  | O => (min + max) / 2
  | S k =>
      let mid := (min + max) / 2 in
      let geom := getGeometry type mid p in
      let V := if A geom >? 0 then flowRate p / A geom else 0 in
      let E_calc := mid + (V * V) / (2 * G_) in
      if abs (E_calc - E) <? 1e-4 then mid
      else
        match regime with
        | Supercritical =>
            if E_calc >? E then energyLoop type p E G_ regime k mid max
            else energyLoop type p E G_ regime k min mid
        | _ =>
            if E_calc <? E then energyLoop type p E G_ regime k mid max
            else energyLoop type p E G_ regime k min mid
        end
  end.

Definition solveDepthFromEnergy (type : ChannelType) (p : InputParams) (E : number)
    (unit : UnitSystem) (regime : FlowRegime) : number :=
  let G_ := G (UNIT_CONSTANTS unit) in
  let yc := solveCriticalDepth type p unit in
  let Ec := criticalEnergy type p (flowRate p) unit yc in
  if E <? Ec then yc
  else
    let '(min, max) :=
      match regime with
      | Supercritical => (0.01, yc)
      | _ => (yc, Math_max (yc * 5) (E * 1.5))
      end in
    energyLoop type p E G_ regime 50 min max.

(** ** Public calculators *)

Definition calculateSectionProperties (type : ChannelType) (y : number) (p : InputParams)
    (unit : UnitSystem) : SectionProperties :=
  let G_ := G (UNIT_CONSTANTS unit) in
  let geom := getGeometry type y p in
  let V := if A geom >? 0 then flowRate p / A geom else 0 in
  let E := y + (Math_pow V 2 / (2 * G_)) in
  let M_ :=
    if A geom >? 0
    then (Math_pow (flowRate p) 2 / (G_ * A geom)) + (A geom * centroidDepth geom)
    else 0 in
  {| sp_depth := y;
     area := A geom;
     perimeter := P geom;
     hydraulicRadius := if P geom >? 0 then A geom / P geom else 0;
     topWidth := T geom;
     specificEnergy := E;
     specificForce := M_;
     sp_velocity := V |}.

(** The three validation guards at the head of [calculateFlow]'s [try]. *)
Definition validate (type : ChannelType) (p : InputParams) : Exc unit :=
  throwIf ((slope p <=? 0) || (manningN p <=? 0) || (flowRate p <=? 0))
          "Slope, n, and Q must be positive." ;;
  throwIf (ChannelType_eqb type Circular && (diameter p <=? 0))
          "Diameter must be positive." ;;
  throwIf (ChannelType_eqb type Rectangular && (width p <=? 0))
          "Width must be positive.".

(** The body of the [try] block. *)
Definition calculateFlow_try (type : ChannelType) (p : InputParams) (unit : UnitSystem)
    : Exc CalculationResult :=
  validate type p ;;
  let yn := solveNormalDepth type p unit in
  let yc := solveCriticalDepth type p unit in
  let G_ := G (UNIT_CONSTANTS unit) in
  let geomN := getGeometry type yn p in
  let V := flowRate p / A geomN in
  let D_hyd := A geomN / T geomN in
  let Fr := V / sqrt (G_ * D_hyd) in
  let regime :=
    if Fr <? 0.99 then Subcritical
    else if Fr >? 1.01 then Supercritical
    else Critical in
  let geomC := getGeometry type yc p in
  let Vc := flowRate p / A geomC in
  Return {| normalDepth := yn;
            criticalDepth := yc;
            velocity := V;
            froudeNumber := Fr;
            flowRegime := regime;
            criticalVelocity := Vc;
            error := None |}.

(** [try { ... } catch (e) { return { ..., error: e.message } }] *)
Definition calculateFlow (type : ChannelType) (p : InputParams) (unit : UnitSystem)
    : CalculationResult :=
  match calculateFlow_try type p unit with
  | Return r => r
  | Throw message =>
      {| normalDepth := 0; criticalDepth := 0; velocity := 0; froudeNumber := 0;
         flowRegime := Critical; criticalVelocity := 0;
         error := Some message |}
  end.

(** ** Multi-reach profile calculation *)

(** Step 2: the slope of an Elevation-mode reach is derived. *)
Definition computeSections (sections : list CanalSectionInput) : list CanalSectionInput :=
  map (fun s =>
         let slope_ :=
           match Sec.inputMode s with
           | Elevation => (Sec.usElevation s - Sec.dsElevation s) / Sec.length s
           | Slope => Sec.slope s
           end in
         Sec_withSlope s slope_)
      sections.

(** Step 3: the sweep order, each reach with its original index. *)
Definition processingOrder (isUpstreamCalc : bool) (computedSections : list CanalSectionInput)
    : list (CanalSectionInput * nat) :=
  if isUpstreamCalc
  then mapi (fun s idx => (s, (List.length computedSections - 1 - idx)%nat)) (rev computedSections)
  else mapi (fun s idx => (s, idx)) computedSections.

(** A recorded point before stitching: local distance, depth, reach
    index, and placeholder elevations. *)
Definition rawPoint (x_local y : number) (originalIdx : nat) : ProfilePoint :=
  {| distance := x_local; bedElevation := 0; waterElevation := 0; depth := y;
     normalDepthElevation := 0; criticalDepthElevation := 0;
     sectionIndex := originalIdx |}.

(** The specific energy the total-head balance requires of the new
    reach at a junction: [E_prev + z_prev_end - z_curr_start]. *)
Definition requiredEnergy (type : ChannelType) (baseParams : InputParams) (unit : UnitSystem)
    (isUpstreamCalc : bool) (prevSec currSec : CanalSectionInput) (currentDepth : number)
    : number :=
  let G_ := G (UNIT_CONSTANTS unit) in
  let z_prev_end :=
    if isUpstreamCalc
    then match Sec.inputMode prevSec with Elevation => Sec.usElevation prevSec | Slope => 0 end
    else match Sec.inputMode prevSec with Elevation => Sec.dsElevation prevSec | Slope => 0 end in
  let z_curr_start :=
    if isUpstreamCalc
    then match Sec.inputMode currSec with Elevation => Sec.dsElevation currSec | Slope => 0 end
    else match Sec.inputMode currSec with Elevation => Sec.usElevation currSec | Slope => 0 end in
  let geomPrev := getGeometry type currentDepth baseParams in
  let Vprev := flowRate baseParams / A geomPrev in
  let E_prev := currentDepth + (Vprev * Vprev) / (2 * G_) in
  let TotalHead := E_prev + z_prev_end in
  TotalHead - z_curr_start.

(** The regime the sweep direction implies for a junction solve. *)
Definition sweepRegime (isUpstreamCalc : bool) : FlowRegime :=
  if isUpstreamCalc then Subcritical else Supercritical.

(** The depth a reach is entered with: the global boundary condition for
    the first reach of the sweep ([prev = None], the source's [i === 0]),
    the junction energy balance for the others. *)
Definition entryDepth (type : ChannelType) (baseParams : InputParams) (bc : BoundaryCondition)
    (unit : UnitSystem) (isUpstreamCalc : bool) (prev : option CanalSectionInput)
    (s : CanalSectionInput) (currentDepth : number) : number :=
  let sectionParams := withSlope baseParams (Sec.slope s) in
  let yn := solveNormalDepth type sectionParams unit in
  let yc := solveCriticalDepth type sectionParams unit in
  match prev with
  | None =>
      match BC.type bc with
      | NormalDepth => yn
      | CriticalDepth => yc
      | FixedDepth => BC.value bc
      end
  | Some prevSec =>
      let E_req := requiredEnergy type baseParams unit isUpstreamCalc prevSec s currentDepth in
      let regime := sweepRegime isUpstreamCalc in
      let yc_curr := solveCriticalDepth type sectionParams unit in
      let Ec := criticalEnergy type sectionParams (flowRate baseParams) unit yc_curr in
      if E_req <? Ec then yc_curr
      else solveDepthFromEnergy type sectionParams E_req unit regime
  end.

(** The bounds check after a sub-step. *)
Definition boundsCheck (y : number) : number :=
  let y1 := if y <=? 0 then 0.01 else y in
  if y1 >? 100 then 100 else y1.

(** The standard-step [for] loop of one reach; [steps] counts the
    sub-steps that remain, a [break] returns the state as it stands.
    (The source's empty [if (Math.abs(denominator) < 0.05) { }] has no
    effect and is omitted.) *)
Fixpoint gvfLoop (type : ChannelType) (baseParams sectionParams : InputParams)
    (unit : UnitSystem) (dx : number) (originalIdx : nat)
    (steps : nat) (y x_local : number) (sectionPoints : list ProfilePoint)
    : number * list ProfilePoint :=
  match steps with
  | O => (y, sectionPoints)
  | S k =>
      if y <=? 0 then (y, sectionPoints)
      else
        let geom := getGeometry type y sectionParams in
        if (A geom =? 0) || (T geom =? 0) then (y, sectionPoints)
        else
          let G_ := G (UNIT_CONSTANTS unit) in
          let K_ := K (UNIT_CONSTANTS unit) in
          let V := flowRate baseParams / A geom in
          let R := if P geom >? 0 then A geom / P geom else 0 in
          let Dh := A geom / T geom in
          let Sf := Math_pow ((manningN sectionParams * V) / (K_ * Math_pow R (2 / 3))) 2 in
          let Fr2 := Math_pow V 2 / (G_ * Dh) in
          let numerator := slope sectionParams - Sf in
          let denominator := 1 - Fr2 in
          let dydx := numerator / denominator in
          let dy := dydx * dx in
          let y' := boundsCheck (y + dy) in
          let x_local' := x_local + dx in
          gvfLoop type baseParams sectionParams unit dx originalIdx k y' x_local'
                  (sectionPoints ++ [rawPoint x_local' y' originalIdx])
  end.

(** One iteration of the loop over the processing order: entry depth,
    integration, and the reach's points in 0 -> L order.  Returns the
    exit depth (the next [currentDepth]) and the points. *)
Definition processReach (type : ChannelType) (baseParams : InputParams) (bc : BoundaryCondition)
    (unit : UnitSystem) (stepPerSection : nat) (isUpstreamCalc : bool)
    (prev : option CanalSectionInput) (currentDepth : number)
    (s : CanalSectionInput) (originalIdx : nat) : number * list ProfilePoint :=
  let sectionParams := withSlope baseParams (Sec.slope s) in
  let currentDepth' := entryDepth type baseParams bc unit isUpstreamCalc prev s currentDepth in
  let dx := (Sec.length s / of_nat stepPerSection) * (if isUpstreamCalc then -1 else 1) in
  let x_local := if isUpstreamCalc then Sec.length s else 0 in
  let '(y, sectionPoints) :=
    gvfLoop type baseParams sectionParams unit dx originalIdx stepPerSection
            currentDepth' x_local [rawPoint x_local currentDepth' originalIdx] in
  (y, if isUpstreamCalc then rev sectionPoints else sectionPoints).

Fixpoint reachLoop (type : ChannelType) (baseParams : InputParams) (bc : BoundaryCondition)
    (unit : UnitSystem) (stepPerSection : nat) (isUpstreamCalc : bool)
    (order : list (CanalSectionInput * nat)) (prev : option CanalSectionInput)
    (currentDepth : number) (allPoints : list ProfilePoint) : list ProfilePoint :=
  match order with
  | [] => allPoints
  | (s, originalIdx) :: rest =>
      let '(y, pts) :=
        processReach type baseParams bc unit stepPerSection isUpstreamCalc
                     prev currentDepth s originalIdx in
      reachLoop type baseParams bc unit stepPerSection isUpstreamCalc
                rest (Some s) y (allPoints ++ pts)
  end.

(** Step 4: global start distance of each reach. *)
Fixpoint sectionStartDist (globalDist : number) (computedSections : list CanalSectionInput)
    : list number :=
  match computedSections with
  | [] => []
  | s :: r => globalDist :: sectionStartDist (globalDist + Sec.length s) r
  end.

(** The reaches with their indices, as the index loops visit them. *)
Definition indexed (computedSections : list CanalSectionInput) : list (CanalSectionInput * nat) :=
  mapi (fun s i => (s, i)) computedSections.

(** The body of the "Fill knowns" [forEach]: an Elevation-mode reach
    sets both its end nodes. *)
Definition fillStep (z : list (option number)) (si : CanalSectionInput * nat)
    : list (option number) :=
  let '(s, i) := si in
  match Sec.inputMode s with
  | Elevation => assign (assign z i (Some (Sec.usElevation s))) (i + 1)%nat (Some (Sec.dsElevation s))
  | Slope => z
  end.

(** [new Array(n + 1).fill(null)], then the "Fill knowns" loop. *)
Definition fillKnowns (computedSections : list CanalSectionInput) : list (option number) :=
  fold_left fillStep (indexed computedSections)
            (repeat None (List.length computedSections + 1)%nat).

(** [if (z_nodes[0] === null) z_nodes[0] = 100;] *)
Definition anchorDatum (z : list (option number)) : list (option number) :=
  match nth 0 z None with
  | None => assign z 0 (Some 100)
  | Some _ => z
  end.

(** The body of the forward pass: [Z_down = Z_up - S*L] into a null
    node. *)
Definition forwardStep (z : list (option number)) (si : CanalSectionInput * nat)
    : list (option number) :=
  let '(s, i) := si in
  match nth (i + 1)%nat z None with
  | None => assign z (i + 1)%nat (Some (toNumber (nth i z None) - Sec.slope s * Sec.length s))
  | Some _ => z
  end.

(** "Fill unknowns (forward pass)", [i] from 0 up. *)
Definition forwardPass (computedSections : list CanalSectionInput) (z : list (option number))
    : list (option number) :=
  fold_left forwardStep (indexed computedSections) z.

(** The body of the backward pass: a null node before a known one. *)
Definition backwardStep (z : list (option number)) (si : CanalSectionInput * nat)
    : list (option number) :=
  let '(s, i) := si in
  match nth i z None, nth (i + 1)%nat z None with
  | None, Some z_next => assign z i (Some (z_next + Sec.slope s * Sec.length s))
  | _, _ => z
  end.

(** "Simple Backward pass", [i] from the last reach down. *)
Definition backwardPass (computedSections : list CanalSectionInput) (z : list (option number))
    : list (option number) :=
  fold_left backwardStep (rev (indexed computedSections)) z.

Definition z_nodes (computedSections : list CanalSectionInput) : list (option number) :=
  backwardPass computedSections
    (forwardPass computedSections (anchorDatum (fillKnowns computedSections))).

(** "Group points by section". *)
Definition pointsBySection (allPoints : list ProfilePoint) : PointMap :=
  fold_left (fun m p => Map_push m (sectionIndex p) p) allPoints [].

(** "Now Map Points": the points of reach [i] in global coordinates. *)
Definition mapPoints (type : ChannelType) (baseParams : InputParams) (unit : UnitSystem)
    (starts : list number) (z : list (option number)) (m : PointMap)
    (s : CanalSectionInput) (i : nat) : list ProfilePoint :=
  let pts := match Map_get m i with Some v => v | None => [] end in
  let startX := nth i starts 0 in
  let startZ := toNumber (nth i z None) in
  let yn := solveNormalDepth type (withSlope baseParams (Sec.slope s)) unit in
  let yc := solveCriticalDepth type (withSlope baseParams (Sec.slope s)) unit in
  map (fun p =>
         let globalX := startX + distance p in
         let bedZ := startZ - Sec.slope s * distance p in
         {| distance := globalX;
            bedElevation := bedZ;
            waterElevation := bedZ + depth p;
            depth := depth p;
            normalDepthElevation := bedZ + yn;
            criticalDepthElevation := bedZ + yc;
            sectionIndex := i |})
      pts.

(** The comparator of the final sort, [(a, b) => a.distance - b.distance]. *)
Definition byDistance (a b : ProfilePoint) : number := distance a - distance b.

(** The points before the final sort. *)
Definition finalPoints (type : ChannelType) (baseParams : InputParams)
    (sections : list CanalSectionInput) (bc : BoundaryCondition) (unit : UnitSystem)
    (stepPerSection : nat) : list ProfilePoint :=
  let isUpstreamCalc := match BC.location bc with Downstream => true | Upstream => false end in
  let computedSections := computeSections sections in
  let allPoints :=
    reachLoop type baseParams bc unit stepPerSection isUpstreamCalc
              (processingOrder isUpstreamCalc computedSections) None (BC.value bc) [] in
  let starts := sectionStartDist 0 computedSections in
  let z := z_nodes computedSections in
  let m := pointsBySection allPoints in
  List.concat (mapi (mapPoints type baseParams unit starts z m) computedSections).

(** [stepPerSection] is the number of sub-steps per reach (default 20);
    the model takes it as a natural number. *)
Definition calculateMultiReachProfile (type : ChannelType) (baseParams : InputParams)
    (sections : list CanalSectionInput) (bc : BoundaryCondition) (unit : UnitSystem)
    (stepPerSection : nat) : list ProfilePoint :=
  Array_sort byDistance (finalPoints type baseParams sections bc unit stepPerSection).

End Engine.

(** ** The calculator view ([App.tsx])

    The state the view keeps and the handlers that change it.  The
    [result] and [sectionProps] states are written by effects that
    depend on every state they read, so after the effects have run they
    are the functions of the other states given here. *)

(** [DEFAULT_PARAMS] of [types.ts]. *)
Definition DEFAULT_PARAMS (type : ChannelType) : InputParams :=
  match type with
  | Rectangular =>
      {| flowRate := 10; slope := 0.001; manningN := 0.013;
         width := 5; sideSlope := 0; diameter := 0 |}
  | Trapezoidal =>
      {| flowRate := 10; slope := 0.001; manningN := 0.013;
         width := 3; sideSlope := 2; diameter := 0 |}
  | Triangular =>
      {| flowRate := 5; slope := 0.005; manningN := 0.013;
         width := 0; sideSlope := 1.5; diameter := 0 |}
  | Circular =>
      {| flowRate := 2; slope := 0.002; manningN := 0.013;
         width := 0; sideSlope := 0; diameter := 2 |}
  end.

(** [keyof InputParams] *)
Module Key.
Inductive t := flowRate | slope | manningN | width | sideSlope | diameter.
End Key.

(** [{ ...prev, [field]: v }] *)
Definition withField (p : InputParams) (field : Key.t) (v : number) : InputParams :=
  match field with
  | Key.flowRate =>
      {| flowRate := v; slope := slope p; manningN := manningN p;
         width := width p; sideSlope := sideSlope p; diameter := diameter p |}
  | Key.slope =>
      {| flowRate := flowRate p; slope := v; manningN := manningN p;
         width := width p; sideSlope := sideSlope p; diameter := diameter p |}
  | Key.manningN =>
      {| flowRate := flowRate p; slope := slope p; manningN := v;
         width := width p; sideSlope := sideSlope p; diameter := diameter p |}
  | Key.width =>
      {| flowRate := flowRate p; slope := slope p; manningN := manningN p;
         width := v; sideSlope := sideSlope p; diameter := diameter p |}
  | Key.sideSlope =>
      {| flowRate := flowRate p; slope := slope p; manningN := manningN p;
         width := width p; sideSlope := v; diameter := diameter p |}
  | Key.diameter =>
      {| flowRate := flowRate p; slope := slope p; manningN := manningN p;
         width := width p; sideSlope := sideSlope p; diameter := v |}
  end.

Module App.

Inductive AnalysisMode := Normal | Critical | Custom.

Record State := {
  unit : UnitSystem;
  activeTab : ChannelType;
  params : InputParams;
  analysisMode : AnalysisMode;
  customDepth : number
}.

(** the discharge and the two lengths of a parameter set, SI to Imperial *)
Definition toImperial (p : InputParams) : InputParams :=
  {| flowRate := flowRate p * 35.3147; slope := slope p; manningN := manningN p;
     width := width p * 3.28084; sideSlope := sideSlope p;
     diameter := diameter p * 3.28084 |}.

(** and Imperial to SI *)
Definition toSI (p : InputParams) : InputParams :=
  {| flowRate := flowRate p / 35.3147; slope := slope p; manningN := manningN p;
     width := width p / 3.28084; sideSlope := sideSlope p;
     diameter := diameter p / 3.28084 |}.

Definition toggleUnit (st : State) : State :=
  let newUnit := match unit st with SI => Imperial | Imperial => SI end in
  let newParams :=
    match newUnit with
    | Imperial => toImperial (params st)
    | SI => toSI (params st)
    end in
  {| unit := newUnit;
     activeTab := activeTab st;
     params := newParams;
     analysisMode := analysisMode st;
     customDepth :=
       match newUnit with
       | Imperial => customDepth st * 3.28084
       | SI => customDepth st / 3.28084
       end |}.

Definition handleTabChange (st : State) (type : ChannelType) : State :=
  let def := DEFAULT_PARAMS type in
  {| unit := unit st;
     activeTab := type;
     params :=
       match unit st with
       | Imperial =>
           {| flowRate := flowRate def * 35.3147; slope := slope def;
              manningN := manningN def; width := width def * 3.28084;
              sideSlope := sideSlope def; diameter := diameter def * 3.28084 |}
       | SI => def
       end;
     analysisMode := Normal;
     customDepth := customDepth st |}.

(** [handleChange], from the number [parseFloat] made of the entry. *)
Definition handleChange (st : State) (field : Key.t) (numVal : number) : State :=
  {| unit := unit st;
     activeTab := activeTab st;
     params := withField (params st) field (if is_nan numVal then 0 else numVal);
     analysisMode := analysisMode st;
     customDepth := customDepth st |}.

Section Effects.
Context {M : MathLib}.

(** the first effect: [setResult(calculateFlow(activeTab, params, unit))] *)
Definition result (st : State) : CalculationResult :=
  calculateFlow (activeTab st) (params st) (unit st).

(** the second effect: the section properties at the depth the analysis
    mode selects *)
Definition sectionProps (st : State) : SectionProperties :=
  let depth :=
    match analysisMode st with
    | Normal => normalDepth (result st)
    | Critical => criticalDepth (result st)
    | Custom => customDepth st
    end in
  let depth := if is_nan depth then 0 else depth in
  calculateSectionProperties (activeTab st) depth (params st) (unit st).

End Effects.
End App.

(** * Definitions used to state the properties *)

(** ** The error path *)

Definition MSG_POSITIVE : string := "Slope, n, and Q must be positive.".
Definition MSG_DIAMETER : string := "Diameter must be positive.".
Definition MSG_WIDTH : string := "Width must be positive.".

(** The result the [catch] block builds. *)
Definition errorResult (message : string) : CalculationResult :=
  {| normalDepth := 0; criticalDepth := 0; velocity := 0; froudeNumber := 0;
     flowRegime := Critical; criticalVelocity := 0; error := Some message |}.

(** ** The normal-depth bisection *)

(** [{ ...p, manningN: n }] *)
Definition withManningN (p : InputParams) (n : number) : InputParams :=
  {| flowRate := flowRate p; slope := slope p; manningN := n;
     width := width p; sideSlope := sideSlope p; diameter := diameter p |}.

Section Statements.
Context {M : MathLib}.

(** Manning's equation as the specification writes it,
    [Q' = (k/n)·A·R^(2/3)·√S], evaluated at depth [y]. *)
Definition manningDischarge (type : ChannelType) (p : InputParams) (unit : UnitSystem)
    (y : number) : number :=
  let geom := getGeometry type y p in
  (K (UNIT_CONSTANTS unit) / manningN p) * A geom
  * Math_pow (A geom / P geom) (2 / 3) * sqrt (slope p).

(** Whether the loop of [solveNormalDepth] leaves through its tolerance
    test ([return mid] inside the loop) rather than by running out of
    iterations: the same loop, returning the exit taken. *)
Fixpoint normalLoopStops (type : ChannelType) (p : InputParams) (target : number)
    (iters : nat) (min max : number) : bool :=
  match iters with
  | O => false
  | S k =>
      let mid := (min + max) / 2 in
      let geom := getGeometry type mid p in
      if P geom =? 0 then normalLoopStops type p target k mid max
      else
        let val := sectionFactor geom in
        if abs (val - target) <? TOLERANCE then true
        else if val <? target then normalLoopStops type p target k mid max
        else normalLoopStops type p target k min mid
  end.

End Statements.

(** ** Order on profile points *)

(** [a.distance <= b.distance]. *)
Definition distance_le (a b : ProfilePoint) : Prop := (distance a <=? distance b) = true.

(** The point's distance is a number (not NaN). *)
Definition hasDistance (p : ProfilePoint) : Prop := is_nan (distance p) = false.

(** [b] does not lie before [a]: not [b.distance < a.distance]. *)
Definition never_decreases (a b : ProfilePoint) : Prop :=
  (distance b <? distance a) = false.

(** ** Bed-elevation nodes *)

(** Node [j] of a [z_nodes] array is not [null]. *)
Definition known (z : list (option number)) (j : nat) : Prop := nth j z None <> None.

(** ** Rounded results *)

(** A finite or infinite binary64 value of sign [sx] (not zero, not NaN). *)
Definition signed_nonzero (sx : bool) (r : spec_float) : Prop :=
  (exists m e, r = S754_finite sx m e) \/ r = S754_infinity sx.

(** A zero or a finite binary64 value. *)
Definition SF_finite (x : spec_float) : Prop :=
  match x with S754_zero _ | S754_finite _ _ _ => True | _ => False end.

(** ** Exact values and their rounding

    Every finite binary64 number is an integer multiple of [2^-1074]:
    scaled by [2^1075] its value is an (even) integer.  The arithmetic
    of IEEE 754 is stated on these integers: the float an operation
    returns has the value of the exact result, rounded to the nearest
    point of the format's grid, ties to even. *)

Section ExactValues.
#[local] Open Scope Z_scope.

(** [num / den] rounded to the nearest integer, ties to even. *)
Definition rne (den num : Z) : Z :=
  let q := num / den in
  let r := num mod den in
  match 2 * r ?= den with
  | Lt => q
  | Gt => q + 1
  | Eq => if Z.even q then q else q + 1
  end.

(** The scaled value of [2^1024], where rounding overflows. *)
Definition OVF : Z := 2 ^ 2099.

(** The exponent of the grid the scaled value [num / den] is rounded
    on: 53 bits are kept, and no bit below the subnormal grid. *)
Definition cexp (num den : Z) : Z := Z.max (Z.log2 (num / den) + 1 - 53) 1.

(** The rounding of a non-negative scaled value [num / den]. *)
Definition rnd_pos (num den : Z) : Z :=
  Z.min (rne (den * 2 ^ cexp num den) num * 2 ^ cexp num den) OVF.

(** The rounding of the scaled value [num / den], for [den > 0]. *)
Definition rnd (num den : Z) : Z :=
  if num <? 0 then - rnd_pos (- num) den else rnd_pos num den.

(** The record [mrs] of the rounding algorithm describes the rational
    [N / P]: its mantissa is the quotient, its round and sticky bits
    place the remainder against the half. *)
Definition shr_inv (P N : Z) (mrs : shr_record) : Prop :=
  shr_m mrs = N / P /\
  shr_r mrs = (P <=? 2 * (N mod P)) /\
  shr_s mrs = negb (((2 * (N mod P)) mod P) =? 0).

(** The value of a float, scaled by [2^1075]; an infinity counts as
    [2^1024]. *)
Definition sval (x : spec_float) : Z :=
  match x with
  | S754_zero _ => 0
  | S754_infinity s => cond_Zopp s OVF
  | S754_nan => 0
  | S754_finite s m e => cond_Zopp s (Zpos m * 2 ^ (e + 1075))
  end.

End ExactValues.

Definition fval (x : float) : Z := sval (Prim2SF x).

(** ** Brackets of the bisection *)

(** [2^1023]: below it, the sum of two depths of a bracket cannot
    overflow. *)
Definition BRACKET_LIMIT : number := 0x1p1023.

(** [0 <= lo <= hi < 2^1023] *)
Definition bracket (lo hi : number) : Prop :=
  (0 <=? lo) = true /\ (lo <=? hi) = true /\ (hi <? BRACKET_LIMIT) = true.

(** ** Distances along a reach *)

(** The local distance [x] is a number, and once the step [dx] is
    infinite it is finite or that infinity: adding [dx] again gives a
    number. *)
Definition steady (dx x : number) : Prop :=
  is_nan x = false /\ (is_finite dx = false -> is_finite x = true \/ x = dx).

(** A reach length as the data model has it: positive and finite. *)
Definition properLength (s : CanalSectionInput) : Prop :=
  (0 <? Sec.length s) = true /\ is_finite (Sec.length s) = true.

(** The running total of the reach lengths (the start chainage of each
    reach) stays finite. *)
Definition finiteChainage (sections : list CanalSectionInput) : Prop :=
  Forall (fun d => is_finite d = true) (sectionStartDist 0 sections).

(** ** The profile, reach by reach *)

(** [pointsBySection.get(i) || []] *)
Definition Map_getOr (m : PointMap) (i : nat) : list ProfilePoint :=
  match Map_get m i with Some v => v | None => [] end.

(** the points of [l] recorded for reach [i], in their order *)
Definition pointsOfReach (i : nat) (l : list ProfilePoint) : list ProfilePoint :=
  filter (fun p => Nat.eqb (sectionIndex p) i) l.

Section ProfileStatements.
Context {M : MathLib}.

(** The elevations of an output point agree with its depth and with the
    normal and critical depths of its own reach. *)
Definition consistentPoint (type : ChannelType) (baseParams : InputParams) (unit : UnitSystem)
    (computedSections : list CanalSectionInput) (pt : ProfilePoint) : Prop :=
  exists s,
    nth_error computedSections (sectionIndex pt) = Some s /\
    waterElevation pt = bedElevation pt + depth pt /\
    normalDepthElevation pt =
      bedElevation pt + solveNormalDepth type (withSlope baseParams (Sec.slope s)) unit /\
    criticalDepthElevation pt =
      bedElevation pt + solveCriticalDepth type (withSlope baseParams (Sec.slope s)) unit.

End ProfileStatements.

(** ** Bed-elevation nodes, in closed form *)

(** The elevation of the node at the tail of reach [s], whose head node
    is at [z]: the upstream elevation of the next reach when that one is
    Elevation-specified, else the reach's own downstream elevation, or
    [z - slope * length] for a Slope-mode reach. *)
Definition tailElevation (z : number) (s : CanalSectionInput) (next : option CanalSectionInput)
    : number :=
  let own :=
    match Sec.inputMode s with
    | Elevation => Sec.dsElevation s
    | Slope => z - Sec.slope s * Sec.length s
    end in
  match next with
  | Some s' =>
      match Sec.inputMode s' with
      | Elevation => Sec.usElevation s'
      | Slope => own
      end
  | None => own
  end.

Fixpoint nodesFrom (z : number) (cs : list CanalSectionInput) : list number :=
  match cs with
  | [] => [z]
  | s :: r => z :: nodesFrom (tailElevation z s (hd_error r)) r
  end.

(** The elevation of node 0: the upstream elevation of an
    Elevation-specified first reach, the datum 100 otherwise. *)
Definition headElevation (cs : list CanalSectionInput) : number :=
  match cs with
  | s :: _ => match Sec.inputMode s with Elevation => Sec.usElevation s | Slope => 100 end
  | [] => 100
  end.

Definition nodeElevations (cs : list CanalSectionInput) : list number :=
  nodesFrom (headElevation cs) cs.

(** the two filling loops, on the part of the array from the current
    node on *)
Fixpoint fillLocal (cs : list CanalSectionInput) (arr : list (option number))
    : list (option number) :=
  match cs, arr with
  | s :: r, a :: b :: t =>
      match Sec.inputMode s with
      | Elevation => Some (Sec.usElevation s) :: fillLocal r (Some (Sec.dsElevation s) :: t)
      | Slope => a :: fillLocal r (b :: t)
      end
  | _, _ => arr
  end.

Fixpoint forwardLocal (cs : list CanalSectionInput) (arr : list (option number))
    : list (option number) :=
  match cs, arr with
  | s :: r, a :: b :: t =>
      a :: forwardLocal r
             (match b with
              | None => Some (toNumber a - Sec.slope s * Sec.length s)
              | Some _ => b
              end :: t)
  | _, _ => arr
  end.

(** the array after "Fill knowns", from a node whose value so far is [h] *)
Fixpoint fillForm (h : option number) (cs : list CanalSectionInput) : list (option number) :=
  match cs with
  | [] => [h]
  | s :: r =>
      match Sec.inputMode s with
      | Elevation => Some (Sec.usElevation s) :: fillForm (Some (Sec.dsElevation s)) r
      | Slope => h :: fillForm None r
      end
  end.

(** the value "Fill knowns" leaves in the first node of [fillForm h cs] *)
Definition filledHead (h : option number) (cs : list CanalSectionInput) : option number :=
  match cs with
  | s :: _ => match Sec.inputMode s with Elevation => Some (Sec.usElevation s) | Slope => h end
  | [] => h
  end.

(** ** The section analysis of the view *)

(** the section properties of a dry section *)
Definition drySection : SectionProperties :=
  {| sp_depth := 0; area := 0; perimeter := 0; hydraulicRadius := 0; topWidth := 0;
     specificEnergy := 0; specificForce := 0; sp_velocity := 0 |}.

(** ** Sign bits *)

(** a float that is NaN or has a clear sign bit *)
Definition SF_unsigned (x : spec_float) : Prop :=
  match x with
  | S754_zero s | S754_infinity s | S754_finite s _ _ => s = false
  | S754_nan => True
  end.

Definition unsigned (x : float) : Prop := SF_unsigned (Prim2SF x).

(** ** Bisection *)

(** What an iteration of a bisection decides at its midpoint. *)
Inductive Verdict := Stop | GoUp | GoDown.

(** The loop the three solvers share: at most [iters] midpoints, then
    the midpoint of the last bracket. *)
Fixpoint bisect (verdict : number -> Verdict) (iters : nat) (min max : number) : number :=
  match iters with
  | O => (min + max) / 2
  | S k =>
      let mid := (min + max) / 2 in
      match verdict mid with
      | Stop => mid
      | GoUp => bisect verdict k mid max
      | GoDown => bisect verdict k min mid
      end
  end.

(** The bracket [[lo', hi']] is what [k] halvings leave of [[lo, hi]],
    up to the rounding of the midpoints: with widths [w'] and [w] and
    [e = 2^-49 ceiling + 8] (in units of [2^-1075]),
    [w' - e <= (w - e) / 2^k]. *)
Definition narrowed (ceiling : Z) (k : nat) (lo hi lo' hi' : number) : Prop :=
  (2 ^ Z.of_nat k * (2 ^ 52 * (fval hi' - fval lo') - (8 * ceiling + 2 ^ 55))
   <= 2 ^ 52 * (fval hi - fval lo) - (8 * ceiling + 2 ^ 55))%Z.

Section SolverStatements.
Context {M : MathLib}.

(** The decisions of the three solvers at a midpoint. *)
Definition normalVerdict (type : ChannelType) (p : InputParams) (target : number)
    (mid : number) : Verdict :=
  let geom := getGeometry type mid p in
  if P geom =? 0 then GoUp
  else if abs (sectionFactor geom - target) <? TOLERANCE then Stop
  else if sectionFactor geom <? target then GoUp
  else GoDown.

Definition criticalVerdict (type : ChannelType) (p : InputParams) (G_ Q2 : number)
    (mid : number) : Verdict :=
  let geom := getGeometry type mid p in
  let val := G_ * Math_pow (A geom) 3 - Q2 * T geom in
  if abs val <? TOLERANCE then Stop
  else if val <? 0 then GoUp
  else GoDown.





(** ** Sub-steps and junctions of the sweep *)

(** The depth a sub-step reaches from the depth [y], before the bounds
    check: [y + dy] with [dy = dydx * dx] and [dydx = (S0 - Sf) / (1 - Fr²)]. *)
Definition steppedDepth (type : ChannelType) (baseParams sectionParams : InputParams)
    (unit : UnitSystem) (dx y : number) : number :=
  let geom := getGeometry type y sectionParams in
  let G_ := G (UNIT_CONSTANTS unit) in
  let K_ := K (UNIT_CONSTANTS unit) in
  let V := flowRate baseParams / A geom in
  let R := if P geom >? 0 then A geom / P geom else 0 in
  let Dh := A geom / T geom in
  let Sf := Math_pow ((manningN sectionParams * V) / (K_ * Math_pow R (2 / 3))) 2 in
  let Fr2 := Math_pow V 2 / (G_ * Dh) in
  y + ((slope sectionParams - Sf) / (1 - Fr2)) * dx.



End SolverStatements.

(** Each depth of [ds] follows from the one before it ([y] for the
    first) by [next]. *)
Fixpoint depthChain (next : number -> number) (y : number) (ds : list number) : Prop :=
  match ds with
  | [] => True
  | d :: r => d = next y /\ depthChain next d r
  end.

(** ** Inputs of the examples *)

(** The default rectangular channel of [types.ts]. *)
Definition defaultRectangle : InputParams :=
  {| flowRate := 10; slope := 0.001; manningN := 0.013;
     width := 5; sideSlope := 0; diameter := 0 |}.

(** A rectangular channel at (almost exactly) its critical slope. *)
Definition criticalRectangle : InputParams :=
  {| flowRate := 10; slope := 0.0026; manningN := 0.013;
     width := 5; sideSlope := 0; diameter := 0 |}.

(** A rectangular channel whose normal depth lies above the bracket
    ceiling of 50: the section factor at depth 50 is about 446, the
    target [n·Q/√S] about 617. *)
Definition floodRectangle : InputParams :=
  {| flowRate := 1500; slope := 0.001; manningN := 0.013;
     width := 5; sideSlope := 0; diameter := 0 |}.

(** The default rectangle carrying a trickle: the target [n·Q/√S] is
    about 4.1e-4, of the order of the solver's absolute tolerance. *)
Definition trickleRectangle : InputParams :=
  {| flowRate := 0.001; slope := 0.001; manningN := 0.013;
     width := 5; sideSlope := 0; diameter := 0 |}.

(** The default triangular channel of [types.ts] with its side slope
    set to zero: it passes validation. *)
Definition flatTriangle : InputParams :=
  {| flowRate := 5; slope := 0.005; manningN := 0.013;
     width := 0; sideSlope := 0; diameter := 0 |}.

(** A Slope-mode reach followed by an Elevation-mode reach. *)
Definition slopeReach : CanalSectionInput :=
  {| Sec.length := 100; Sec.inputMode := Slope; Sec.slope := 0.01;
     Sec.usElevation := 0; Sec.dsElevation := 0 |}.

Definition elevationReach : CanalSectionInput :=
  {| Sec.length := 100; Sec.inputMode := Elevation; Sec.slope := 0;
     Sec.usElevation := 50; Sec.dsElevation := 49 |}.

(** A mild reach, and boundary conditions at either end. *)
Definition mildReach : CanalSectionInput :=
  {| Sec.length := 100; Sec.inputMode := Slope; Sec.slope := 0.001;
     Sec.usElevation := 0; Sec.dsElevation := 0 |}.


(** Just above the critical depth (0.7415) of [defaultRectangle]. *)
Definition upstreamDepth : BoundaryCondition :=
  {| BC.location := Upstream; BC.type := FixedDepth; BC.value := 0.75 |}.

Definition downstreamDepth : BoundaryCondition :=
  {| BC.location := Downstream; BC.type := FixedDepth; BC.value := 2 |}.

Definition downstreamNormal : BoundaryCondition :=
  {| BC.location := Downstream; BC.type := NormalDepth; BC.value := 0 |}.


(** states used as examples *)
Definition metricRectangle : App.State :=
  {| App.unit := SI; App.activeTab := Rectangular; App.params := DEFAULT_PARAMS Rectangular;
     App.analysisMode := App.Normal; App.customDepth := 1 |}.

Definition flatRectangle : App.State :=
  App.handleChange metricRectangle Key.slope nan.

(** ** A reference host library

    One concrete [MathLib], used to run the engine on inputs: [pow] as
    [exp (e * ln b)] behind the special cases of [Number::exponentiate]
    (with the exact products for the exponents 2 and 3), [sin] and
    [acos] by range reduction and power series.  Each is accurate to a
    few units in the last place on the arguments the engine passes. *)

Module RefMath.

Definition Z2F (z : Z) : number :=
  match z with
  | Z0 => 0
  | Zpos _ => PrimFloat.of_uint63 (Uint63.of_Z z)
  | Zneg p => - PrimFloat.of_uint63 (Uint63.of_Z (Zpos p))
  end.

(** Truncation of a number of moderate size to an integer. *)
Definition F2Z (x : number) : Z :=
  match Prim2SF x with
  | S754_finite s m e =>
      let v := Z.shiftl (Zpos m) e in if s then Z.opp v else v
  | _ => 0%Z
  end.

Definition LN2 : number := 0.6931471805599453.
Definition PI : number := 3.141592653589793.

(** [c j + u (c (j+1) + u (...))], [n] terms. *)
Fixpoint horner (c : nat -> number) (u : number) (n : nat) (j : nat) : number :=
  match n with
  | O => 0
  | S k => c j + u * horner c u k (S j)
  end.

Fixpoint fact_inv (j : nat) : number :=
  match j with O => 1 | S k => fact_inv k / of_nat j end.

Definition alt (j : nat) : number := if Nat.even j then 1 else -1.

Definition ln (x : number) : number :=
  let '(m, e) := Z.frexp x in
  let '(m, e) := if m <? 0.7071067811865476 then (2 * m, (e - 1)%Z) else (m, e) in
  let t := (m - 1) / (m + 1) in
  Z2F e * LN2 + 2 * t * horner (fun j => 1 / of_nat (2 * j + 1)) (t * t) 16 0.

Definition exp (y : number) : number :=
  if y >? 710 then infinity
  else if y <? (-746) then 0
  else
    let n := F2Z (y / LN2 + (if y <? 0 then -0.5 else 0.5)) in
    let r := y - Z2F n * LN2 in
    Z.ldexp (horner fact_inv r 22 0) n.

Definition pow (b e : number) : number :=
  if e =? 0 then 1
  else if is_nan e || is_nan b then nan
  else if e =? 2 then b * b
  else if e =? 3 then b * b * b
  else if b =? 0 then (if 0 <? e then 0 else infinity)
  else if b <? 0 then nan
  else if b =? infinity then (if 0 <? e then infinity else 0)
  else exp (e * ln b).

Definition sin_poly (r : number) : number :=
  r * horner (fun j => alt j * fact_inv (2 * j + 1)) (r * r) 12 0.

Definition cos_poly (r : number) : number :=
  horner (fun j => alt j * fact_inv (2 * j)) (r * r) 12 0.

Definition sin (x : number) : number :=
  if is_nan x || is_infinity x then nan
  else
    let k := F2Z (x / (PI / 2) + (if x <? 0 then -0.5 else 0.5)) in
    let r := x - Z2F k * (PI / 2) in
    match (k mod 4)%Z with
    | 0%Z => sin_poly r
    | 1%Z => cos_poly r
    | 2%Z => - sin_poly r
    | _ => - cos_poly r
    end.

(** [atan] on a non-negative argument. *)
Definition atan_pos (t : number) : number :=
  let halve u := u / (1 + sqrt (1 + u * u)) in
  let series u := u * horner (fun j => alt j / of_nat (2 * j + 1)) (u * u) 16 0 in
  if t >? 1 then PI / 2 - 4 * series (halve (halve (1 / t)))
  else 4 * series (halve (halve t)).

Definition acos (x : number) : number :=
  if is_nan x || (x >? 1) || (x <? (-1)) then nan
  else if x =? (-1) then PI
  else 2 * atan_pos (sqrt ((1 - x) / (1 + x))).

End RefMath.

(** * Facts about binary64

    The comparator of the final sort is [a.distance - b.distance]; what
    the sort needs of it is that the difference of two numbers is above
    zero exactly when the first is above the second.  This is proved on
    the specification of binary64 arithmetic ([SpecFloat]): a
    difference is the rounding of an exact integer difference of aligned
    mantissas, rounding keeps the sign, and rounds no non-zero value of
    that kind to zero.

    The bisection of the depth solvers needs more: that the midpoint of
    a bracket stays inside it, and that the solver's target and its two
    tests follow the order of the roughness.  Both come from the
    correct rounding of the four operations, proved below on the same
    specification, and from the monotonicity of rounding. *)

Section SpecFloatFacts.
#[local] Open Scope Z_scope.

Lemma digits2_pos_size m : digits2_pos m = Pos.size m.
Proof. induction m; simpl; congruence. Qed.

Lemma digits2_pos_bounds m :
  2 ^ (Zpos (digits2_pos m) - 1) <= Zpos m < 2 ^ Zpos (digits2_pos m).
Proof.
  induction m as [m IH|m IH|]; cbn [digits2_pos].
  - rewrite Pos2Z.inj_succ.
    replace (Z.succ (Zpos (digits2_pos m)) - 1) with (Zpos (digits2_pos m) - 1 + 1) by lia.
    rewrite Z.pow_succ_r by lia.
    rewrite Z.pow_add_r by lia. change (2 ^ 1) with 2. lia.
  - rewrite Pos2Z.inj_succ.
    replace (Z.succ (Zpos (digits2_pos m)) - 1) with (Zpos (digits2_pos m) - 1 + 1) by lia.
    rewrite Z.pow_succ_r by lia.
    rewrite Z.pow_add_r by lia. change (2 ^ 1) with 2. lia.
  - simpl. lia.
Qed.

Lemma iter_xO_pow m d : Zpos (Pos.iter xO m d) = Zpos m * 2 ^ Zpos d.
Proof.
  induction d as [|d IH] using Pos.peano_ind.
  - simpl. lia.
  - rewrite Pos.iter_succ, Pos2Z.inj_succ, Z.pow_succ_r by lia.
    rewrite Pos2Z.inj_xO, IH. lia.
Qed.

(** the mantissa [shl_align] returns, when the target exponent is not above *)
Lemma shl_align_value mx ex ez :
  ez <= ex -> Zpos (fst (shl_align mx ex ez)) = Zpos mx * 2 ^ (ex - ez).
Proof.
  intros H. unfold shl_align.
  destruct (ez - ex) as [|d|d] eqn:Hd.
  - replace (ex - ez) with 0 by lia. simpl. lia.
  - lia.
  - cbn [fst]. rewrite iter_xO_pow. f_equal. f_equal. lia.
Qed.

Lemma canonical_facts m e :
  canonical_mantissa prec emax m e = true ->
  -1074 <= e /\ Zpos (digits2_pos m) <= 53 /\ (-1074 < e -> Zpos (digits2_pos m) = 53).
Proof.
  unfold canonical_mantissa, fexp, SpecFloat.emin, prec, emax. rewrite Z.eqb_eq. lia.
Qed.

Lemma canonical_mantissa_bounds m e :
  canonical_mantissa prec emax m e = true ->
  -1074 <= e /\ Zpos m < 2 ^ 53 /\ (-1074 < e -> 2 ^ 52 <= Zpos m).
Proof.
  intros H. destruct (canonical_facts m e H) as (He & Hd & Hn).
  pose proof (digits2_pos_bounds m) as [Hlo Hhi].
  split; [exact He|]. split.
  - eapply Z.lt_le_trans; [exact Hhi|]. apply Z.pow_le_mono_r; lia.
  - intros Hgt. rewrite (Hn Hgt) in Hlo. exact Hlo.
Qed.

(** Comparing two canonical mantissas after alignment on the smaller
    exponent is comparing exponents first, mantissas second. *)
Lemma aligned_compare mx ex my ey :
  canonical_mantissa prec emax mx ex = true ->
  canonical_mantissa prec emax my ey = true ->
  (Zpos (fst (shl_align mx ex (Z.min ex ey))) ?= Zpos (fst (shl_align my ey (Z.min ex ey)))) =
  match ex ?= ey with
  | Lt => Lt
  | Gt => Gt
  | Eq => Pos.compare_cont Eq mx my
  end.
Proof.
  intros Hx Hy.
  destruct (canonical_mantissa_bounds _ _ Hx) as (Hex & Hmx & Hnx).
  destruct (canonical_mantissa_bounds _ _ Hy) as (Hey & Hmy & Hny).
  rewrite !shl_align_value by lia.
  destruct (Z.compare_spec ex ey) as [Heq|Hlt|Hgt].
  - subst ey. rewrite Z.min_id, Z.sub_diag. simpl (2 ^ 0). rewrite !Z.mul_1_r. reflexivity.
  - rewrite Z.min_l by lia. rewrite Z.sub_diag. simpl (2 ^ 0). rewrite Z.mul_1_r.
    apply Z.compare_lt_iff.
    assert (2 ^ 1 <= 2 ^ (ey - ex)) by (apply Z.pow_le_mono_r; lia).
    change (2 ^ 1) with 2 in *. specialize (Hny ltac:(lia)).
    change (2 ^ 53) with (2 ^ 52 * 2) in Hmx. nia.
  - rewrite Z.min_r by lia. rewrite Z.sub_diag. simpl (2 ^ 0). rewrite Z.mul_1_r.
    apply Z.compare_gt_iff.
    assert (2 ^ 1 <= 2 ^ (ex - ey)) by (apply Z.pow_le_mono_r; lia).
    change (2 ^ 1) with 2 in *. specialize (Hnx ltac:(lia)).
    change (2 ^ 53) with (2 ^ 52 * 2) in Hmy. nia.
Qed.

Lemma shr_1_m mrs : 0 <= shr_m mrs -> shr_m (shr_1 mrs) = Z.div2 (shr_m mrs).
Proof.
  destruct mrs as [m r s]. cbn [shr_m]. intros Hm.
  destruct m as [|[p|p|]|p]; try reflexivity; lia.
Qed.

Lemma iter_shr_1_m p : forall mrs,
  0 <= shr_m mrs -> shr_m (SpecFloat.iter_pos shr_1 p mrs) = shr_m mrs / 2 ^ Zpos p.
Proof.
  induction p as [p IH|p IH|]; intros mrs Hm; cbn [SpecFloat.iter_pos].
  - assert (H1 : 0 <= shr_m (shr_1 mrs)).
    { rewrite shr_1_m, Z.div2_div by assumption. apply Z.div_pos; lia. }
    assert (H2 : 0 <= shr_m (SpecFloat.iter_pos shr_1 p (shr_1 mrs))).
    { rewrite IH by assumption. apply Z.div_pos; [assumption|]. apply Z.pow_pos_nonneg; lia. }
    rewrite IH, IH, shr_1_m, Z.div2_div by assumption.
    rewrite !Z.div_div by (try apply Z.pow_pos_nonneg; lia).
    f_equal. assert (E : Zpos p~1 = 1 + Zpos p + Zpos p) by lia.
    rewrite E, !Z.pow_add_r by lia. change (2 ^ 1) with 2. ring.
  - assert (H2 : 0 <= shr_m (SpecFloat.iter_pos shr_1 p mrs)).
    { rewrite IH by assumption. apply Z.div_pos; [assumption|]. apply Z.pow_pos_nonneg; lia. }
    rewrite IH, IH by assumption.
    rewrite !Z.div_div by (try apply Z.pow_pos_nonneg; lia).
    f_equal. assert (E : Zpos p~0 = Zpos p + Zpos p) by lia.
    rewrite E, Z.pow_add_r by lia. reflexivity.
  - rewrite shr_1_m, Z.div2_div by assumption. reflexivity.
Qed.

(** Shifting a positive mantissa down to its format exponent leaves it
    positive, when the exponent is not below [emin]. *)
Lemma shr_fexp_positive m e :
  0 < m -> -1074 <= e ->
  0 < shr_m (fst (shr_fexp prec emax m e loc_Exact)) /\
  -1074 <= snd (shr_fexp prec emax m e loc_Exact).
Proof.
  intros Hm He. destruct m as [|p|p]; try lia.
  unfold shr_fexp, shr. cbn [Zdigits2 shr_record_of_loc].
  pose proof (digits2_pos_bounds p) as [Hlo Hhi].
  destruct (fexp prec emax (Zpos (digits2_pos p) + e) - e) as [|q|q] eqn:Hn;
    cbn [fst snd shr_m]; try lia.
  rewrite iter_shr_1_m by (cbn [shr_m]; lia). cbn [shr_m].
  unfold fexp, SpecFloat.emin, prec, emax in Hn.
  split; [|lia].
  assert (Hq : Zpos q <= Zpos (digits2_pos p) - 1) by lia.
  assert (Hpow : 2 ^ Zpos q <= 2 ^ (Zpos (digits2_pos p) - 1))
    by (apply Z.pow_le_mono_r; lia).
  apply Z.div_str_pos. split; [apply Z.pow_pos_nonneg; lia|lia].
Qed.

Lemma round_nearest_even_positive m l : 0 < m -> 0 < round_nearest_even m l.
Proof.
  intros Hm. unfold round_nearest_even.
  destruct l as [|[| |]]; try destruct (Z.even m); lia.
Qed.

Lemma binary_round_aux_signed sx mx ex :
  0 < mx -> -1074 <= ex ->
  signed_nonzero sx (binary_round_aux prec emax sx mx ex loc_Exact).
Proof.
  intros Hm He. unfold binary_round_aux.
  destruct (shr_fexp_positive mx ex Hm He) as [Hm1 He1].
  destruct (shr_fexp prec emax mx ex loc_Exact) as [mrs' e'].
  cbn [fst snd] in Hm1, He1.
  pose proof (round_nearest_even_positive _ (loc_of_shr_record mrs') Hm1) as Hr.
  destruct (shr_fexp_positive _ e' Hr He1) as [Hm2 _].
  destruct (shr_fexp prec emax (round_nearest_even (shr_m mrs') (loc_of_shr_record mrs')) e'
              loc_Exact) as [mrs'' e''].
  cbn [fst] in Hm2.
  destruct (shr_m mrs'') as [|m|m]; try lia.
  destruct (e'' <=? emax - prec).
  - left. now exists m, e''.
  - right. reflexivity.
Qed.

Lemma binary_round_signed sx mx ex :
  -1074 <= ex -> signed_nonzero sx (binary_round prec emax sx mx ex).
Proof.
  intros He. unfold binary_round.
  destruct (shl_align mx ex (fexp prec emax (Zpos (digits2_pos mx) + ex))) as [mz ez] eqn:Hs.
  apply binary_round_aux_signed; [lia|].
  unfold shl_align in Hs.
  destruct (fexp prec emax (Zpos (digits2_pos mx) + ex) - ex) eqn:Hd;
    inversion Hs; subst; try lia.
  unfold fexp, SpecFloat.emin, prec, emax. lia.
Qed.

Lemma binary_normalize_sign d e :
  -1074 <= e ->
  SFltb (S754_zero false) (binary_normalize prec emax d e false) = (0 <? d).
Proof.
  intros He. destruct d as [|p|p]; cbn [binary_normalize].
  - reflexivity.
  - destruct (binary_round_signed false p e He) as [(m & e' & ->)| ->]; reflexivity.
  - destruct (binary_round_signed true p e He) as [(m & e' & ->)| ->]; reflexivity.
Qed.

Lemma compare_ltb_sub a b : match a ?= b with Lt => true | _ => false end = (0 <? b - a).
Proof.
  destruct (Z.compare_spec a b); symmetry; [apply Z.ltb_ge|apply Z.ltb_lt|apply Z.ltb_ge]; lia.
Qed.

(** The sign of a difference: [x - y] is above zero exactly when [y] is
    below [x]. *)
Lemma SFsub_sign x y :
  valid_binary x = true -> valid_binary y = true ->
  SFltb (S754_zero false) (SFsub prec emax x y) = SFltb y x.
Proof.
  intros Hx Hy.
  destruct x as [sx|sx| |sx mx ex], y as [sy|sy| |sy my ey];
    try reflexivity;
    try (destruct sx; try destruct sy; reflexivity);
    try (destruct sy; reflexivity).
  cbn [valid_binary] in Hx, Hy. unfold bounded in Hx, Hy.
  apply andb_prop in Hx as [Hx _]. apply andb_prop in Hy as [Hy _].
  pose proof (aligned_compare my ey mx ex Hy Hx) as Hc.
  rewrite (Z.min_comm ey ex) in Hc.
  destruct (canonical_facts _ _ Hx) as (Hex & _). destruct (canonical_facts _ _ Hy) as (Hey & _).
  cbn [SFsub]. cbv zeta. rewrite binary_normalize_sign by lia.
  unfold SFltb. cbn [SFcompare].
  set (Mx := Zpos (fst (shl_align mx ex (Z.min ex ey)))) in *.
  set (My := Zpos (fst (shl_align my ey (Z.min ex ey)))) in *.
  assert (HMx : 0 < Mx) by (subst Mx; lia). assert (HMy : 0 < My) by (subst My; lia).
  destruct sx, sy; cbn [cond_Zopp].
  - (* both negative *)
    replace (match ey ?= ex with
             | Eq => CompOpp (Pos.compare_cont Eq my mx) | Lt => Gt | Gt => Lt end)
      with (CompOpp (My ?= Mx)) by (rewrite Hc; destruct (ey ?= ex); reflexivity).
    rewrite <- Z.compare_antisym, compare_ltb_sub. f_equal; lia.
  - apply Z.ltb_ge. lia.
  - apply Z.ltb_lt. lia.
  - rewrite <- Hc, compare_ltb_sub. reflexivity.
Qed.

Lemma shr_fexp_nonneg m e l :
  0 <= m -> 0 <= shr_m (fst (shr_fexp prec emax m e l)).
Proof.
  intros Hm. unfold shr_fexp, shr.
  assert (H0 : shr_m (shr_record_of_loc m l) = m) by (destruct l as [|[| |]]; reflexivity).
  destruct (fexp prec emax (Zdigits2 m + e) - e) as [|q|q]; cbn [fst]; try lia.
  rewrite iter_shr_1_m by lia. rewrite H0. apply Z.div_pos; [lia|]. apply Z.pow_pos_nonneg; lia.
Qed.

Lemma round_nearest_even_nonneg m l : 0 <= m -> 0 <= round_nearest_even m l.
Proof.
  intros Hm. unfold round_nearest_even.
  destruct l as [|[| |]]; try destruct (Z.even m); lia.
Qed.

(** Rounding a non-negative mantissa never yields NaN. *)
Lemma binary_round_aux_not_nan sx mx ex lx :
  0 <= mx -> binary_round_aux prec emax sx mx ex lx <> S754_nan.
Proof.
  intros Hm. unfold binary_round_aux.
  pose proof (shr_fexp_nonneg mx ex lx Hm) as H1.
  destruct (shr_fexp prec emax mx ex lx) as [mrs' e']. cbn [fst] in H1.
  pose proof (shr_fexp_nonneg _ e' loc_Exact
                (round_nearest_even_nonneg _ (loc_of_shr_record mrs') H1)) as H2.
  destruct (shr_fexp prec emax (round_nearest_even (shr_m mrs') (loc_of_shr_record mrs')) e'
              loc_Exact) as [mrs'' e'']. cbn [fst] in H2.
  destruct (shr_m mrs'') as [|m|m]; try lia; try discriminate.
  destruct (e'' <=? emax - prec); discriminate.
Qed.

Lemma binary_normalize_not_nan d e s : binary_normalize prec emax d e s <> S754_nan.
Proof.
  destruct d as [|p|p]; cbn [binary_normalize]; try discriminate;
    unfold binary_round;
    destruct (shl_align p e (fexp prec emax (Zpos (digits2_pos p) + e))) as [mz ez];
    apply binary_round_aux_not_nan; lia.
Qed.

Lemma SFadd_finite_r x y :
  x <> S754_nan -> SF_finite y -> SFadd prec emax x y <> S754_nan.
Proof.
  intros Hx Hy.
  destruct x as [sx|sx| |sx mx ex], y as [sy|sy| |sy my ey]; cbn [SF_finite] in Hy;
    try contradiction; try congruence; cbn [SFadd];
    try (destruct sx; try destruct sy; discriminate).
  apply binary_normalize_not_nan.
Qed.

Lemma SFadd_finite_l x y :
  SF_finite x -> y <> S754_nan -> SFadd prec emax x y <> S754_nan.
Proof.
  intros Hx Hy.
  destruct x as [sx|sx| |sx mx ex], y as [sy|sy| |sy my ey]; cbn [SF_finite] in Hx;
    try contradiction; try congruence; cbn [SFadd];
    try (destruct sx; try destruct sy; discriminate).
  apply binary_normalize_not_nan.
Qed.

Lemma SFadd_infinity_r x s :
  x <> S754_nan -> x <> S754_infinity (negb s) ->
  SFadd prec emax x (S754_infinity s) = S754_infinity s.
Proof.
  destruct x as [sx|sx| |sx mx ex]; cbn [SFadd]; try reflexivity; try congruence.
  destruct sx, s; cbn; try reflexivity; congruence.
Qed.

Lemma SFmul_finite_r x s m e :
  x <> S754_nan -> SFmul prec emax x (S754_finite s m e) <> S754_nan.
Proof.
  intros Hx. destruct x as [sx|sx| |sx mx ex]; cbn [SFmul]; try discriminate; try congruence.
  apply binary_round_aux_not_nan. lia.
Qed.

Lemma SFdiv_finite_l s m e y :
  y <> S754_nan -> SFdiv prec emax (S754_finite s m e) y <> S754_nan.
Proof.
  intros Hy. destruct y as [sy|sy| |sy my ey]; cbn [SFdiv]; try discriminate; try congruence.
  unfold SFdiv_core_binary.
  match goal with |- context [Z.div_eucl ?a ?b] =>
    pose proof (Z.div_eucl_eq a b ltac:(lia)) as Heq;
    pose proof (Z.mod_pos_bound a b ltac:(lia)) as Hmod;
    assert (Ha : 0 <= a);
    [|pose proof (Z.div_pos a b Ha ltac:(lia)) as Hq;
      unfold Z.div in Hq; destruct (Z.div_eucl a b) as [q r]]
  end.
  - destruct (e - ey - _) as [|p|p]; try lia. rewrite Z.shiftl_mul_pow2 by lia.
    apply Z.mul_nonneg_nonneg; [lia|]. apply Z.pow_nonneg. lia.
  - apply binary_round_aux_not_nan. exact Hq.
Qed.

End SpecFloatFacts.

(** ** Correct rounding

    [binary_round_aux], the rounding step shared by all the operations
    of [SpecFloat], returns the float whose value is the exact result
    rounded to nearest, ties to even ([rnd]); the sum, the difference,
    the product and the quotient of two finite floats are therefore the
    roundings of the exact sum, difference, product and quotient, and
    rounding keeps the order. *)

Section RoundingFacts.
#[local] Open Scope Z_scope.

(** *** Rounding to the nearest integer *)

Lemma rne_bounds den num : num / den <= rne den num <= num / den + 1.
Proof.
  unfold rne. destruct (2 * (num mod den) ?= den); try destruct (Z.even _); lia.
Qed.

Lemma rne_mono den m m' : 0 < den -> m <= m' -> rne den m <= rne den m'.
Proof.
  intros HP Hm.
  pose proof (Z.div_le_mono m m' den HP Hm) as Hq.
  destruct (Z.eq_dec (m / den) (m' / den)) as [Heq|Hne].
  - pose proof (Z.div_mod m den ltac:(lia)) as E1.
    pose proof (Z.div_mod m' den ltac:(lia)) as E2.
    assert (Hr : m mod den <= m' mod den) by (rewrite Heq in E1; lia).
    unfold rne. rewrite Heq.
    destruct (Z.compare_spec (2 * (m mod den)) den),
             (Z.compare_spec (2 * (m' mod den)) den);
      try destruct (Z.even _); lia.
  - pose proof (rne_bounds den m). pose proof (rne_bounds den m'). lia.
Qed.

Lemma rne_exact den g : 0 < den -> rne den (g * den) = g.
Proof.
  intros HP. unfold rne. rewrite Z.div_mul, Z.mod_mul by lia.
  destruct (Z.compare_spec (2 * 0) den); lia.
Qed.

Lemma rne_scale den c m : 0 < den -> 0 < c -> rne (den * c) (m * c) = rne den m.
Proof.
  intros HP HT. unfold rne.
  rewrite Z.div_mul_cancel_r by lia.
  rewrite Z.mul_mod_distr_r by lia.
  destruct (Z.compare_spec (2 * (m mod den * c)) (den * c)),
           (Z.compare_spec (2 * (m mod den)) den); try reflexivity; nia.
Qed.

(** a grid point below [m] stays below its rounding, one above stays above *)
Lemma rne_ge_grid den g m : 0 < den -> g * den <= m -> g <= rne den m.
Proof. intros Hk H. rewrite <- (rne_exact den g Hk). apply rne_mono; assumption. Qed.

Lemma rne_le_grid den g m : 0 < den -> m <= g * den -> rne den m <= g.
Proof. intros Hk H. rewrite <- (rne_exact den g Hk). apply rne_mono; assumption. Qed.

Lemma rne_nonneg den m : 0 < den -> 0 <= m -> 0 <= rne den m.
Proof. intros Hk Hm. apply (rne_ge_grid den 0 m Hk). lia. Qed.

(** *** Rounding on the grid of the format *)

Lemma cexp_pos num den : 1 <= cexp num den.
Proof. unfold cexp. lia. Qed.

Lemma cexp_mono num num' den : 0 < den -> num <= num' -> cexp num den <= cexp num' den.
Proof.
  intros Hd H. unfold cexp.
  pose proof (Z.log2_le_mono (num / den) (num' / den) (Z.div_le_mono _ _ _ Hd H)). lia.
Qed.

Lemma OVF_pos : 0 < OVF.
Proof. unfold OVF. apply Z.pow_pos_nonneg; lia. Qed.

Lemma pow2_pos n : 0 <= n -> 0 < 2 ^ n.
Proof. intros H. apply Z.pow_pos_nonneg; lia. Qed.

Lemma rnd_pos_nonneg num den : 0 < den -> 0 <= num -> 0 <= rnd_pos num den.
Proof.
  intros Hd H. unfold rnd_pos. pose proof OVF_pos. pose proof (cexp_pos num den).
  pose proof (pow2_pos (cexp num den) ltac:(lia)).
  apply Z.min_glb; [|lia].
  apply Z.mul_nonneg_nonneg; [apply rne_nonneg; nia|lia].
Qed.

Lemma rnd_pos_mono num num' den :
  0 < den -> 0 <= num <= num' -> rnd_pos num den <= rnd_pos num' den.
Proof.
  intros Hd [H0 H].
  pose proof (cexp_mono num num' den Hd H) as Hc.
  pose proof (cexp_pos num den) as Hc1. pose proof (cexp_pos num' den) as Hc1'.
  unfold rnd_pos. apply Z.min_le_compat_r.
  pose proof (pow2_pos (cexp num den) ltac:(lia)) as Hp.
  pose proof (pow2_pos (cexp num' den) ltac:(lia)) as Hp'.
  destruct (Z.eq_dec (cexp num den) (cexp num' den)) as [Heq|Hlt].
  - rewrite <- Heq. apply Z.mul_le_mono_nonneg_r; [lia|].
    apply rne_mono; nia.
  - assert (Hcl : cexp num den < cexp num' den) by lia.
    set (V := num / den) in *. set (V' := num' / den) in *.
    assert (HV0 : 0 <= V) by (apply Z.div_pos; lia).
    assert (HVV : V <= V') by (apply Z.div_le_mono; lia).
    assert (Hnum : num < (V + 1) * den).
    { pose proof (Z.div_mod num den ltac:(lia)). pose proof (Z.mod_pos_bound num den Hd).
      fold V in H1. nia. }
    assert (Hnum' : V' * den <= num').
    { pose proof (Z.div_mod num' den ltac:(lia)). pose proof (Z.mod_pos_bound num' den Hd).
      fold V' in H1. nia. }
    set (j := Z.log2 V + 1). set (j' := Z.log2 V').
    assert (Hj : 0 <= Z.log2 V) by apply Z.log2_nonneg.
    assert (Hjj : j <= j') by (unfold cexp in Hcl; fold V V' in Hcl; lia).
    assert (Hc' : cexp num' den = j' + 1 - 53) by (unfold cexp in Hcl |- *; fold V V' in Hcl |- *; lia).
    assert (Hcj : cexp num den <= j) by (unfold cexp; fold V; lia).
    assert (HV' : 0 < V').
    { destruct (Z.eq_dec V' 0) as [E|]; [|lia]. unfold cexp in Hc'. fold V' in Hc'.
      subst j'. rewrite E in *. cbn in Hc'. lia. }
    assert (Hhi : V + 1 <= 2 ^ j).
    { destruct (Z.eq_dec V 0) as [E|].
      - subst j. rewrite E. cbn. lia.
      - pose proof (Z.log2_spec V ltac:(lia)) as [_ Hs]. subst j. lia. }
    pose proof (Z.log2_spec V' HV') as [Hlo' _]. fold j' in Hlo'.
    transitivity (2 ^ j).
    + replace (2 ^ j) with (2 ^ (j - cexp num den) * 2 ^ cexp num den)
        by (rewrite <- Z.pow_add_r by lia; f_equal; lia).
      apply Z.mul_le_mono_nonneg_r; [lia|].
      apply rne_le_grid; [nia|].
      rewrite (Z.mul_comm den), Z.mul_assoc, <- Z.pow_add_r by lia.
      replace (j - cexp num den + cexp num den) with j by lia. nia.
    + transitivity (2 ^ j'); [apply Z.pow_le_mono_r; lia|].
      replace (2 ^ j') with (2 ^ (j' - cexp num' den) * 2 ^ cexp num' den)
        by (rewrite <- Z.pow_add_r by lia; f_equal; lia).
      apply Z.mul_le_mono_nonneg_r; [lia|].
      apply rne_ge_grid; [nia|].
      rewrite (Z.mul_comm den), Z.mul_assoc, <- Z.pow_add_r by lia.
      replace (j' - cexp num' den + cexp num' den) with j' by lia. nia.
Qed.

Lemma rnd_mono num num' den : 0 < den -> num <= num' -> rnd num den <= rnd num' den.
Proof.
  intros Hd H. unfold rnd.
  destruct (Z.ltb_spec num 0), (Z.ltb_spec num' 0); try lia.
  - pose proof (rnd_pos_mono (- num') (- num) den Hd ltac:(lia)). lia.
  - pose proof (rnd_pos_nonneg (- num) den Hd ltac:(lia)).
    pose proof (rnd_pos_nonneg num' den Hd ltac:(lia)). lia.
  - apply rnd_pos_mono; lia.
Qed.

(** the same rational, written with a common factor *)
Lemma cexp_scale num den c : 0 < den -> 0 < c -> cexp (num * c) (den * c) = cexp num den.
Proof. intros Hd Hc. unfold cexp. rewrite Z.div_mul_cancel_r by lia. reflexivity. Qed.

Lemma rnd_pos_scale num den c :
  0 < den -> 0 < c -> rnd_pos (num * c) (den * c) = rnd_pos num den.
Proof.
  intros Hd Hc. unfold rnd_pos. rewrite cexp_scale by assumption.
  pose proof (cexp_pos num den). pose proof (pow2_pos (cexp num den) ltac:(lia)).
  replace (den * c * 2 ^ cexp num den) with (den * 2 ^ cexp num den * c) by ring.
  rewrite rne_scale by nia. reflexivity.
Qed.

Lemma rnd_scale num den c : 0 < den -> 0 < c -> rnd (num * c) (den * c) = rnd num den.
Proof.
  intros Hd Hc. unfold rnd.
  destruct (Z.ltb_spec (num * c) 0), (Z.ltb_spec num 0); try nia.
  - rewrite <- Z.mul_opp_l, rnd_pos_scale by assumption. reflexivity.
  - apply rnd_pos_scale; assumption.
Qed.

(** a value on its own grid and below the overflow threshold is kept *)
Lemma rnd_pos_representable V g :
  0 <= V -> V = g * 2 ^ cexp V 1 -> V < OVF -> rnd_pos V 1 = V.
Proof.
  intros H0 Hg Hov. unfold rnd_pos.
  pose proof (cexp_pos V 1). pose proof (pow2_pos (cexp V 1) ltac:(lia)).
  rewrite Z.mul_1_l. rewrite Hg at 2. rewrite rne_exact by lia. rewrite <- Hg. lia.
Qed.

Lemma rnd_pos_0 den : 0 < den -> rnd_pos 0 den = 0.
Proof.
  intros Hd. unfold rnd_pos. pose proof OVF_pos.
  pose proof (cexp_pos 0 den). pose proof (pow2_pos (cexp 0 den) ltac:(lia)).
  assert (E : rne (den * 2 ^ cexp 0 den) 0 = 0)
    by (apply (rne_exact (den * 2 ^ cexp 0 den) 0); nia).
  rewrite E. lia.
Qed.

Lemma rnd_0 den : 0 < den -> rnd 0 den = 0.
Proof. intros Hd. unfold rnd. rewrite Z.ltb_irrefl. apply rnd_pos_0, Hd. Qed.

Lemma rnd_opp num den : 0 < den -> rnd (- num) den = - rnd num den.
Proof.
  intros Hd. destruct (Z.eq_dec num 0) as [->|Hne].
  - change (- 0) with 0. rewrite rnd_0 by assumption. reflexivity.
  - unfold rnd. destruct (Z.ltb_spec num 0), (Z.ltb_spec (- num) 0); try lia.
    rewrite Z.opp_involutive. lia.
Qed.

(** *** The records of the shift-and-round algorithm *)

Lemma digits2_log2 m : Zpos (digits2_pos m) = Z.log2 (Zpos m) + 1.
Proof.
  pose proof (digits2_pos_bounds m) as [Hlo Hhi].
  symmetry. rewrite (Z.log2_unique (Zpos m) (Zpos (digits2_pos m) - 1)); [lia|lia|].
  split; [exact Hlo|]. replace (Z.succ (Zpos (digits2_pos m) - 1)) with (Zpos (digits2_pos m)) by lia.
  exact Hhi.
Qed.

Lemma Zdigits2_log2 z : 0 < z -> Zdigits2 z = Z.log2 z + 1.
Proof. destruct z as [|p|p]; try lia. intros _. apply digits2_log2. Qed.

Lemma Zdigits2_bounds z : 0 <= z -> 0 <= Zdigits2 z /\ z < 2 ^ Zdigits2 z /\
                                    (0 < z -> 2 ^ (Zdigits2 z - 1) <= z).
Proof.
  intros Hz. destruct z as [|p|p]; try lia.
  - cbn. lia.
  - cbn [Zdigits2]. pose proof (digits2_pos_bounds p). lia.
Qed.

Lemma pow2_digits_le p n : 0 <= n -> Zpos p < 2 ^ n -> Zpos (digits2_pos p) <= n.
Proof.
  intros Hn H. pose proof (digits2_pos_bounds p) as [Hlo _].
  destruct (Z.le_gt_cases (Zpos (digits2_pos p)) n) as [|Hgt]; [assumption|].
  assert (2 ^ n <= 2 ^ (Zpos (digits2_pos p) - 1)) by (apply Z.pow_le_mono_r; lia). lia.
Qed.

Lemma fexp_eq j : fexp prec emax j = Z.max (j - 53) (-1074).
Proof. reflexivity. Qed.

Lemma shr_1_nonneg m r s :
  0 <= m -> shr_1 (Build_shr_record m r s) = Build_shr_record (m / 2) (Z.odd m) (r || s).
Proof.
  intros Hm. rewrite <- Z.div2_div.
  destruct m as [|[p|p|]|p]; try reflexivity; lia.
Qed.

Lemma shr_inv_exact m : shr_inv 1 m (shr_record_of_loc m loc_Exact).
Proof.
  unfold shr_inv. cbn [shr_record_of_loc shr_m shr_r shr_s].
  rewrite Z.div_1_r, !Z.mod_1_r. repeat split.
Qed.

Lemma shr_inv_step P N mrs :
  0 <= N -> 0 < P -> shr_inv P N mrs -> shr_inv (P * 2) N (shr_1 mrs).
Proof.
  intros Hm HP (Hq & Hr & Hs). destruct mrs as [q rb sb]. cbn [shr_m shr_r shr_s] in *.
  assert (Hq0 : 0 <= q) by (subst q; apply Z.div_pos; lia).
  rewrite shr_1_nonneg by assumption.
  unfold shr_inv. cbn [shr_m shr_r shr_s].
  pose proof (Z.mod_pos_bound N P HP) as Hrb.
  rewrite (Z.rem_mul_r N P 2) by lia. rewrite <- Hq.
  rewrite Zmod_odd.
  set (r := N mod P) in *.
  split; [|split].
  - subst q. rewrite Z.div_div by lia. reflexivity.
  - destruct (Z.odd q).
    + symmetry. apply Z.leb_le. lia.
    + symmetry. apply Z.leb_gt. lia.
  - assert (E : (2 * (r + P * (if Z.odd q then 1 else 0))) mod (P * 2) = 2 * r).
    { destruct (Z.odd q).
      - replace (2 * (r + P * 1)) with (2 * r + 1 * (P * 2)) by ring.
        rewrite Z.mod_add by lia. apply Z.mod_small. lia.
      - replace (2 * (r + P * 0)) with (2 * r) by ring. apply Z.mod_small. lia. }
    rewrite E, Hr, Hs.
    destruct (Z.leb_spec P (2 * r)).
    + cbn [orb]. symmetry. apply negb_true_iff. apply Z.eqb_neq. lia.
    + cbn [orb]. rewrite Z.mod_small by lia. reflexivity.
Qed.

Lemma shr_inv_iter N p : forall P mrs,
  0 <= N -> 0 < P -> shr_inv P N mrs ->
  shr_inv (P * 2 ^ Zpos p) N (SpecFloat.iter_pos shr_1 p mrs).
Proof.
  induction p as [p IH|p IH|]; intros P mrs Hm HP H; cbn [SpecFloat.iter_pos].
  - replace (P * 2 ^ Zpos p~1) with (P * 2 * 2 ^ Zpos p * 2 ^ Zpos p).
    2:{ replace (Zpos p~1) with (1 + Zpos p + Zpos p) by lia.
        rewrite !Z.pow_add_r by lia. change (2 ^ 1) with 2. ring. }
    pose proof (pow2_pos (Zpos p) ltac:(lia)).
    apply IH; [lia|nia|]. apply IH; [lia|lia|]. apply shr_inv_step; assumption.
  - replace (P * 2 ^ Zpos p~0) with (P * 2 ^ Zpos p * 2 ^ Zpos p).
    2:{ replace (Zpos p~0) with (Zpos p + Zpos p) by lia.
        rewrite !Z.pow_add_r by lia. ring. }
    pose proof (pow2_pos (Zpos p) ltac:(lia)).
    apply IH; [lia|nia|]. apply IH; assumption.
  - change (2 ^ 1) with 2. apply shr_inv_step; assumption.
Qed.

(** rounding the record is rounding [N / P] to nearest, ties to even *)
Lemma shr_inv_round P N mrs :
  0 <= N -> 0 < P -> shr_inv P N mrs ->
  round_nearest_even (shr_m mrs) (loc_of_shr_record mrs) = rne P N.
Proof.
  intros Hm HP (Hq & Hr & Hs). destruct mrs as [q rb sb]. cbn [shr_m shr_r shr_s] in *.
  pose proof (Z.mod_pos_bound N P HP) as Hrb.
  unfold rne. rewrite <- Hq. unfold loc_of_shr_record, round_nearest_even.
  set (r := N mod P) in *.
  destruct (Z.compare_spec (2 * r) P) as [E|L|G].
  - assert (R : rb = true) by (rewrite Hr; apply Z.leb_le; lia).
    assert (S : sb = false).
    { rewrite Hs, E, Z.mod_same by lia. reflexivity. }
    rewrite R, S. reflexivity.
  - assert (R : rb = false) by (rewrite Hr; apply Z.leb_gt; lia). rewrite R.
    destruct sb; reflexivity.
  - assert (R : rb = true) by (rewrite Hr; apply Z.leb_le; lia).
    assert (S : sb = true).
    { rewrite Hs. apply negb_true_iff, Z.eqb_neq.
      replace (2 * r) with (2 * r - P + 1 * P) by ring.
      rewrite Z.mod_add by lia. rewrite Z.mod_small by lia. lia. }
    rewrite R, S. reflexivity.
Qed.

Lemma shr_inv_shr P N mrs e n :
  0 <= N -> 0 < P -> 0 <= n -> shr_inv P N mrs ->
  shr_inv (P * 2 ^ n) N (fst (shr mrs e n)) /\ snd (shr mrs e n) = e + n.
Proof.
  intros HN HP Hn H. unfold shr.
  destruct n as [|p|p]; try lia; cbn [fst snd].
  - change (2 ^ 0) with 1. rewrite Z.mul_1_r. split; [assumption|lia].
  - split; [|reflexivity]. apply shr_inv_iter; assumption.
Qed.

(** *** The value [binary_round_aux] returns *)

(** the exponent [rnd_pos] rounds at is the format's *)
Lemma cexp_format m e N D :
  0 < D -> 0 <= N -> m = N / D ->
  0 <= fexp prec emax (Zdigits2 m + e) - e ->
  cexp (N * 2 ^ Z.max 0 (e + 1075)) (D * 2 ^ Z.max 0 (- (e + 1075))) =
  fexp prec emax (Zdigits2 m + e) + 1075.
Proof.
  intros HD HN Hm Hk. rewrite fexp_eq in *. unfold cexp.
  assert (Hm0 : 0 <= m) by (subst m; apply Z.div_pos; lia).
  pose proof (Z.div_mod N D ltac:(lia)) as Hdm. pose proof (Z.mod_pos_bound N D HD) as Hmod.
  rewrite <- Hm in Hdm.
  destruct (Z.le_gt_cases 0 (e + 1075)) as [Ht|Ht].
  - (* the scaled value is [N * 2^t / D] *)
    rewrite (Z.max_r 0 (e + 1075)) by lia. rewrite (Z.max_l 0 (- (e + 1075))) by lia.
    change (2 ^ 0) with 1. rewrite Z.mul_1_r.
    set (t := e + 1075) in *. pose proof (pow2_pos t Ht) as Hp.
    destruct (Z.eq_dec m 0) as [E0|N0].
    + rewrite E0 in *. cbn [Zdigits2] in *. 
      assert (Ht1 : t <= 1) by lia.
      assert (2 ^ t <= 2 ^ 1) by (apply Z.pow_le_mono_r; lia). change (2 ^ 1) with 2 in *.
      assert (HF : N * 2 ^ t / D <= 1).
      { apply Z.lt_succ_r. apply Z.div_lt_upper_bound; [lia|]. nia. }
      assert (HF0 : 0 <= N * 2 ^ t / D) by (apply Z.div_pos; nia).
      assert (HL : Z.log2 (N * 2 ^ t / D) = 0).
      { destruct (Z.eq_dec (N * 2 ^ t / D) 0) as [->|]; [reflexivity|].
        replace (N * 2 ^ t / D) with 1 by lia. reflexivity. }
      rewrite HL. lia.
    + assert (HL : Z.log2 (N * 2 ^ t / D) = Z.log2 m + t).
      { pose proof (Z.log2_spec m ltac:(lia)) as [Hlo Hhi].
        pose proof (Z.log2_nonneg m).
        apply Z.log2_unique; [lia|]. rewrite Z.pow_succ_r, !Z.pow_add_r by lia.
        rewrite Z.pow_succ_r in Hhi by lia.
        assert (H1 : D * 2 ^ Z.log2 m <= N) by nia.
        assert (H2 : N < D * (2 * 2 ^ Z.log2 m)) by nia.
        split.
        - apply Z.div_le_lower_bound; [lia|].
          pose proof (Z.mul_le_mono_nonneg_r _ _ (2 ^ t) ltac:(lia) H1). lia.
        - apply Z.div_lt_upper_bound; [lia|].
          pose proof (proj1 (Z.mul_lt_mono_pos_r (2 ^ t) _ _ Hp) H2). lia. }
      rewrite HL, Zdigits2_log2 by lia. lia.
  - (* the scaled value is [N / (D * 2^(-t))] *)
    rewrite (Z.max_l 0 (e + 1075)) by lia. rewrite (Z.max_r 0 (- (e + 1075))) by lia.
    change (2 ^ 0) with 1. rewrite Z.mul_1_r.
    set (t := e + 1075) in *.
    rewrite <- Z.div_div by (try apply pow2_pos; lia). rewrite <- Hm.
    rewrite <- Z.shiftr_div_pow2 by lia.
    destruct (Z.eq_dec m 0) as [E0|N0].
    + rewrite E0, Z.shiftr_0_l. cbn [Zdigits2 Z.log2]. lia.
    + rewrite Z.log2_shiftr by lia. rewrite Zdigits2_log2 by lia. lia.
Qed.

Lemma shr_record_of_loc_m m l : shr_m (shr_record_of_loc m l) = m.
Proof. destruct l as [|[| |]]; reflexivity. Qed.

Lemma rne_format m e N D :
  0 < D -> 0 <= N ->
  0 <= fexp prec emax (Zdigits2 m + e) - e ->
  rne (D * 2 ^ Z.max 0 (- (e + 1075)) * 2 ^ (fexp prec emax (Zdigits2 m + e) + 1075))
      (N * 2 ^ Z.max 0 (e + 1075)) =
  rne (D * 2 ^ (fexp prec emax (Zdigits2 m + e) - e)) N.
Proof.
  intros HD HN Hk. set (c := fexp prec emax (Zdigits2 m + e)) in *.
  assert (Hc : -1074 <= c) by (subst c; rewrite fexp_eq; lia).
  pose proof (pow2_pos (c - e) Hk) as Hpk.
  destruct (Z.le_gt_cases 0 (e + 1075)) as [Ht|Ht].
  - rewrite (Z.max_r 0 (e + 1075)) by lia. rewrite (Z.max_l 0 (- (e + 1075))) by lia.
    change (2 ^ 0) with 1. rewrite Z.mul_1_r.
    replace (c + 1075) with (c - e + (e + 1075)) by lia.
    rewrite (Z.pow_add_r 2 (c - e) (e + 1075)) by lia. rewrite Z.mul_assoc.
    apply rne_scale; [nia|apply pow2_pos; lia].
  - rewrite (Z.max_l 0 (e + 1075)) by lia. rewrite (Z.max_r 0 (- (e + 1075))) by lia.
    change (2 ^ 0) with 1. rewrite Z.mul_1_r.
    rewrite <- Z.mul_assoc, <- Z.pow_add_r by lia.
    replace (- (e + 1075) + (c + 1075)) with (c - e) by lia. reflexivity.
Qed.

Lemma pow_le_OVF a e : 0 <= a -> 0 <= e -> a + e <= 2099 -> 2 ^ a * 2 ^ e <= OVF.
Proof.
  intros Ha He H. unfold OVF. rewrite <- Z.pow_add_r by assumption.
  apply Z.pow_le_mono_r; [reflexivity|exact H].
Qed.

Lemma OVF_le_pow a e : 0 <= a -> 0 <= e -> 2099 <= a + e -> OVF <= 2 ^ a * 2 ^ e.
Proof.
  intros Ha He H. unfold OVF. rewrite <- Z.pow_add_r by assumption.
  apply Z.pow_le_mono_r; [reflexivity|exact H].
Qed.

(** What [binary_round_aux] returns for a mantissa and location that
    describe the rational [N / D]: the rounding of [N / D * 2^e]. *)
Lemma binary_round_aux_sval s m e l N D :
  0 < D -> 0 <= N -> shr_inv D N (shr_record_of_loc m l) ->
  0 <= fexp prec emax (Zdigits2 m + e) - e ->
  sval (binary_round_aux prec emax s m e l) =
  cond_Zopp s (rnd_pos (N * 2 ^ Z.max 0 (e + 1075)) (D * 2 ^ Z.max 0 (- (e + 1075)))).
Proof.
  intros HD HN Hinv Hk.
  assert (Hm : m = N / D).
  { destruct Hinv as [H _]. rewrite shr_record_of_loc_m in H. exact H. }
  assert (Hm0 : 0 <= m) by (subst m; apply Z.div_pos; lia).
  unfold rnd_pos. rewrite (cexp_format m e N D) by assumption.
  rewrite (rne_format m e N D) by assumption.
  unfold binary_round_aux, shr_fexp.
  set (c := fexp prec emax (Zdigits2 m + e)) in *.
  assert (Hcv : c = Z.max (Zdigits2 m + e - 53) (-1074)) by reflexivity.
  pose proof (shr_inv_shr D N (shr_record_of_loc m l) e (c - e) HN HD Hk Hinv) as [Hi He].
  destruct (shr (shr_record_of_loc m l) e (c - e)) as [mrs' e']. cbn [fst snd] in Hi, He.
  pose proof (pow2_pos (c - e) Hk) as Hpk.
  rewrite (shr_inv_round (D * 2 ^ (c - e)) N) by (assumption || nia).
  replace e' with c by lia. clear He e' Hi mrs'.
  destruct (Zdigits2_bounds m Hm0) as (Hd0 & Hhi & Hlo).
  set (d := Zdigits2 m) in *.
  pose proof (Z.div_mod N D ltac:(lia)) as Hdm. pose proof (Z.mod_pos_bound N D HD) as Hmod.
  rewrite <- Hm in Hdm.
  (* bounds on the rounded mantissa *)
  assert (Hup53 : rne (D * 2 ^ (c - e)) N <= 2 ^ 53).
  { destruct (Z.le_gt_cases (c - e) d) as [Hkd|Hkd].
    - transitivity (2 ^ (d - (c - e))); [|apply Z.pow_le_mono_r; lia].
      apply rne_le_grid; [nia|].
      rewrite (Z.mul_comm D), Z.mul_assoc, <- Z.pow_add_r by lia.
      replace (d - (c - e) + (c - e)) with d by lia. nia.
    - transitivity 1; [|lia]. apply rne_le_grid; [nia|].
      assert (2 ^ d <= 2 ^ (c - e)) by (apply Z.pow_le_mono_r; lia). nia. }
  assert (Hdn : -1074 < c -> 2 ^ 52 <= rne (D * 2 ^ (c - e)) N).
  { intros Hc. assert (Hd53 : c - e = d - 53) by lia.
    assert (Hmpos : 0 < m).
    { destruct (Z.eq_dec m 0) as [E|]; [|lia]. subst d. rewrite E in *. cbn in Hd53. lia. }
    specialize (Hlo Hmpos).
    apply rne_ge_grid; [nia|].
    rewrite (Z.mul_comm D), Z.mul_assoc, <- Z.pow_add_r by lia.
    replace (52 + (c - e)) with (d - 1) by lia. nia. }
  assert (H0 : 0 <= rne (D * 2 ^ (c - e)) N) by (apply rne_nonneg; nia).
  set (m1 := rne (D * 2 ^ (c - e)) N) in *.
  assert (Hc : -1074 <= c) by lia.
  assert (Hpow : 0 < 2 ^ (c + 1075)) by (apply pow2_pos; lia).
  destruct m1 as [|p1|p1] eqn:Em1; [| |exfalso; apply H0; reflexivity].
  - (* rounded to zero *)
    cbn [Zdigits2]. unfold shr. rewrite fexp_eq.
    rewrite Z.mul_0_l, Z.min_l by (pose proof OVF_pos; lia).
    destruct (Z.max (0 + c - 53) (-1074) - c) as [|q|q] eqn:Hq; try lia;
      cbn [shr_record_of_loc shr_m sval]; destruct s; reflexivity.
  - cbn [Zdigits2]. set (d1 := Zpos (digits2_pos p1)).
    destruct (Z.eq_dec (Zpos p1) (2 ^ 53)) as [E53|N53].
    + (* a carry: the mantissa is 2^53 *)
      assert (Ep : p1 = 9007199254740992%positive) by (apply Pos2Z.inj; rewrite E53; reflexivity).
      subst p1. subst d1. cbn [digits2_pos Pos.succ].
      rewrite fexp_eq.
      replace (Z.max (54 + c - 53) (-1074) - c) with 1 by lia.
      cbn [shr SpecFloat.iter_pos shr_record_of_loc shr_1 shr_m].
      change (emax - prec) with 971.
      destruct (Z.leb_spec (c + 1) 971) as [Hle|Hgt]; cbn [sval]; f_equal.
      * pose proof (pow_le_OVF 53 (c + 1075) ltac:(lia) ltac:(lia) ltac:(lia)) as Hov.
        change (2 ^ 53) with 9007199254740992 in Hov.
        rewrite Z.min_l by exact Hov.
        replace (c + 1 + 1075) with (c + 1075 + 1) by lia. rewrite Z.pow_add_r by lia.
        change (2 ^ 1) with 2. lia.
      * pose proof (OVF_le_pow 53 (c + 1075) ltac:(lia) ltac:(lia) ltac:(lia)) as Hov.
        change (2 ^ 53) with 9007199254740992 in Hov.
        rewrite Z.min_r by exact Hov. reflexivity.
    + assert (Hd1 : d1 <= 53) by (apply pow2_digits_le; lia).
      assert (Hlt : Zpos p1 < 2 ^ 53) by lia.
      unfold shr. rewrite fexp_eq. change (emax - prec) with 971.
      assert (Hshape :
        (let '(mrs'', e'') :=
           match Z.max (d1 + c - 53) (-1074) - c with
           | Zpos p => (SpecFloat.iter_pos shr_1 p (shr_record_of_loc (Zpos p1) loc_Exact),
                        c + (Z.max (d1 + c - 53) (-1074) - c))
           | _ => (shr_record_of_loc (Zpos p1) loc_Exact, c)
           end in
         match shr_m mrs'' with
         | 0 => S754_zero s
         | Zpos m0 => if e'' <=? 971 then S754_finite s m0 e'' else S754_infinity s
         | Zneg _ => S754_nan
         end) = if c <=? 971 then S754_finite s p1 c else S754_infinity s).
      { destruct (Z.max (d1 + c - 53) (-1074) - c) as [|q|q] eqn:Hq; try lia; reflexivity. }
      rewrite Hshape. clear Hshape.
      destruct (Z.leb_spec c 971) as [Hle|Hgt]; cbn [sval]; f_equal.
      * pose proof (pow_le_OVF 53 (c + 1075) ltac:(lia) ltac:(lia) ltac:(lia)) as Hov.
        rewrite Z.min_l; [reflexivity|].
        apply Z.le_trans with (2 ^ 53 * 2 ^ (c + 1075)); [|exact Hov].
        apply Z.mul_le_mono_nonneg_r; lia.
      * pose proof (OVF_le_pow 52 (c + 1075) ltac:(lia) ltac:(lia) ltac:(lia)) as Hov.
        specialize (Hdn ltac:(lia)).
        rewrite Z.min_r; [reflexivity|].
        apply Z.le_trans with (2 ^ 52 * 2 ^ (c + 1075)); [exact Hov|].
        apply Z.mul_le_mono_nonneg_r; lia.
Qed.

(** the same rational, with the powers of two moved across *)
Lemma rnd_pos_shift N D t u :
  0 < D -> 0 <= u -> 0 <= t + u ->
  rnd_pos (N * 2 ^ (t + u)) (D * 2 ^ u) =
  rnd_pos (N * 2 ^ Z.max 0 t) (D * 2 ^ Z.max 0 (- t)).
Proof.
  intros HD Hu Htu.
  set (u0 := Z.max 0 (- t)).
  assert (Hu0 : 0 <= u0 <= u) by lia.
  replace (N * 2 ^ (t + u)) with (N * 2 ^ Z.max 0 t * 2 ^ (u - u0)).
  2:{ rewrite <- Z.mul_assoc, <- Z.pow_add_r by lia. f_equal. f_equal. lia. }
  replace (D * 2 ^ u) with (D * 2 ^ u0 * 2 ^ (u - u0)).
  2:{ rewrite <- Z.mul_assoc, <- Z.pow_add_r by lia. f_equal. f_equal. lia. }
  pose proof (pow2_pos u0 ltac:(lia)). 
  apply rnd_pos_scale; [nia|apply pow2_pos; lia].
Qed.

Lemma binary_round_aux_exact s m e :
  0 <= m -> -1075 <= e ->
  0 <= fexp prec emax (Zdigits2 m + e) - e ->
  sval (binary_round_aux prec emax s m e loc_Exact) =
  cond_Zopp s (rnd_pos (m * 2 ^ (e + 1075)) 1).
Proof.
  intros Hm He Hk.
  rewrite (binary_round_aux_sval s m e loc_Exact m 1);
    [|lia|assumption|apply shr_inv_exact|assumption].
  rewrite Z.max_r, Z.max_l by lia. reflexivity.
Qed.

Lemma binary_round_sval s p e :
  -1075 <= e ->
  sval (binary_round prec emax s p e) = cond_Zopp s (rnd_pos (Zpos p * 2 ^ (e + 1075)) 1).
Proof.
  intros He. unfold binary_round, shl_align.
  set (c := fexp prec emax (Zpos (digits2_pos p) + e)).
  assert (Hc : c = Z.max (Zpos (digits2_pos p) + e - 53) (-1074)) by reflexivity.
  destruct (c - e) as [|q|q] eqn:Hq.
  - apply binary_round_aux_exact; [lia|lia|]. cbn [Zdigits2]. fold c. lia.
  - apply binary_round_aux_exact; [lia|lia|]. cbn [Zdigits2]. fold c. lia.
  - unfold shift_pos.
    assert (Hv : Zpos (Pos.iter xO p q) = Zpos p * 2 ^ Zpos q) by apply iter_xO_pow.
    rewrite binary_round_aux_exact; [| lia | lia |].
    + f_equal. f_equal. rewrite Hv, <- Z.mul_assoc, <- Z.pow_add_r by lia.
      f_equal. f_equal. lia.
    + cbn [Zdigits2]. rewrite digits2_log2, Hv, Z.log2_mul_pow2 by lia.
      rewrite fexp_eq. rewrite digits2_log2 in Hc. lia.
Qed.

Lemma rnd_cond_Zopp s V den :
  0 < den -> 0 <= V -> rnd (cond_Zopp s V) den = cond_Zopp s (rnd_pos V den).
Proof.
  intros Hd H. destruct (Z.eq_dec V 0) as [->|Hne].
  - rewrite rnd_pos_0 by assumption. destruct s; cbn [cond_Zopp]; apply rnd_0; assumption.
  - destruct s; cbn [cond_Zopp]; unfold rnd.
    + destruct (Z.ltb_spec (- V) 0); [|lia]. rewrite Z.opp_involutive. reflexivity.
    + destruct (Z.ltb_spec V 0); [lia|reflexivity].
Qed.

(** [binary_normalize] rounds the exact value it is given *)
Lemma binary_normalize_sval D e sz :
  -1075 <= e -> sval (binary_normalize prec emax D e sz) = rnd (D * 2 ^ (e + 1075)) 1.
Proof.
  intros He. assert (Hpow : 0 < 2 ^ (e + 1075)) by (apply pow2_pos; lia).
  destruct D as [|p|p]; cbn [binary_normalize].
  - rewrite Z.mul_0_l, rnd_0 by lia. reflexivity.
  - rewrite binary_round_sval by assumption.
    rewrite <- rnd_cond_Zopp by lia. reflexivity.
  - rewrite binary_round_sval by assumption.
    rewrite <- rnd_cond_Zopp by lia. cbn [cond_Zopp]. f_equal. lia.
Qed.

(** *** The value orders the floats *)

Lemma valid_finite_facts s m e :
  valid_binary (S754_finite s m e) = true ->
  -1074 <= e <= 971 /\ Zpos m < 2 ^ 53 /\ (-1074 < e -> 2 ^ 52 <= Zpos m) /\
  fexp prec emax (Zpos (digits2_pos m) + e) = e.
Proof.
  cbn [valid_binary]. unfold bounded. intros H. apply andb_prop in H as [Hc Hb].
  pose proof (canonical_mantissa_bounds m e Hc) as (H1 & H2 & H3).
  apply Z.leb_le in Hb. change (emax - prec) with 971 in Hb.
  unfold canonical_mantissa in Hc. apply Z.eqb_eq in Hc.
  repeat split; try assumption; lia.
Qed.

Lemma finite_sval_bounds m e :
  valid_binary (S754_finite false m e) = true ->
  0 < Zpos m * 2 ^ (e + 1075) < OVF.
Proof.
  intros H. destruct (valid_finite_facts _ _ _ H) as ((He1 & He2) & Hm & _).
  assert (Hpow : 0 < 2 ^ (e + 1075)) by (apply pow2_pos; lia).
  pose proof (pow_le_OVF 53 (e + 1075) ltac:(lia) ltac:(lia) ltac:(lia)) as Hov.
  split; [lia|]. eapply Z.lt_le_trans; [|exact Hov].
  apply Z.mul_lt_mono_pos_r; assumption.
Qed.

Lemma scaled_compare m1 e1 m2 e2 :
  valid_binary (S754_finite false m1 e1) = true ->
  valid_binary (S754_finite false m2 e2) = true ->
  (Zpos m1 * 2 ^ (e1 + 1075) ?= Zpos m2 * 2 ^ (e2 + 1075)) =
  match e1 ?= e2 with
  | Lt => Lt
  | Gt => Gt
  | Eq => Pos.compare_cont Eq m1 m2
  end.
Proof.
  intros H1 H2.
  destruct (valid_finite_facts _ _ _ H1) as ((Ha & _) & Hm1 & Hn1 & _).
  destruct (valid_finite_facts _ _ _ H2) as ((Hb & _) & Hm2 & Hn2 & _).
  destruct (Z.compare_spec e1 e2) as [Heq|Hlt|Hgt].
  - subst e2. assert (Hpow : 0 < 2 ^ (e1 + 1075)) by (apply pow2_pos; lia).
    change (Pos.compare_cont Eq m1 m2) with (Zpos m1 ?= Zpos m2).
    destruct (Z.compare_spec (Zpos m1) (Zpos m2)) as [E|L|G].
    + rewrite E. apply Z.compare_refl.
    + apply Z.compare_lt_iff. nia.
    + apply Z.compare_gt_iff. nia.
  - apply Z.compare_lt_iff.
    replace (e2 + 1075) with (e2 - e1 + (e1 + 1075)) by lia.
    rewrite (Z.pow_add_r 2 (e2 - e1) (e1 + 1075)) by lia.
    assert (Hpow : 0 < 2 ^ (e1 + 1075)) by (apply pow2_pos; lia).
    assert (2 ^ 1 <= 2 ^ (e2 - e1)) by (apply Z.pow_le_mono_r; lia).
    change (2 ^ 1) with 2 in *. specialize (Hn2 ltac:(lia)).
    change (2 ^ 53) with (2 ^ 52 * 2) in Hm1.
    assert (Zpos m1 < Zpos m2 * 2 ^ (e2 - e1)) by nia. nia.
  - apply Z.compare_gt_iff.
    replace (e1 + 1075) with (e1 - e2 + (e2 + 1075)) by lia.
    rewrite (Z.pow_add_r 2 (e1 - e2) (e2 + 1075)) by lia.
    assert (Hpow : 0 < 2 ^ (e2 + 1075)) by (apply pow2_pos; lia).
    assert (2 ^ 1 <= 2 ^ (e1 - e2)) by (apply Z.pow_le_mono_r; lia).
    change (2 ^ 1) with 2 in *. specialize (Hn1 ltac:(lia)).
    change (2 ^ 53) with (2 ^ 52 * 2) in Hm2.
    assert (Zpos m2 < Zpos m1 * 2 ^ (e1 - e2)) by nia. nia.
Qed.

Lemma valid_binary_sign s s' m e :
  valid_binary (S754_finite s m e) = valid_binary (S754_finite s' m e).
Proof. reflexivity. Qed.

Ltac solve_compare :=
  f_equal; symmetry;
  first [apply Z.compare_refl | apply Z.compare_lt_iff; lia | apply Z.compare_gt_iff; lia].

Lemma SFcompare_sval x y :
  valid_binary x = true -> valid_binary y = true ->
  x <> S754_nan -> y <> S754_nan ->
  SFcompare x y = Some (sval x ?= sval y).
Proof.
  intros Hx Hy Nx Ny. pose proof OVF_pos as HO.
  destruct x as [sx|sx| |sx mx ex], y as [sy|sy| |sy my ey]; try congruence;
    try (pose proof (finite_sval_bounds mx ex Hx) as Bx);
    try (pose proof (finite_sval_bounds my ey Hy) as By);
    cbn [SFcompare sval];
    try reflexivity;
    try (destruct sy; cbn [cond_Zopp]; solve_compare);
    try (destruct sx; cbn [cond_Zopp]; solve_compare);
    try (destruct sx, sy; cbn [cond_Zopp]; solve_compare).
  pose proof (scaled_compare mx ex my ey Hx Hy) as Hc.
  pose proof (scaled_compare my ey mx ex Hy Hx) as Hc'.
  destruct sx, sy; cbn [cond_Zopp]; f_equal.
  - rewrite Z.compare_opp, Hc'. rewrite (Z.compare_antisym ex ey).
    destruct (ex ?= ey) eqn:E; cbn [CompOpp]; try reflexivity.
    change (Pos.compare_cont Eq my mx) with (Zpos my ?= Zpos mx).
    change (Pos.compare_cont Eq mx my) with (Zpos mx ?= Zpos my).
    rewrite (Z.compare_antisym (Zpos my)), CompOpp_involutive. reflexivity.
  - symmetry. apply Z.compare_lt_iff. lia.
  - symmetry. apply Z.compare_gt_iff. lia.
  - symmetry. exact Hc.
Qed.

(** *** Sums, differences, products and quotients *)

Lemma rnd_sval x : valid_binary x = true -> SF_finite x -> rnd (sval x) 1 = sval x.
Proof.
  intros Hv Hf. destruct x as [s|s| |s m e]; cbn [SF_finite] in Hf; try contradiction.
  - apply rnd_0. lia.
  - cbn [sval]. rewrite valid_binary_sign with (s' := false) in Hv.
    pose proof (finite_sval_bounds m e Hv) as Hb.
    destruct (valid_finite_facts _ _ _ Hv) as (He & _ & _ & Hc).
    rewrite rnd_cond_Zopp by lia. f_equal.
    apply (rnd_pos_representable _ (Zpos m)); [lia| |lia].
    f_equal. f_equal. unfold cexp. rewrite Z.div_1_r, Z.log2_mul_pow2 by lia.
    rewrite fexp_eq, digits2_log2 in Hc. lia.
Qed.

Lemma aligned_sval s m e ez :
  ez <= e -> -1075 <= ez ->
  cond_Zopp s (Zpos (fst (shl_align m e ez))) * 2 ^ (ez + 1075) =
  sval (S754_finite s m e).
Proof.
  intros H1 H2. rewrite shl_align_value by assumption. cbn [sval].
  replace (e + 1075) with (e - ez + (ez + 1075)) by lia.
  rewrite (Z.pow_add_r 2 (e - ez) (ez + 1075)) by lia.
  destruct s; cbn [cond_Zopp]; ring.
Qed.

Lemma sval_opp s m e : sval (S754_finite (negb s) m e) = - sval (S754_finite s m e).
Proof. destruct s; cbn [sval negb cond_Zopp]; lia. Qed.

Lemma SFsub_sval x y :
  valid_binary x = true -> valid_binary y = true -> SF_finite x -> SF_finite y ->
  sval (SFsub prec emax x y) = rnd (sval x - sval y) 1.
Proof.
  intros Hx Hy Fx Fy.
  destruct x as [sx|sx| |sx mx ex], y as [sy|sy| |sy my ey]; cbn [SF_finite] in Fx, Fy;
    try contradiction; cbn [SFsub].
  - change (sval (S754_zero sx) - sval (S754_zero sy)) with 0. rewrite rnd_0 by lia.
    destruct sx, sy; reflexivity.
  - rewrite sval_opp. change (sval (S754_zero sx)) with 0.
    replace (0 - sval (S754_finite sy my ey)) with (- sval (S754_finite sy my ey)) by lia.
    rewrite rnd_opp by lia. f_equal. symmetry.
    apply (rnd_sval (S754_finite sy my ey)); [assumption|exact I].
  - change (sval (S754_zero sy)) with 0. rewrite Z.sub_0_r. symmetry.
    apply (rnd_sval (S754_finite sx mx ex)); [assumption|exact I].
  - destruct (valid_finite_facts _ _ _ Hx) as ((Hex & _) & _).
    destruct (valid_finite_facts _ _ _ Hy) as ((Hey & _) & _).
    cbv zeta. rewrite binary_normalize_sval by lia.
    f_equal. rewrite Z.mul_sub_distr_r. rewrite !aligned_sval by lia. reflexivity.
Qed.

Lemma SFadd_sval x y :
  valid_binary x = true -> valid_binary y = true -> SF_finite x -> SF_finite y ->
  sval (SFadd prec emax x y) = rnd (sval x + sval y) 1.
Proof.
  intros Hx Hy Fx Fy.
  destruct x as [sx|sx| |sx mx ex], y as [sy|sy| |sy my ey]; cbn [SF_finite] in Fx, Fy;
    try contradiction; cbn [SFadd].
  - change (sval (S754_zero sx) + sval (S754_zero sy)) with 0. rewrite rnd_0 by lia.
    destruct sx, sy; reflexivity.
  - change (sval (S754_zero sx)) with 0. rewrite Z.add_0_l. symmetry.
    apply (rnd_sval (S754_finite sy my ey)); [assumption|exact I].
  - change (sval (S754_zero sy)) with 0. rewrite Z.add_0_r. symmetry.
    apply (rnd_sval (S754_finite sx mx ex)); [assumption|exact I].
  - destruct (valid_finite_facts _ _ _ Hx) as ((Hex & _) & _).
    destruct (valid_finite_facts _ _ _ Hy) as ((Hey & _) & _).
    cbv zeta. rewrite binary_normalize_sval by lia.
    f_equal. rewrite Z.mul_add_distr_r. rewrite !aligned_sval by lia. reflexivity.
Qed.

Lemma Zdigits2_ge z n : 0 <= n -> 2 ^ n <= z -> n + 1 <= Zdigits2 z.
Proof.
  intros Hn H. pose proof (pow2_pos n Hn).
  destruct (Zdigits2_bounds z ltac:(lia)) as (Hd0 & Hhi & _).
  destruct (Z.le_gt_cases (n + 1) (Zdigits2 z)) as [|Hlt]; [assumption|].
  assert (2 ^ Zdigits2 z <= 2 ^ n) by (apply Z.pow_le_mono_r; lia). lia.
Qed.

Lemma SFmul_sval x y :
  valid_binary x = true -> valid_binary y = true -> SF_finite x -> SF_finite y ->
  sval (SFmul prec emax x y) = rnd (sval x * sval y) (2 ^ 1075).
Proof.
  intros Hx Hy Fx Fy. pose proof (pow2_pos 1075 ltac:(lia)) as HP.
  destruct x as [sx|sx| |sx mx ex], y as [sy|sy| |sy my ey]; cbn [SF_finite] in Fx, Fy;
    try contradiction; cbn [SFmul];
    try (change (sval (S754_zero sx)) with 0; rewrite Z.mul_0_l, rnd_0 by lia; reflexivity);
    try (change (sval (S754_zero sy)) with 0; rewrite Z.mul_0_r, rnd_0 by lia; reflexivity).
  rewrite valid_binary_sign with (s' := false) in Hx.
  rewrite valid_binary_sign with (s' := false) in Hy.
  destruct (valid_finite_facts _ _ _ Hx) as ((Hex & Hex') & Hmx & Hnx & _).
  destruct (valid_finite_facts _ _ _ Hy) as ((Hey & Hey') & Hmy & Hny & _).
  pose proof (pow2_pos (ex + 1075) ltac:(lia)) as Hpx.
  pose proof (pow2_pos (ey + 1075) ltac:(lia)) as Hpy.
  rewrite (binary_round_aux_sval _ _ _ _ (Zpos (mx * my)) 1);
    [|lia|lia|apply shr_inv_exact|].
  - rewrite <- (rnd_pos_shift _ 1 (ex + ey + 1075) 1075) by lia.
    rewrite Z.mul_1_l.
    replace (sval (S754_finite sx mx ex) * sval (S754_finite sy my ey))
      with (cond_Zopp (xorb sx sy) (Zpos (mx * my) * 2 ^ (ex + ey + 1075 + 1075))).
    + rewrite rnd_cond_Zopp; [reflexivity|lia|].
      apply Z.mul_nonneg_nonneg; [lia|apply Z.pow_nonneg; lia].
    + cbn [sval]. rewrite Pos2Z.inj_mul.
      replace (ex + ey + 1075 + 1075) with ((ex + 1075) + (ey + 1075)) by lia.
      rewrite (Z.pow_add_r 2 (ex + 1075) (ey + 1075)) by lia.
      destruct sx, sy; cbn [xorb cond_Zopp]; ring.
  - rewrite fexp_eq.
    destruct (Z.le_gt_cases (ex + ey) (-1074)) as [|Hgt]; [lia|].
    assert (HN : 2 ^ 52 <= Zpos (mx * my)).
    { rewrite Pos2Z.inj_mul.
      destruct (Z.eq_dec ex (-1074)) as [E|NE]; [specialize (Hny ltac:(lia))|specialize (Hnx ltac:(lia))];
        nia. }
    pose proof (Zdigits2_ge _ 52 ltac:(lia) HN). lia.
Qed.

Lemma new_location_inv D N :
  0 < D -> 0 <= N ->
  shr_inv D N (shr_record_of_loc (N / D) (new_location D (N mod D))).
Proof.
  intros HD HN. pose proof (Z.mod_pos_bound N D HD) as Hr.
  set (r := N mod D) in *.
  unfold new_location, new_location_even, new_location_odd.
  assert (He : Z.even D = true -> 2 * r <> D \/ True) by (intros; right; exact I).
  assert (Ho : Z.even D = false -> 2 * r <> D).
  { intros Hod E. rewrite <- E, Z.even_mul in Hod. discriminate. }
  unfold shr_inv. rewrite shr_record_of_loc_m. fold r.
  split; [reflexivity|].
  destruct (Z.even D) eqn:Ev.
  - destruct (Z.eqb_spec r 0) as [E0|N0].
    + rewrite E0. cbn [shr_record_of_loc shr_r shr_s Z.mul]. rewrite Z.mod_0_l by lia.
      split; [symmetry; apply Z.leb_gt; lia|reflexivity].
    + destruct (Z.compare_spec (2 * r) D) as [E|L|G]; cbn [shr_record_of_loc shr_r shr_s].
      * rewrite E, Z.mod_same by lia. split; [symmetry; apply Z.leb_le; lia|reflexivity].
      * rewrite Z.mod_small by lia.
        split; [symmetry; apply Z.leb_gt; lia|]. symmetry. apply negb_true_iff, Z.eqb_neq. lia.
      * split; [symmetry; apply Z.leb_le; lia|]. symmetry. apply negb_true_iff, Z.eqb_neq.
        replace (2 * r) with (2 * r - D + 1 * D) by ring.
        rewrite Z.mod_add, Z.mod_small by lia. lia.
  - specialize (Ho eq_refl).
    destruct (Z.eqb_spec r 0) as [E0|N0].
    + rewrite E0. cbn [shr_record_of_loc shr_r shr_s Z.mul]. rewrite Z.mod_0_l by lia.
      split; [symmetry; apply Z.leb_gt; lia|reflexivity].
    + destruct (Z.compare_spec (2 * r + 1) D) as [E|L|G]; cbn [shr_record_of_loc shr_r shr_s].
      * rewrite Z.mod_small by lia.
        split; [symmetry; apply Z.leb_gt; lia|]. symmetry. apply negb_true_iff, Z.eqb_neq. lia.
      * rewrite Z.mod_small by lia.
        split; [symmetry; apply Z.leb_gt; lia|]. symmetry. apply negb_true_iff, Z.eqb_neq. lia.
      * split; [symmetry; apply Z.leb_le; lia|]. symmetry. apply negb_true_iff, Z.eqb_neq.
        replace (2 * r) with (2 * r - D + 1 * D) by ring.
        rewrite Z.mod_add, Z.mod_small by lia. lia.
Qed.

Lemma div_eucl_pair a b : Z.div_eucl a b = (a / b, a mod b).
Proof. unfold Z.div, Z.modulo. destruct (Z.div_eucl a b). reflexivity. Qed.

Lemma shiftl_match m s :
  0 <= s ->
  match s with Zpos _ => Z.shiftl m s | 0 => m | Zneg _ => 0 end = m * 2 ^ s.
Proof.
  intros H. destruct s as [|p|p].
  - rewrite Z.pow_0_r. lia.
  - rewrite Z.shiftl_mul_pow2 by lia. reflexivity.
  - lia.
Qed.

(** division by a positive finite float *)
Lemma SFdiv_sval x my ey :
  valid_binary x = true -> valid_binary (S754_finite false my ey) = true -> SF_finite x ->
  sval (SFdiv prec emax x (S754_finite false my ey)) =
  rnd (sval x * 2 ^ 1075) (sval (S754_finite false my ey)).
Proof.
  intros Hx Hy Fx. pose proof (finite_sval_bounds my ey Hy) as [Hy0 _].
  destruct x as [sx|sx| |sx mx ex]; cbn [SF_finite] in Fx; try contradiction; cbn [SFdiv].
  - change (sval (S754_zero sx)) with 0. rewrite Z.mul_0_l, rnd_0 by (cbn [sval cond_Zopp]; lia).
    reflexivity.
  - rewrite valid_binary_sign with (s' := false) in Hx.
    destruct (valid_finite_facts _ _ _ Hx) as ((Hex & Hex') & Hmx & Hnx & _).
    destruct (valid_finite_facts _ _ _ Hy) as ((Hey & Hey') & Hmy & Hny & _).
    rewrite xorb_false_r. unfold SFdiv_core_binary. cbn [Zdigits2].
    pose proof (digits2_pos_bounds mx) as [Hlx Hhx].
    pose proof (digits2_pos_bounds my) as [Hly Hhy].
    set (d1 := Zpos (digits2_pos mx)) in *. set (d2 := Zpos (digits2_pos my)) in *.
    assert (Hd1 : 1 <= d1 <= 53) by (split; [subst d1; lia|apply pow2_digits_le; lia]).
    assert (Hd2 : 1 <= d2 <= 53) by (split; [subst d2; lia|apply pow2_digits_le; lia]).
    rewrite fexp_eq.
    set (e' := Z.min (Z.max (d1 + ex - (d2 + ey) - 53) (-1074)) (ex - ey)).
    set (s := ex - ey - e').
    assert (Hs : 0 <= s) by lia.
    rewrite (shiftl_match (Zpos mx) s Hs). rewrite div_eucl_pair.
    pose proof (pow2_pos s Hs) as Hps.
    rewrite (binary_round_aux_sval _ _ _ _ (Zpos mx * 2 ^ s) (Zpos my));
      [|lia|nia|apply new_location_inv; nia|].
    + cbn [sval cond_Zopp].
      set (delta := ex - ey + 1075).
      transitivity (cond_Zopp sx (rnd_pos (Zpos mx * 2 ^ Z.max 0 delta)
                                          (Zpos my * 2 ^ Z.max 0 (- delta)))).
      * f_equal. rewrite <- (rnd_pos_shift (Zpos mx) (Zpos my) delta (Z.max 0 (- (e' + 1075))))
          by lia.
        f_equal. rewrite <- Z.mul_assoc, <- Z.pow_add_r by lia. f_equal. f_equal. lia.
      * rewrite <- (rnd_pos_shift (Zpos mx) (Zpos my) delta (ey + 1075)) by lia.
        replace (cond_Zopp sx (Zpos mx * 2 ^ (ex + 1075)) * 2 ^ 1075)
          with (cond_Zopp sx (Zpos mx * 2 ^ (delta + (ey + 1075)))).
        -- rewrite rnd_cond_Zopp; [reflexivity|lia|].
           apply Z.mul_nonneg_nonneg; [lia|apply Z.pow_nonneg; lia].
        -- replace (delta + (ey + 1075)) with (ex + 1075 + 1075) by lia.
           rewrite (Z.pow_add_r 2 (ex + 1075) 1075) by lia.
           destruct sx; cbn [cond_Zopp]; ring.
    + rewrite fexp_eq.
      destruct (Z.le_gt_cases e' (-1074)) as [|Hgt]; [lia|].
      assert (Hsb : 53 + d2 - d1 <= s) by lia.
      assert (Hq : 2 ^ 52 <= Zpos mx * 2 ^ s / Zpos my).
      { apply Z.div_le_lower_bound; [lia|].
        assert (H1 : 2 ^ (52 + d2) <= 2 ^ (d1 - 1 + s)) by (apply Z.pow_le_mono_r; lia).
        rewrite !Z.pow_add_r in H1 by lia.
        pose proof (pow2_pos 52 ltac:(lia)). pose proof (pow2_pos (d1 - 1) ltac:(lia)).
        assert (Zpos my * 2 ^ 52 <= 2 ^ d2 * 2 ^ 52) by nia.
        assert (2 ^ (d1 - 1) * 2 ^ s <= Zpos mx * 2 ^ s) by nia.
        lia. }
      pose proof (Zdigits2_ge _ 52 ltac:(lia) Hq). lia.
Qed.

(** *** Square roots *)

Lemma loc_of_shr_record_of_loc m l : loc_of_shr_record (shr_record_of_loc m l) = l.
Proof. destruct l as [|[| |]]; reflexivity. Qed.

(** Rounding a full 53-bit mantissa, whatever the location: a finite
    float of the same sign, at the same exponent or the next. *)
Lemma binary_round_aux_normal s q e l :
  2 ^ 52 <= q < 2 ^ 53 -> -1074 <= e <= 970 ->
  exists m e', binary_round_aux prec emax s q e l = S754_finite s m e' /\ e <= e' <= e + 1.
Proof.
  intros Hq He. destruct q as [|p|p]; try lia.
  assert (Hd : Zpos (digits2_pos p) = 53).
  { pose proof (Zdigits2_ge (Zpos p) 52 ltac:(lia) ltac:(lia)) as H1. cbn [Zdigits2] in H1.
    pose proof (pow2_digits_le p 53 ltac:(lia) ltac:(lia)). lia. }
  unfold binary_round_aux, shr_fexp. cbn [Zdigits2]. rewrite Hd, fexp_eq.
  replace (Z.max (53 + e - 53) (-1074) - e) with 0 by lia. cbn [shr].
  rewrite shr_record_of_loc_m, loc_of_shr_record_of_loc.
  assert (Hm1 : 2 ^ 52 <= round_nearest_even (Zpos p) l <= 2 ^ 53).
  { unfold round_nearest_even. destruct l as [|[| |]]; try destruct (Z.even (Zpos p)); lia. }
  destruct (round_nearest_even (Zpos p) l) as [|p1|p1]; try lia.
  cbn [Zdigits2]. rewrite fexp_eq.
  destruct (Z.eq_dec (Zpos p1) (2 ^ 53)) as [E53|N53].
  - assert (Ep : p1 = 9007199254740992%positive) by (apply Pos2Z.inj; rewrite E53; reflexivity).
    subst p1. cbn [digits2_pos Pos.succ].
    replace (Z.max (54 + e - 53) (-1074) - e) with 1 by lia.
    cbn [shr SpecFloat.iter_pos shr_record_of_loc shr_1 shr_m].
    destruct (Z.leb_spec (e + 1) (emax - prec)) as [Hle|Hgt];
      [|change (emax - prec) with 971 in Hgt; lia].
    eexists _, _. split; [reflexivity|lia].
  - assert (Hd1 : Zpos (digits2_pos p1) <= 53) by (apply pow2_digits_le; lia).
    unfold shr.
    destruct (Z.max (Zpos (digits2_pos p1) + e - 53) (-1074) - e) as [|k|k] eqn:Hk; try lia;
      cbn [shr_record_of_loc shr_m];
      (destruct (Z.leb_spec e (emax - prec)) as [Hle|Hgt];
       [|change (emax - prec) with 971 in Hgt; lia]);
      eexists _, _; (split; [reflexivity|lia]).
Qed.

Lemma div2_bounds z : 2 * Z.div2 z <= z <= 2 * Z.div2 z + 1.
Proof. rewrite Z.div2_div. pose proof (Z.div_mod z 2 ltac:(lia)).
       pose proof (Z.mod_pos_bound z 2 ltac:(lia)). lia. Qed.

(** the square root of a positive finite float is positive and finite *)
Lemma SFsqrt_positive m e :
  valid_binary (S754_finite false m e) = true ->
  exists m' e', SFsqrt prec emax (S754_finite false m e) = S754_finite false m' e' /\ e' <= 461.
Proof.
  intros Hv. destruct (valid_finite_facts _ _ _ Hv) as ((He1 & He2) & Hm & Hn & _).
  cbn [SFsqrt]. unfold SFsqrt_core_binary. cbn [Zdigits2].
  pose proof (digits2_pos_bounds m) as [Hlo Hhi].
  set (d := Zpos (digits2_pos m)) in *.
  assert (Hd : 1 <= d <= 53) by (split; [subst d; lia|apply pow2_digits_le; lia]).
  pose proof (div2_bounds (d + e + 1)) as Hh. pose proof (div2_bounds e) as Hh'.
  set (h := Z.div2 (d + e + 1)) in *. set (h' := Z.div2 e) in *.
  rewrite fexp_eq.
  replace (Z.min (Z.max (h - 53) (-1074)) h') with (h - 53) by lia.
  set (s := e - 2 * (h - 53)).
  assert (Hs : 0 <= s) by lia.
  rewrite (shiftl_match (Zpos m) s Hs).
  assert (Hds : 105 <= d + s <= 106) by lia.
  assert (Hm' : 2 ^ 104 <= Zpos m * 2 ^ s < 2 ^ 106).
  { pose proof (pow2_pos s Hs). pose proof (pow2_pos (d - 1) ltac:(lia)).
    assert (H1 : 2 ^ 104 <= 2 ^ (d - 1 + s)) by (apply Z.pow_le_mono_r; lia).
    assert (H2 : 2 ^ (d + s) <= 2 ^ 106) by (apply Z.pow_le_mono_r; lia).
    rewrite Z.pow_add_r in H1, H2 by lia. split; nia. }
  pose proof (Z.sqrtrem_spec (Zpos m * 2 ^ s) ltac:(lia)) as Hsp.
  destruct (Z.sqrtrem (Zpos m * 2 ^ s)) as [q r]. destruct Hsp as [Hq Hr].
  assert (Hqb : 2 ^ 52 <= q < 2 ^ 53).
  { change (2 ^ 104) with (2 ^ 52 * 2 ^ 52) in Hm'. change (2 ^ 106) with (2 ^ 53 * 2 ^ 53) in Hm'.
    split; nia. }
  destruct (binary_round_aux_normal false q (h - 53)
              (if r =? 0 then loc_Exact else loc_Inexact (if r <=? q then Lt else Gt))
              Hqb ltac:(lia)) as (m' & e' & E & He').
  exists m', e'. split; [exact E|lia].
Qed.

End RoundingFacts.

Lemma sub_pos_iff (x y : float) : (0 <? x - y) = (y <? x).
Proof.
  rewrite !FloatAxioms.ltb_spec, FloatAxioms.sub_spec.
  change (Prim2SF 0) with (S754_zero false).
  apply SFsub_sign; apply Prim2SF_valid.
Qed.

Lemma SFcompare_antisym x y :
  SFcompare x y = option_map CompOpp (SFcompare y x).
Proof.
  destruct x as [sx|sx| |sx mx ex], y as [sy|sy| |sy my ey];
    try reflexivity;
    try (destruct sx; try destruct sy; reflexivity);
    try (destruct sy; reflexivity).
  cbn [SFcompare option_map].
  rewrite (Z.compare_antisym ex ey).
  change (Pos.compare_cont Eq my mx) with (Pos.compare_cont (CompOpp Eq) my mx).
  rewrite <- (Pos.compare_cont_antisym mx my Eq).
  destruct sx, sy, (ex ?= ey)%Z, (Pos.compare_cont Eq mx my); reflexivity.
Qed.

Lemma is_nan_Prim2SF x : is_nan x = false -> Prim2SF x <> S754_nan.
Proof.
  unfold is_nan. rewrite FloatAxioms.eqb_spec. intros H Hn. rewrite Hn in H. discriminate.
Qed.

Lemma ltb_leb (x y : float) : (x <? y) = true -> (x <=? y) = true.
Proof.
  rewrite FloatAxioms.ltb_spec, FloatAxioms.leb_spec. unfold SFltb, SFleb.
  destruct (SFcompare (Prim2SF x) (Prim2SF y)) as [[| |]|]; congruence.
Qed.

Lemma not_ltb_leb (x y : float) :
  is_nan x = false -> is_nan y = false -> (y <? x) = false -> (x <=? y) = true.
Proof.
  intros Hx Hy. apply is_nan_Prim2SF in Hx, Hy.
  rewrite FloatAxioms.ltb_spec, FloatAxioms.leb_spec. unfold SFltb, SFleb.
  rewrite (SFcompare_antisym (Prim2SF x) (Prim2SF y)).
  destruct (Prim2SF x) as [sx|sx| |sx mx ex], (Prim2SF y) as [sy|sy| |sy my ey];
    try congruence;
    destruct (SFcompare _ _) as [[| |]|] eqn:Hc; cbn [option_map CompOpp]; try congruence;
    cbn in Hc; try destruct sx; try destruct sy; discriminate.
Qed.

Lemma ltb_asym (x y : float) : (x <? y) = true -> (y <? x) = false.
Proof.
  rewrite !FloatAxioms.ltb_spec. unfold SFltb.
  rewrite (SFcompare_antisym (Prim2SF y) (Prim2SF x)).
  destruct (SFcompare (Prim2SF x) (Prim2SF y)) as [[| |]|]; cbn; congruence.
Qed.

Lemma SFleb_trans x y z :
  SFleb x y = true -> SFleb y z = true -> SFleb x z = true.
Proof.
  unfold SFleb.
  destruct x as [[]|[]| |[] mx ex], y as [[]|[]| |[] my ey], z as [[]|[]| |[] mz ez];
    cbn [SFcompare]; try (intros; (reflexivity || discriminate));
    change (Pos.compare_cont Eq mx my) with (Pos.compare mx my);
    change (Pos.compare_cont Eq my mz) with (Pos.compare my mz);
    change (Pos.compare_cont Eq mx mz) with (Pos.compare mx mz);
    destruct (Z.compare_spec ex ey), (Z.compare_spec ey ez), (Z.compare_spec ex ez);
    try lia; try (intros; (reflexivity || discriminate));
    destruct (Pos.compare_spec mx my), (Pos.compare_spec my mz), (Pos.compare_spec mx mz);
    try lia; try (cbn [CompOpp]; intros; (reflexivity || discriminate)).
Qed.

Lemma leb_trans (x y z : float) :
  (x <=? y) = true -> (y <=? z) = true -> (x <=? z) = true.
Proof. rewrite !FloatAxioms.leb_spec. apply SFleb_trans. Qed.

Lemma SFcompare_refl_finite s m e :
  SFcompare (S754_finite s m e) (S754_finite s m e) = Some Eq.
Proof.
  simpl. rewrite Z.compare_refl, Pos.compare_cont_refl. now destruct s.
Qed.

(** A number above [+0] is neither zero nor NaN. *)
Lemma pos_exponent_regular e :
  (0 <? e) = true -> (e =? 0) = false /\ is_nan e = false.
Proof.
  unfold is_nan. rewrite FloatAxioms.ltb_spec, !FloatAxioms.eqb_spec.
  change (Prim2SF 0) with (S754_zero false).
  unfold SFltb, SFeqb.
  destruct (Prim2SF e) as [s|s| |s m ex].
  - now destruct s.
  - destruct s; simpl; intros H; try discriminate; now split.
  - discriminate.
  - rewrite SFcompare_refl_finite. destruct s; simpl; intros H; try discriminate; now split.
Qed.

Lemma SFeqb_refl x : x <> S754_nan -> SFeqb x x = true.
Proof.
  unfold SFeqb. destruct x as [s|s| |s m e]; try congruence; intros _.
  - reflexivity.
  - now destruct s.
  - now rewrite SFcompare_refl_finite.
Qed.

Lemma is_nan_false_iff x : is_nan x = false <-> Prim2SF x <> S754_nan.
Proof.
  split; [apply is_nan_Prim2SF|].
  intros H. unfold is_nan. rewrite FloatAxioms.eqb_spec, SFeqb_refl by exact H. reflexivity.
Qed.

Lemma is_finite_SF x : is_finite x = true <-> SF_finite (Prim2SF x).
Proof.
  unfold is_finite, is_nan, is_infinity.
  rewrite !FloatAxioms.eqb_spec, FloatAxioms.abs_spec.
  change (Prim2SF infinity) with (S754_infinity false).
  destruct (Prim2SF x) as [s|s| |s m e]; cbn [SFabs SF_finite].
  - now destruct s.
  - split; [|contradiction]. now destruct s.
  - split; [discriminate|contradiction].
  - rewrite SFeqb_refl by discriminate. now destruct s.
Qed.

Lemma is_finite_not_nan x : is_finite x = true -> is_nan x = false.
Proof.
  rewrite is_finite_SF, is_nan_false_iff. destruct (Prim2SF x); cbn; congruence || tauto.
Qed.

Lemma add_finite_r a b : is_nan a = false -> is_finite b = true -> is_nan (a + b) = false.
Proof.
  rewrite !is_nan_false_iff, is_finite_SF, FloatAxioms.add_spec. apply SFadd_finite_r.
Qed.

Lemma add_finite_l a b : is_finite a = true -> is_nan b = false -> is_nan (a + b) = false.
Proof.
  rewrite !is_nan_false_iff, is_finite_SF, FloatAxioms.add_spec. apply SFadd_finite_l.
Qed.

(** Adding an infinity to a finite number, or to itself, gives that infinity. *)
Lemma add_infinite x d :
  is_nan d = false -> is_finite d = false ->
  is_finite x = true \/ x = d -> x + d = d.
Proof.
  intros Hn Hf Hx. apply Prim2SF_inj. rewrite FloatAxioms.add_spec.
  apply is_nan_false_iff in Hn.
  assert (Hinf : exists s, Prim2SF d = S754_infinity s).
  { destruct (Prim2SF d) as [s|s| |s m e] eqn:Hd; try congruence; [| now exists s |];
      exfalso; (assert (Hd' : is_finite d = true) by (apply is_finite_SF; rewrite Hd; exact I));
      congruence. }
  destruct Hinf as [s Hd]. rewrite Hd.
  destruct Hx as [Hx | ->].
  - apply is_finite_SF in Hx. destruct (Prim2SF x); cbn in Hx; try contradiction; reflexivity.
  - rewrite Hd. now destruct s.
Qed.

Lemma of_nat_not_nan n : is_nan (of_nat n) = false.
Proof.
  apply is_nan_false_iff. unfold of_nat. rewrite FloatAxioms.of_uint63_spec.
  apply binary_normalize_not_nan.
Qed.

Lemma mul_one_not_nan a : is_nan a = false -> is_nan (a * 1) = false.
Proof.
  rewrite !is_nan_false_iff, FloatAxioms.mul_spec.
  change (Prim2SF 1) with (S754_finite false 4503599627370496 (-52)).
  apply SFmul_finite_r.
Qed.

Lemma mul_minus_one_not_nan a : is_nan a = false -> is_nan (a * -1) = false.
Proof.
  rewrite !is_nan_false_iff, FloatAxioms.mul_spec.
  change (Prim2SF (-1)) with (S754_finite true 4503599627370496 (-52)).
  apply SFmul_finite_r.
Qed.

Lemma div_positive_not_nan L N :
  (0 <? L) = true -> is_finite L = true -> is_nan N = false -> is_nan (L / N) = false.
Proof.
  rewrite !is_nan_false_iff, is_finite_SF, FloatAxioms.ltb_spec, FloatAxioms.div_spec.
  change (Prim2SF 0) with (S754_zero false).
  destruct (Prim2SF L) as [s|s| |s m e]; cbn [SF_finite]; try contradiction.
  - destruct s; discriminate.
  - intros _ _. apply SFdiv_finite_l.
Qed.

(** ** Values of primitive floats

    [fval x] is the value of [x], scaled by [2^1075]: the comparisons
    of floats are the comparisons of their values, and the value of a
    sum, difference, product or quotient of finite floats is the
    rounding of the exact one. *)

(** *** Order and finiteness *)

Lemma compare_fval x y :
  is_nan x = false -> is_nan y = false ->
  SFcompare (Prim2SF x) (Prim2SF y) = Some (fval x ?= fval y)%Z.
Proof.
  intros Hx Hy. apply SFcompare_sval; try apply FloatAxioms.Prim2SF_valid;
    apply is_nan_Prim2SF; assumption.
Qed.

Lemma leb_fval x y :
  is_nan x = false -> is_nan y = false -> (x <=? y) = (fval x <=? fval y)%Z.
Proof.
  intros Hx Hy. rewrite FloatAxioms.leb_spec. unfold SFleb.
  rewrite compare_fval by assumption. unfold Z.leb.
  destruct (fval x ?= fval y)%Z; reflexivity.
Qed.

Lemma ltb_fval x y :
  is_nan x = false -> is_nan y = false -> (x <? y) = (fval x <? fval y)%Z.
Proof.
  intros Hx Hy. rewrite FloatAxioms.ltb_spec. unfold SFltb.
  rewrite compare_fval by assumption. unfold Z.ltb.
  destruct (fval x ?= fval y)%Z; reflexivity.
Qed.

Lemma leb_not_nan x y : (x <=? y) = true -> is_nan x = false /\ is_nan y = false.
Proof.
  rewrite FloatAxioms.leb_spec, !is_nan_false_iff. unfold SFleb.
  destruct (Prim2SF x), (Prim2SF y); cbn; intros H; split; congruence.
Qed.

Lemma ltb_not_nan x y : (x <? y) = true -> is_nan x = false /\ is_nan y = false.
Proof. intros H. apply leb_not_nan, ltb_leb, H. Qed.

Lemma fval_range x : (- OVF <= fval x <= OVF)%Z.
Proof.
  unfold fval. pose proof (FloatAxioms.Prim2SF_valid x) as Hv. pose proof OVF_pos.
  destruct (Prim2SF x) as [s|s| |s m e]; cbn [sval]; try (destruct s; cbn [cond_Zopp]; lia); try lia.
  rewrite valid_binary_sign with (s' := false) in Hv.
  pose proof (finite_sval_bounds m e Hv). destruct s; cbn [cond_Zopp]; lia.
Qed.

Lemma finite_fval x : is_finite x = true -> (- OVF < fval x < OVF)%Z.
Proof.
  rewrite is_finite_SF. unfold fval.
  pose proof (FloatAxioms.Prim2SF_valid x) as Hv. pose proof OVF_pos.
  destruct (Prim2SF x) as [s|s| |s m e]; cbn [SF_finite sval]; try contradiction; intros _; try lia.
  rewrite valid_binary_sign with (s' := false) in Hv.
  pose proof (finite_sval_bounds m e Hv). destruct s; cbn [cond_Zopp]; lia.
Qed.

Lemma fval_finite x : is_nan x = false -> (- OVF < fval x < OVF)%Z -> is_finite x = true.
Proof.
  rewrite is_nan_false_iff, is_finite_SF. unfold fval.
  destruct (Prim2SF x) as [s|s| |s m e]; cbn [SF_finite sval]; try congruence; try exact (fun _ _ => I).
  destruct s; cbn [cond_Zopp]; lia.
Qed.

(** *** The operations *)

Lemma fval_sub x y :
  is_finite x = true -> is_finite y = true -> fval (x - y) = rnd (fval x - fval y) 1.
Proof.
  intros Hx Hy. unfold fval. rewrite FloatAxioms.sub_spec.
  apply SFsub_sval; try apply FloatAxioms.Prim2SF_valid; apply is_finite_SF; assumption.
Qed.

Lemma fval_add x y :
  is_finite x = true -> is_finite y = true -> fval (x + y) = rnd (fval x + fval y) 1.
Proof.
  intros Hx Hy. unfold fval. rewrite FloatAxioms.add_spec.
  apply SFadd_sval; try apply FloatAxioms.Prim2SF_valid; apply is_finite_SF; assumption.
Qed.

Lemma fval_abs x : fval (abs x) = Z.abs (fval x).
Proof.
  unfold fval. rewrite FloatAxioms.abs_spec. pose proof OVF_pos.
  destruct (Prim2SF x) as [s|s| |s m e]; cbn [SFabs sval]; try reflexivity;
    destruct s; cbn [cond_Zopp]; lia.
Qed.

Lemma sub_not_nan x y : is_finite x = true -> is_finite y = true -> is_nan (x - y) = false.
Proof.
  rewrite !is_finite_SF, is_nan_false_iff, FloatAxioms.sub_spec.
  destruct (Prim2SF x) as [sx|sx| |sx mx ex], (Prim2SF y) as [sy|sy| |sy my ey];
    cbn [SF_finite]; try contradiction; intros _ _; cbn [SFsub]; try discriminate.
  - destruct sx, sy; discriminate.
  - apply binary_normalize_not_nan.
Qed.

Lemma abs_nan x : is_nan (abs x) = is_nan x.
Proof.
  assert (H : forall a b : float, (Prim2SF a = S754_nan <-> Prim2SF b = S754_nan) ->
                                  is_nan a = is_nan b).
  { intros a b Hab. destruct (is_nan a) eqn:Ha, (is_nan b) eqn:Hb; try reflexivity.
    - apply is_nan_false_iff in Hb. destruct (Prim2SF a) eqn:E;
        try (apply is_nan_false_iff in Ha || (assert (is_nan a = false) by (apply is_nan_false_iff; congruence); congruence)).
      exfalso. apply Hb, Hab. reflexivity.
    - apply is_nan_false_iff in Ha. destruct (Prim2SF b) eqn:E;
        try (assert (is_nan b = false) by (apply is_nan_false_iff; congruence); congruence).
      exfalso. apply Ha, Hab. reflexivity. }
  apply H. rewrite FloatAxioms.abs_spec. destruct (Prim2SF x); cbn; split; congruence.
Qed.

Lemma fval_mul x y :
  is_finite x = true -> is_finite y = true ->
  fval (x * y) = rnd (fval x * fval y) (2 ^ 1075).
Proof.
  intros Hx Hy. unfold fval. rewrite FloatAxioms.mul_spec.
  apply SFmul_sval; try apply FloatAxioms.Prim2SF_valid; apply is_finite_SF; assumption.
Qed.

(** a positive finite float *)
Lemma positive_finite d :
  (0 <? d) = true -> is_finite d = true ->
  exists m e, Prim2SF d = S754_finite false m e.
Proof.
  rewrite FloatAxioms.ltb_spec, is_finite_SF. change (Prim2SF 0) with (S754_zero false).
  destruct (Prim2SF d) as [s|s| |s m e]; cbn [SF_finite]; try contradiction.
  - discriminate.
  - destruct s; [discriminate|]. intros _ _. exists m, e. reflexivity.
Qed.

Lemma fval_div x d :
  is_finite x = true -> (0 <? d) = true -> is_finite d = true ->
  fval (x / d) = rnd (fval x * 2 ^ 1075) (fval d).
Proof.
  intros Hx Hd Fd. destruct (positive_finite d Hd Fd) as (m & e & E).
  unfold fval. rewrite FloatAxioms.div_spec.
  pose proof (FloatAxioms.Prim2SF_valid d) as Hv. rewrite E in *.
  apply SFdiv_sval; [apply FloatAxioms.Prim2SF_valid|assumption|apply is_finite_SF; assumption].
Qed.

Lemma fval_positive d : (0 <? d) = true -> (0 < fval d)%Z.
Proof.
  intros H. destruct (ltb_not_nan _ _ H) as [_ N].
  rewrite ltb_fval in H by (assumption || reflexivity). apply Z.ltb_lt in H. exact H.
Qed.

Lemma mul_not_nan x y : is_finite x = true -> is_finite y = true -> is_nan (x * y) = false.
Proof.
  rewrite !is_finite_SF, is_nan_false_iff, FloatAxioms.mul_spec.
  destruct (Prim2SF x) as [sx|sx| |sx mx ex], (Prim2SF y) as [sy|sy| |sy my ey];
    cbn [SF_finite]; try contradiction; intros _ _; cbn [SFmul]; try discriminate.
  apply binary_round_aux_not_nan. lia.
Qed.

Lemma div_not_nan x d :
  is_nan x = false -> (0 <? d) = true -> is_finite d = true -> is_nan (x / d) = false.
Proof.
  intros Hx Hd Fd. destruct (positive_finite d Hd Fd) as (m & e & E).
  rewrite is_nan_false_iff in *. rewrite FloatAxioms.div_spec, E.
  destruct (Prim2SF x) as [sx|sx| |sx mx ex]; try congruence; cbn [SFdiv]; try discriminate.
  apply SFdiv_finite_l. discriminate.
Qed.

Lemma div_infinite x d :
  is_nan x = false -> is_finite x = false -> (0 <? d) = true -> is_finite d = true ->
  fval (x / d) = fval x.
Proof.
  intros Nx Fx Hd Fd. destruct (positive_finite d Hd Fd) as (m & e & E).
  assert (Hn : ~ SF_finite (Prim2SF x)) by (intros H; apply is_finite_SF in H; congruence).
  rewrite is_nan_false_iff in Nx.
  unfold fval. rewrite FloatAxioms.div_spec, E.
  destruct (Prim2SF x) as [sx|sx| |sx mx ex]; cbn [SF_finite] in Hn; try congruence;
    try (exfalso; apply Hn; exact I).
  destruct sx; reflexivity.
Qed.

(** *** Products and quotients keep the order *)

Lemma mul_mono_r x y1 y2 :
  (0 <=? x) = true -> is_finite x = true ->
  (y1 <=? y2) = true -> is_finite y1 = true -> is_finite y2 = true ->
  (x * y1 <=? x * y2) = true.
Proof.
  intros Hx Fx Hy F1 F2.
  rewrite leb_fval in Hx by (reflexivity || apply is_finite_not_nan; assumption).
  rewrite leb_fval in Hy by (apply is_finite_not_nan; assumption).
  apply Z.leb_le in Hx, Hy. change (fval 0) with 0%Z in Hx.
  rewrite leb_fval by (apply mul_not_nan; assumption).
  rewrite !fval_mul by assumption. apply Z.leb_le, rnd_mono; [apply pow2_pos; lia|nia].
Qed.

Lemma div_mono_l a1 a2 d :
  (0 <? d) = true -> is_finite d = true -> (a1 <=? a2) = true ->
  (a1 / d <=? a2 / d) = true.
Proof.
  intros Hd Fd Ha. destruct (leb_not_nan _ _ Ha) as [N1 N2].
  pose proof (fval_positive d Hd) as Hd0.
  rewrite leb_fval in Ha by assumption. apply Z.leb_le in Ha.
  rewrite leb_fval by (apply div_not_nan; assumption). apply Z.leb_le.
  pose proof (fval_range (a1 / d)) as R1. pose proof (fval_range (a2 / d)) as R2.
  pose proof (fval_range a1) as Ra1. pose proof (fval_range a2) as Ra2.
  destruct (is_finite a1) eqn:F1, (is_finite a2) eqn:F2.
  - rewrite !fval_div by assumption. apply rnd_mono; [assumption|].
    apply Z.mul_le_mono_nonneg_r; [apply Z.pow_nonneg; lia|assumption].
  - rewrite (div_infinite a2) by assumption.
    pose proof (finite_fval a1 F1).
    assert (fval a2 = OVF \/ fval a2 = (- OVF)%Z) as [E|E]; [|lia|lia].
    destruct (Z.eq_dec (fval a2) OVF); [left; assumption|].
    destruct (Z.eq_dec (fval a2) (- OVF)); [right; assumption|].
    assert (is_finite a2 = true) by (apply fval_finite; [assumption|lia]). congruence.
  - rewrite (div_infinite a1) by assumption.
    pose proof (finite_fval a2 F2).
    assert (fval a1 = OVF \/ fval a1 = (- OVF)%Z) as [E|E]; [|lia|lia].
    destruct (Z.eq_dec (fval a1) OVF); [left; assumption|].
    destruct (Z.eq_dec (fval a1) (- OVF)); [right; assumption|].
    assert (is_finite a1 = true) by (apply fval_finite; [assumption|lia]). congruence.
  - rewrite (div_infinite a1), (div_infinite a2) by assumption. assumption.
Qed.

(** *** The midpoint of a bracket stays inside it *)

Lemma rnd_sval_double x :
  valid_binary x = true -> SF_finite x -> (0 <= sval x)%Z -> (2 * sval x < OVF)%Z ->
  rnd (2 * sval x) 1 = (2 * sval x)%Z.
Proof.
  intros Hv Hf H0 Hov. destruct x as [s|s| |s m e]; cbn [SF_finite] in Hf; try contradiction.
  - apply rnd_0. lia.
  - rewrite valid_binary_sign with (s' := false) in Hv.
    pose proof (finite_sval_bounds m e Hv) as Hb.
    destruct (valid_finite_facts _ _ _ Hv) as (He & _ & _ & Hc).
    destruct s; cbn [sval cond_Zopp] in *; [lia|].
    unfold rnd. destruct (Z.ltb_spec (2 * (Zpos m * 2 ^ (e + 1075))) 0) as [|_]; [lia|].
    set (c := cexp (2 * (Zpos m * 2 ^ (e + 1075))) 1).
    assert (Hc' : (1 <= c <= e + 1075 + 1)%Z).
    { subst c. unfold cexp. rewrite Z.div_1_r.
      replace (2 * (Zpos m * 2 ^ (e + 1075)))%Z with (Zpos m * 2 ^ (e + 1075 + 1))%Z
        by (rewrite (Z.pow_add_r 2 (e + 1075) 1) by lia; change (2 ^ 1)%Z with 2%Z; ring).
      rewrite Z.log2_mul_pow2 by lia.
      rewrite fexp_eq, digits2_log2 in Hc. lia. }
    apply (rnd_pos_representable _ (Zpos m * 2 ^ (e + 1075 + 1 - c))%Z); [lia| |lia].
    fold c. rewrite <- Z.mul_assoc, <- Z.pow_add_r by lia.
    replace (e + 1075 + 1 - c + c)%Z with (e + 1075 + 1)%Z by lia.
    rewrite (Z.pow_add_r 2 (e + 1075) 1) by lia. change (2 ^ 1)%Z with 2%Z. ring.
Qed.

Lemma rnd_fval x : is_finite x = true -> rnd (fval x) 1 = fval x.
Proof.
  intros H. apply rnd_sval; [apply FloatAxioms.Prim2SF_valid|apply is_finite_SF, H].
Qed.

Lemma rnd_fval_double x :
  is_finite x = true -> (0 <= fval x)%Z -> (2 * fval x < OVF)%Z ->
  rnd (2 * fval x) 1 = (2 * fval x)%Z.
Proof.
  intros H. apply rnd_sval_double; [apply FloatAxioms.Prim2SF_valid|apply is_finite_SF, H].
Qed.

Lemma fval_limit : (2 * fval BRACKET_LIMIT = OVF)%Z.
Proof. vm_compute. reflexivity. Qed.

Lemma fval_zero : fval 0 = 0%Z.
Proof. reflexivity. Qed.

Lemma fval_two : fval 2 = (2 * 2 ^ 1075)%Z.
Proof. vm_compute. reflexivity. Qed.

Lemma bracket_values lo hi :
  bracket lo hi ->
  is_finite lo = true /\ is_finite hi = true /\
  (0 <= fval lo <= fval hi)%Z /\ (2 * fval hi < OVF)%Z.
Proof.
  intros (H0 & Hle & Hlim).
  destruct (leb_not_nan _ _ Hle) as [Nlo Nhi].
  destruct (ltb_not_nan _ _ Hlim) as [_ Nlim].
  rewrite leb_fval in H0, Hle by (assumption || reflexivity).
  rewrite ltb_fval in Hlim by assumption.
  apply Z.leb_le in H0, Hle. apply Z.ltb_lt in Hlim. rewrite fval_zero in H0.
  pose proof fval_limit. pose proof OVF_pos.
  repeat split; try lia; apply fval_finite; try assumption; lia.
Qed.

Lemma midpoint_values lo hi :
  bracket lo hi ->
  is_nan ((lo + hi) / 2) = false /\
  (fval lo <= fval ((lo + hi) / 2) <= fval hi)%Z.
Proof.
  intros Hb. destruct (bracket_values lo hi Hb) as (Flo & Fhi & (H0 & Hle) & Hov).
  assert (Hs : (2 * fval lo <= fval (lo + hi) <= 2 * fval hi)%Z).
  { rewrite fval_add by assumption.
    rewrite <- (rnd_fval_double lo), <- (rnd_fval_double hi) by (assumption || lia).
    split; apply rnd_mono; lia. }
  assert (Fs : is_finite (lo + hi) = true).
  { apply fval_finite; [|lia].
    apply add_finite_r; [apply is_finite_not_nan|]; assumption. }
  pose proof (pow2_pos 1075 ltac:(lia)) as Hp.
  split; [apply div_not_nan; [apply is_finite_not_nan; assumption|reflexivity|reflexivity]|].
  rewrite fval_div by (assumption || reflexivity). rewrite fval_two.
  rewrite <- (rnd_fval lo) at 1 by assumption. rewrite <- (rnd_fval hi) at 1 by assumption.
  rewrite <- (rnd_scale (fval lo) 1 (2 * 2 ^ 1075)) by lia.
  rewrite <- (rnd_scale (fval hi) 1 (2 * 2 ^ 1075)) by lia.
  rewrite Z.mul_1_l.
  split; apply rnd_mono; nia.
Qed.

Lemma midpoint_bracket lo hi :
  bracket lo hi -> bracket lo ((lo + hi) / 2) /\ bracket ((lo + hi) / 2) hi.
Proof.
  intros Hb. destruct (midpoint_values lo hi Hb) as (Nm & Hm).
  destruct (bracket_values lo hi Hb) as (Flo & Fhi & (H0 & Hle) & Hov).
  destruct Hb as (B0 & Ble & Blim).
  destruct (ltb_not_nan _ _ Blim) as [_ Nlim].
  pose proof (is_finite_not_nan _ Flo) as Nlo. pose proof (is_finite_not_nan _ Fhi) as Nhi.
  pose proof Blim as Blim'. rewrite ltb_fval in Blim' by assumption. apply Z.ltb_lt in Blim'.
  split; (split; [|split]); try assumption.
  - rewrite leb_fval by assumption. apply Z.leb_le. lia.
  - rewrite ltb_fval by assumption. apply Z.ltb_lt. lia.
  - rewrite leb_fval by (assumption || reflexivity). apply Z.leb_le. rewrite fval_zero. lia.
  - rewrite leb_fval by assumption. apply Z.leb_le. lia.
Qed.

Lemma leb_refl x : is_nan x = false -> (x <=? x) = true.
Proof. intros H. rewrite leb_fval by assumption. apply Z.leb_refl. Qed.

Lemma bracket_not_nan lo hi : bracket lo hi -> is_nan lo = false /\ is_nan hi = false.
Proof. intros (_ & H & _). apply leb_not_nan, H. Qed.

Lemma bracket_below lo mid y : bracket lo mid -> bracket mid y -> bracket lo y.
Proof.
  intros (H0 & H1 & _) (_ & H2 & H3). repeat split; try assumption.
  eapply leb_trans; eassumption.
Qed.

Lemma bracket_above y mid hi : bracket y mid -> bracket mid hi -> bracket y hi.
Proof.
  intros (H0 & H1 & _) (_ & H2 & H3). repeat split; try assumption.
  eapply leb_trans; eassumption.
Qed.

(** *** The two tests of the bisection, as the target grows *)

Lemma tolerance_finite v t :
  is_finite v = true -> is_finite t = true ->
  (abs (v - t) <? TOLERANCE) = (Z.abs (rnd (fval v - fval t) 1) <? fval TOLERANCE)%Z.
Proof.
  intros Hv Ht. rewrite ltb_fval.
  - rewrite fval_abs, fval_sub by assumption. reflexivity.
  - rewrite abs_nan. apply sub_not_nan; assumption.
  - reflexivity.
Qed.

Lemma tolerance_infinite v t :
  is_finite v = false \/ is_finite t = false -> (abs (v - t) <? TOLERANCE) = false.
Proof.
  intros H.
  assert (Hn : ~ (SF_finite (Prim2SF v) /\ SF_finite (Prim2SF t))).
  { intros [Hv Ht]. apply is_finite_SF in Hv, Ht. destruct H; congruence. }
  rewrite FloatAxioms.ltb_spec, FloatAxioms.abs_spec, FloatAxioms.sub_spec.
  change (Prim2SF TOLERANCE) with (S754_finite false 4722366482869645 (-72)).
  destruct (Prim2SF v) as [sv|sv| |sv mv ev], (Prim2SF t) as [st|st| |st mt et];
    cbn [SF_finite] in Hn; try (exfalso; apply Hn; split; exact I);
    cbn [SFsub]; try reflexivity;
    destruct sv; try destruct st; reflexivity.
Qed.

Lemma tests_above v t1 t2 :
  (t1 <=? t2) = true ->
  (abs (v - t1) <? TOLERANCE) = false -> (v <? t1) = true ->
  (abs (v - t2) <? TOLERANCE) = false /\ (v <? t2) = true.
Proof.
  intros Ht Htol Hlt.
  destruct (leb_not_nan _ _ Ht) as [N1 N2]. destruct (ltb_not_nan _ _ Hlt) as [Nv _].
  pose proof Ht as Ht'. pose proof Hlt as Hlt'.
  rewrite leb_fval in Ht' by assumption. rewrite ltb_fval in Hlt' by assumption.
  apply Z.leb_le in Ht'. apply Z.ltb_lt in Hlt'.
  split; [|rewrite ltb_fval by assumption; apply Z.ltb_lt; lia].
  destruct (is_finite v) eqn:Fv; [|apply tolerance_infinite; left; assumption].
  destruct (is_finite t2) eqn:F2; [|apply tolerance_infinite; right; assumption].
  pose proof (finite_fval v Fv). pose proof (finite_fval t2 F2).
  assert (F1 : is_finite t1 = true) by (apply fval_finite; [assumption|lia]).
  rewrite tolerance_finite in * by assumption.
  apply Z.ltb_ge in Htol. apply Z.ltb_ge.
  pose proof (rnd_mono (fval v - fval t1) 0 1 ltac:(lia) ltac:(lia)) as H1.
  rewrite rnd_0 in H1 by lia.
  pose proof (rnd_mono (fval v - fval t2) (fval v - fval t1) 1 ltac:(lia) ltac:(lia)) as H2.
  lia.
Qed.

Lemma tests_within v t1 t2 :
  (t1 <=? t2) = true ->
  (abs (v - t1) <? TOLERANCE) = true -> (abs (v - t2) <? TOLERANCE) = false ->
  (v <? t2) = true.
Proof.
  intros Ht Htol1 Htol2.
  destruct (leb_not_nan _ _ Ht) as [N1 N2].
  destruct (is_finite v) eqn:Fv;
    [|rewrite tolerance_infinite in Htol1 by (left; assumption); discriminate].
  destruct (is_finite t1) eqn:F1;
    [|rewrite tolerance_infinite in Htol1 by (right; assumption); discriminate].
  pose proof (is_finite_not_nan _ Fv) as Nv.
  pose proof Ht as Ht'. rewrite leb_fval in Ht' by assumption. apply Z.leb_le in Ht'.
  rewrite ltb_fval by assumption.
  destruct (Z.ltb_spec (fval v) (fval t2)) as [|Hge]; [reflexivity|exfalso].
  pose proof (finite_fval v Fv). pose proof (finite_fval t1 F1).
  assert (F2 : is_finite t2 = true) by (apply fval_finite; [assumption|lia]).
  rewrite tolerance_finite in * by assumption.
  apply Z.ltb_lt in Htol1. apply Z.ltb_ge in Htol2.
  pose proof (rnd_mono 0 (fval v - fval t2) 1 ltac:(lia) ltac:(lia)) as H1.
  rewrite rnd_0 in H1 by lia.
  pose proof (rnd_mono (fval v - fval t2) (fval v - fval t1) 1 ltac:(lia) ltac:(lia)) as H2.
  lia.
Qed.

(** *** The denominator of the target *)

Lemma sqrt_positive S :
  (0 <? S) = true -> is_finite S = true ->
  (0 <? sqrt S) = true /\ is_finite (sqrt S) = true /\ (2 * fval (sqrt S) < OVF)%Z.
Proof.
  intros H0 HF. destruct (positive_finite S H0 HF) as (m & e & E).
  pose proof (FloatAxioms.Prim2SF_valid S) as Hv. rewrite E in Hv.
  destruct (SFsqrt_positive m e Hv) as (m' & e' & Es & He').
  pose proof (FloatAxioms.Prim2SF_valid (sqrt S)) as Hv'.
  assert (Ep : Prim2SF (sqrt S) = S754_finite false m' e').
  { rewrite FloatAxioms.sqrt_spec, E. exact Es. }
  rewrite Ep in Hv'.
  destruct (valid_finite_facts _ _ _ Hv') as ((He1 & He2) & Hm & _).
  assert (HF' : is_finite (sqrt S) = true) by (apply is_finite_SF; rewrite Ep; exact I).
  assert (Hval : fval (sqrt S) = (Zpos m' * 2 ^ (e' + 1075))%Z) by (unfold fval; rewrite Ep; reflexivity).
  pose proof (pow2_pos (e' + 1075) ltac:(lia)) as Hp.
  split; [|split].
  - rewrite ltb_fval by (reflexivity || apply is_finite_not_nan; assumption).
    apply Z.ltb_lt. rewrite Hval. change (fval 0) with 0%Z. nia.
  - exact HF'.
  - rewrite Hval.
    pose proof (pow_le_OVF 54 (e' + 1075) ltac:(lia) ltac:(lia) ltac:(lia)) as Hov.
    eapply Z.lt_le_trans; [|exact Hov].
    change (2 ^ 54)%Z with (2 * 2 ^ 53)%Z. nia.
Qed.

Lemma unit_constant unit :
  is_finite (K (UNIT_CONSTANTS unit)) = true /\
  (2 ^ 1075 <= fval (K (UNIT_CONSTANTS unit)) <= 2 * 2 ^ 1075)%Z.
Proof. destruct unit; vm_compute; repeat split; discriminate. Qed.

(** [k·√S] is positive and finite for a positive finite slope *)
Lemma denominator_positive unit S :
  (0 <? S) = true -> is_finite S = true ->
  (0 <? K (UNIT_CONSTANTS unit) * sqrt S) = true /\
  is_finite (K (UNIT_CONSTANTS unit) * sqrt S) = true.
Proof.
  intros H0 HF. destruct (sqrt_positive S H0 HF) as (Hs0 & HsF & Hs2).
  destruct (unit_constant unit) as (Fk & Hk1 & Hk2).
  set (k := K (UNIT_CONSTANTS unit)) in *. set (x := sqrt S) in *.
  pose proof (fval_positive x Hs0) as Hx.
  pose proof (mul_not_nan k x Fk HsF) as Nn.
  pose proof (pow2_pos 1075 ltac:(lia)) as Hp.
  assert (Hlo : (fval x <= fval (k * x))%Z).
  { rewrite fval_mul by assumption.
    rewrite <- (rnd_fval x) at 1 by assumption.
    rewrite <- (rnd_scale (fval x) 1 (2 ^ 1075)) by lia. rewrite Z.mul_1_l.
    apply rnd_mono; [lia|nia]. }
  assert (Hhi : (fval (k * x) <= 2 * fval x)%Z).
  { rewrite fval_mul by assumption.
    rewrite <- (rnd_fval_double x) by (assumption || lia).
    rewrite <- (rnd_scale (2 * fval x) 1 (2 ^ 1075)) by lia. rewrite Z.mul_1_l.
    apply rnd_mono; [lia|nia]. }
  split.
  - rewrite ltb_fval by (reflexivity || assumption). apply Z.ltb_lt. change (fval 0) with 0%Z. lia.
  - apply fval_finite; [assumption|]. pose proof OVF_pos. lia.
Qed.

Lemma RefMath_pow_zero e : (0 <? e) = true -> RefMath.pow 0 e = 0.
Proof.
  intros H. destruct (pos_exponent_regular e H) as [H0 Hn].
  unfold RefMath.pow. rewrite H0, Hn, H.
  destruct (e =? 2); [reflexivity|].
  destruct (e =? 3); reflexivity.
Qed.

#[export] Instance refMath : MathLib := {|
  Math_pow := RefMath.pow;
  Math_sin := RefMath.sin;
  Math_acos := RefMath.acos;
  Math_pow_zero := RefMath_pow_zero
|}.

(** ** More on the values of floats *)

(** *** Scaling *)

Lemma nan_not_positive d : (d <=? 0) = false -> is_nan d = false -> (0 <? d) = true.
Proof.
  intros H N. rewrite leb_fval in H by (assumption || reflexivity).
  rewrite ltb_fval by (assumption || reflexivity).
  apply Z.leb_gt in H. apply Z.ltb_lt. exact H.
Qed.

Lemma fval_one : fval 1 = (2 ^ 1075)%Z.
Proof. vm_compute. reflexivity. Qed.

(** scaling by a factor of at least one keeps the outcome of [x <= 0] *)
Lemma scale_up_leb0 x c :
  (1 <=? c) = true -> is_finite c = true -> (x * c <=? 0) = (x <=? 0).
Proof.
  intros Hc Fc.
  pose proof (is_finite_not_nan c Fc) as Nc.
  pose proof Hc as Hc'. rewrite leb_fval in Hc' by (assumption || reflexivity).
  apply Z.leb_le in Hc'. rewrite fval_one in Hc'.
  pose proof (pow2_pos 1075 ltac:(lia)) as HP.
  destruct (is_finite x) eqn:Fx.
  - pose proof (is_finite_not_nan x Fx) as Nx.
    rewrite !leb_fval by (try apply mul_not_nan; assumption || reflexivity).
    rewrite fval_mul, fval_zero by assumption.
    destruct (Z.leb_spec (fval x) 0) as [Hx|Hx].
    + apply Z.leb_le.
      pose proof (rnd_mono (fval x * fval c) 0 (2 ^ 1075) HP ltac:(nia)) as H.
      rewrite rnd_0 in H by exact HP. exact H.
    + apply Z.leb_gt.
      pose proof (rnd_mono (fval x * 2 ^ 1075) (fval x * fval c) (2 ^ 1075) HP ltac:(nia)) as H.
      rewrite <- (Z.mul_1_l (2 ^ 1075)) in H at 2.
      rewrite rnd_scale, rnd_fval in H by (assumption || lia). lia.
  - assert (Hn : ~ SF_finite (Prim2SF x)) by (intros F; apply is_finite_SF in F; congruence).
    assert (H0 : (0 <? c) = true).
    { rewrite ltb_fval by (assumption || reflexivity). apply Z.ltb_lt. rewrite fval_zero. lia. }
    destruct (positive_finite c H0 Fc) as (m & e & E).
    rewrite !FloatAxioms.leb_spec, FloatAxioms.mul_spec, E. unfold SF64mul.
    destruct (Prim2SF x) as [s|s| |s mx ex]; cbn [SF_finite] in Hn;
      try (exfalso; apply Hn; exact I); cbn [SFmul xorb]; [|reflexivity].
    destruct s; reflexivity.
Qed.

(** *** Floats of the same value *)

Section ValueFacts.
#[local] Open Scope Z_scope.

(** two valid floats of the same non-zero value are the same float *)
Lemma sval_inj x y :
  valid_binary x = true -> valid_binary y = true ->
  x <> S754_nan -> y <> S754_nan ->
  sval x = sval y -> sval x <> 0 -> x = y.
Proof.
  intros Hx Hy Nx Ny Hv H0.
  pose proof (SFcompare_sval x y Hx Hy Nx Ny) as Hc.
  rewrite Hv, Z.compare_refl in Hc.
  destruct x as [sx|sx| |sx mx ex], y as [sy|sy| |sy my ey]; cbn [sval] in H0;
    try congruence; cbn [SFcompare] in Hc;
    try (destruct sx; discriminate); try (destruct sy; discriminate);
    try (destruct sx, sy; (reflexivity || discriminate)).
  destruct sx, sy; try discriminate;
    destruct (ex ?= ey) eqn:E; try discriminate;
    apply Z.compare_eq in E; subst ey; injection Hc as Hc;
    [apply (f_equal CompOpp) in Hc; rewrite CompOpp_involutive in Hc; cbn [CompOpp] in Hc|];
    apply Pos.compare_eq in Hc; subst my; reflexivity.
Qed.

Lemma SFmul_one x :
  valid_binary x = true ->
  valid_binary (SFmul prec emax x (S754_finite false 4503599627370496 (-52))) = true ->
  SFmul prec emax x (S754_finite false 4503599627370496 (-52)) = x.
Proof.
  intros Hx Hm.
  destruct x as [sx|sx| |sx mx ex] eqn:E; try (cbn [SFmul]; destruct sx; reflexivity);
    [reflexivity|].
  rewrite <- E in *.
  assert (Fx : SF_finite x) by (rewrite E; exact I).
  assert (Nx : x <> S754_nan) by (rewrite E; discriminate).
  pose proof (pow2_pos 1075 ltac:(lia)) as HP.
  apply sval_inj; try assumption.
  - apply SFmul_finite_r, Nx.
  - rewrite SFmul_sval by (assumption || reflexivity || exact I).
    change (sval (S754_finite false 4503599627370496 (-52))) with (1 * 2 ^ 1075).
    rewrite Z.mul_assoc, Z.mul_1_r.
    rewrite <- (Z.mul_1_l (2 ^ 1075)) at 2.
    rewrite rnd_scale by lia. apply rnd_sval; assumption.
  - rewrite SFmul_sval by (assumption || reflexivity || exact I).
    change (sval (S754_finite false 4503599627370496 (-52))) with (1 * 2 ^ 1075).
    rewrite Z.mul_assoc, Z.mul_1_r.
    rewrite <- (Z.mul_1_l (2 ^ 1075)) at 2.
    rewrite rnd_scale by lia. rewrite rnd_sval by assumption.
    rewrite E. cbn [sval].
    pose proof (finite_sval_bounds mx ex) as B.
    rewrite E in Hx. rewrite valid_binary_sign with (s' := false) in Hx.
    specialize (B Hx). destruct sx; cbn [cond_Zopp]; lia.
Qed.

End ValueFacts.

(** [x * 1] is [x] *)
Lemma times_one (x : float) : x * 1 = x.
Proof.
  apply FloatAxioms.Prim2SF_inj.
  pose proof (FloatAxioms.Prim2SF_valid (x * 1)) as Hm.
  rewrite FloatAxioms.mul_spec in *.
  change (Prim2SF 1) with (S754_finite false 4503599627370496 (-52)) in *.
  apply SFmul_one; [apply FloatAxioms.Prim2SF_valid|exact Hm].
Qed.

(** a float above zero keeps its value when [+0] is added *)
Lemma plus_zero (x : float) : (0 <? x) = true -> x + 0 = x.
Proof.
  intros H. apply FloatAxioms.Prim2SF_inj.
  rewrite FloatAxioms.ltb_spec in H. rewrite FloatAxioms.add_spec.
  change (Prim2SF 0) with (S754_zero false) in *. unfold SF64add.
  destruct (Prim2SF x) as [s|s| |s m e]; try discriminate; reflexivity.
Qed.

(** a finite depth above zero *)
Lemma zero_times (y : float) :
  (y <=? 0) = false -> is_finite y = true -> 0 * y = 0.
Proof.
  intros H F. apply FloatAxioms.Prim2SF_inj.
  apply is_finite_SF in F.
  rewrite FloatAxioms.leb_spec in H. rewrite FloatAxioms.mul_spec.
  change (Prim2SF 0) with (S754_zero false) in *. unfold SF64mul.
  destruct (Prim2SF y) as [s|s| |s m e]; cbn [SF_finite] in F; try contradiction.
  - discriminate.
  - destruct s; [discriminate|reflexivity].
Qed.

(** *** Sign bits *)

Section SignFacts.
#[local] Open Scope Z_scope.

Lemma binary_round_aux_unsigned m e l : SF_unsigned (binary_round_aux prec emax false m e l).
Proof.
  unfold binary_round_aux.
  destruct (shr_fexp prec emax m e l) as [mrs' e'].
  destruct (shr_fexp prec emax _ e' loc_Exact) as [mrs'' e''].
  destruct (shr_m mrs'') as [|p|p]; [reflexivity| |exact I].
  destruct (e'' <=? emax - prec); reflexivity.
Qed.

Lemma binary_round_unsigned m e : SF_unsigned (binary_round prec emax false m e).
Proof.
  unfold binary_round. destruct (shl_align m e _) as [mz ez].
  apply binary_round_aux_unsigned.
Qed.

Lemma SFmul_unsigned x y :
  SF_unsigned x -> SF_unsigned y -> SF_unsigned (SFmul prec emax x y).
Proof.
  destruct x as [sx|sx| |sx mx ex], y as [sy|sy| |sy my ey]; cbn [SF_unsigned SFmul];
    intros; subst; cbn [xorb SF_unsigned]; try reflexivity; try exact I.
  apply binary_round_aux_unsigned.
Qed.

Lemma SFadd_unsigned x y :
  SF_unsigned x -> SF_unsigned y -> SF_unsigned (SFadd prec emax x y).
Proof.
  destruct x as [sx|sx| |sx mx ex], y as [sy|sy| |sy my ey]; cbn [SF_unsigned SFadd];
    intros; subst; cbn [Bool.eqb SF_unsigned]; try reflexivity; try exact I.
  cbn [cond_Zopp]. cbn [Z.add binary_normalize]. apply binary_round_unsigned.
Qed.

Lemma SFsqrt_unsigned x : SF_unsigned x -> SF_unsigned (SFsqrt prec emax x).
Proof.
  destruct x as [sx|sx| |sx mx ex]; cbn [SF_unsigned SFsqrt]; intros; subst;
    cbn [SF_unsigned]; try reflexivity; try exact I.
  destruct (SFsqrt_core_binary prec emax (Zpos mx) ex) as [[m e] l].
  apply binary_round_aux_unsigned.
Qed.

Lemma SFadd_zero_l x : SF_unsigned x -> SFadd prec emax (S754_zero false) x = x.
Proof.
  destruct x as [sx|sx| |sx mx ex]; cbn [SF_unsigned SFadd]; intros; subst; reflexivity.
Qed.

End SignFacts.

#[local] Open Scope float_scope.

Lemma mul_unsigned x y : unsigned x -> unsigned y -> unsigned (x * y).
Proof. unfold unsigned. rewrite FloatAxioms.mul_spec. apply SFmul_unsigned. Qed.

Lemma add_unsigned x y : unsigned x -> unsigned y -> unsigned (x + y).
Proof. unfold unsigned. rewrite FloatAxioms.add_spec. apply SFadd_unsigned. Qed.

Lemma sqrt_unsigned x : unsigned x -> unsigned (sqrt x).
Proof. unfold unsigned. rewrite FloatAxioms.sqrt_spec. apply SFsqrt_unsigned. Qed.

Lemma zero_plus x : unsigned x -> 0 + x = x.
Proof.
  intros H. apply FloatAxioms.Prim2SF_inj. rewrite FloatAxioms.add_spec.
  apply SFadd_zero_l, H.
Qed.

Lemma positive_unsigned x : (0 <? x) = true -> unsigned x.
Proof.
  unfold unsigned. rewrite FloatAxioms.ltb_spec. change (Prim2SF 0) with (S754_zero false).
  destruct (Prim2SF x) as [s|s| |s m e]; cbn; intros H; try discriminate H; try exact I;
    destruct s; congruence.
Qed.

Lemma not_leb_unsigned y : (y <=? 0) = false -> unsigned y.
Proof.
  unfold unsigned. rewrite FloatAxioms.leb_spec. change (Prim2SF 0) with (S754_zero false).
  destruct (Prim2SF y) as [s|s| |s m e]; cbn; intros H; try discriminate H; try exact I;
    destruct s; congruence.
Qed.

(** ** Bisection in binary64

    Rounding moves a value by at most one step of its 53-bit grid, so
    the midpoint the loops compute halves the bracket up to an error
    of [2^-49] of the ceiling; [iters] halvings leave a bracket whose
    ends record the last decisions taken there. *)

Section ErrorFacts.
#[local] Open Scope Z_scope.

(** the grid a value is rounded on is 2^52 times finer than the value,
    or the subnormal grid *)
Lemma cexp_grid num den :
  0 < den -> 0 <= num -> den * 2 ^ cexp num den * 2 ^ 52 <= num + den * 2 ^ 53.
Proof.
  intros Hd Hn. unfold cexp.
  assert (Hq : 0 <= num / den) by (apply Z.div_pos; lia).
  pose proof (Z.mul_div_le num den Hd) as Hle.
  destruct (Z.max_spec (Z.log2 (num / den) + 1 - 53) 1) as [[Hc ->]|[Hc ->]].
  - change (2 ^ 1) with 2. change (2 ^ 53) with (2 * 2 ^ 52). lia.
  - assert (Hpos : 0 < num / den).
    { destruct (Z.eq_dec (num / den) 0) as [E|E]; [|lia].
      rewrite E in Hc. cbn in Hc. lia. }
    pose proof (Z.log2_spec (num / den) Hpos) as [Hlog _].
    replace (Z.log2 (num / den)) with ((Z.log2 (num / den) + 1 - 53) + 52) in Hlog at 1 by lia.
    rewrite Z.pow_add_r in Hlog by lia.
    pose proof (pow2_pos 53 ltac:(lia)).
    nia.
Qed.

(** rounding moves a value by at most one step of its grid *)
Lemma rnd_pos_error num den :
  0 < den -> 0 <= num -> num <= den * OVF ->
  Z.abs (den * rnd_pos num den - num) <= den * 2 ^ cexp num den.
Proof.
  intros Hd Hn Hov. unfold rnd_pos.
  pose proof (cexp_pos num den) as Hc.
  pose proof (pow2_pos (cexp num den) ltac:(lia)) as Hp.
  set (c := 2 ^ cexp num den) in *.
  assert (HD : 0 < den * c) by nia.
  pose proof (rne_bounds (den * c) num) as [Hq1 Hq2].
  pose proof (Z.mul_div_le num (den * c) HD) as Hf1.
  pose proof (Z.mul_succ_div_gt num (den * c) HD) as Hf2.
  set (q := rne (den * c) num) in *.
  set (fl := num / (den * c)) in *.
  destruct (Z.min_spec (q * c) OVF) as [[Hm ->]|[Hm ->]]; nia.
Qed.

Lemma rnd_error num den :
  0 < den -> 0 <= num -> num <= den * OVF ->
  2 ^ 52 * Z.abs (den * rnd num den - num) <= num + den * 2 ^ 53.
Proof.
  intros Hd Hn Hov. unfold rnd.
  destruct (Z.ltb_spec num 0) as [Hneg|_]; [lia|].
  pose proof (rnd_pos_error num den Hd Hn Hov).
  pose proof (cexp_grid num den Hd Hn).
  pose proof (pow2_pos 52 ltac:(lia)).
  nia.
Qed.

End ErrorFacts.

(** the midpoint the loops compute is the exact midpoint up to two
    roundings *)
Lemma midpoint_error lo hi :
  bracket lo hi ->
  (2 ^ 52 * Z.abs (2 * fval ((lo + hi) / 2) - (fval lo + fval hi))
   <= 6 * fval hi + 2 ^ 55)%Z.
Proof.
  intros Hb. destruct (bracket_values lo hi Hb) as (Flo & Fhi & (H0 & Hle) & Hov).
  assert (Hs : (2 * fval lo <= fval (lo + hi) <= 2 * fval hi)%Z).
  { rewrite fval_add by assumption.
    rewrite <- (rnd_fval_double lo), <- (rnd_fval_double hi) by (assumption || lia).
    split; apply rnd_mono; lia. }
  assert (Fs : is_finite (lo + hi) = true).
  { apply fval_finite; [|lia].
    apply add_finite_r; [apply is_finite_not_nan|]; assumption. }
  pose proof (pow2_pos 1075 ltac:(lia)) as Hp.
  pose proof OVF_pos as HO.
  rewrite fval_div by (assumption || reflexivity). rewrite fval_two.
  rewrite rnd_scale by lia.
  pose proof (rnd_error (fval (lo + hi)) 2 ltac:(lia) ltac:(lia) ltac:(lia)) as E2.
  pose proof (fval_add lo hi Flo Fhi) as Es.
  pose proof (rnd_error (fval lo + fval hi) 1 ltac:(lia) ltac:(lia) ltac:(lia)) as E1.
  rewrite <- Es in E1. rewrite Z.mul_1_l in E1.
  set (S := fval (lo + hi)) in *. set (L := fval lo) in *. set (H := fval hi) in *.
  set (Mv := rnd S 2) in *.
  change (2 ^ 53)%Z with (2 * 2 ^ 52)%Z in *. change (2 ^ 55)%Z with (8 * 2 ^ 52)%Z.
  pose proof (pow2_pos 52 ltac:(lia)) as H52.
  set (P52 := (2 ^ 52)%Z) in *.
  lia.
Qed.

Lemma midpoint_halves lo hi ceiling :
  bracket lo hi -> (fval hi <= ceiling)%Z ->
  narrowed ceiling 1 lo hi ((lo + hi) / 2) hi /\
  narrowed ceiling 1 lo hi lo ((lo + hi) / 2).
Proof.
  intros Hb Hc. unfold narrowed. change (2 ^ Z.of_nat 1)%Z with 2%Z.
  pose proof (midpoint_error lo hi Hb) as He.
  destruct (bracket_values lo hi Hb) as (_ & _ & (H0 & Hle) & _).
  set (Mv := fval ((lo + hi) / 2)) in *. set (L := fval lo) in *. set (H := fval hi) in *.
  split; lia.
Qed.

Lemma narrowed_step ceiling k lo hi lo1 hi1 lo' hi' :
  narrowed ceiling 1 lo hi lo1 hi1 -> narrowed ceiling k lo1 hi1 lo' hi' ->
  narrowed ceiling (S k) lo hi lo' hi'.
Proof.
  unfold narrowed. change (2 ^ Z.of_nat 1)%Z with 2%Z.
  rewrite Nat2Z.inj_succ, Z.pow_succ_r by lia.
  pose proof (pow2_pos (Z.of_nat k) ltac:(lia)).
  set (Pk := (2 ^ Z.of_nat k)%Z) in *. intros H1 H2. nia.
Qed.

Lemma bracket_refl_lo lo hi : bracket lo hi -> bracket lo lo.
Proof.
  intros (H0 & Hle & Hlim). destruct (leb_not_nan _ _ Hle) as [Nlo Nhi].
  destruct (ltb_not_nan _ _ Hlim) as [_ Nl].
  split; [exact H0|]. split; [apply leb_refl, Nlo|].
  rewrite leb_fval in Hle by assumption. rewrite ltb_fval in Hlim |- * by assumption.
  apply Z.leb_le in Hle. apply Z.ltb_lt in Hlim. apply Z.ltb_lt. lia.
Qed.

Lemma bracket_refl_hi lo hi : bracket lo hi -> bracket hi hi.
Proof.
  intros (H0 & Hle & Hlim). destruct (leb_not_nan _ _ Hle) as [Nlo Nhi].
  split; [eapply leb_trans; eassumption|]. split; [apply leb_refl, Nhi|exact Hlim].
Qed.

(** what a bisection returns: a midpoint it stopped at, or the midpoint
    of the bracket its [iters] halvings leave *)
Lemma bisect_post verdict ceiling iters : forall lo hi,
  bracket lo hi -> (fval hi <= ceiling)%Z ->
  let y := bisect verdict iters lo hi in
  (verdict y = Stop /\ bracket lo y /\ bracket y hi) \/
  (exists lo' hi',
      y = (lo' + hi') / 2 /\
      bracket lo lo' /\ bracket lo' hi' /\ bracket hi' hi /\
      (lo' = lo \/ verdict lo' = GoUp) /\ (hi' = hi \/ verdict hi' = GoDown) /\
      narrowed ceiling iters lo hi lo' hi').
Proof.
  induction iters as [|k IH]; intros lo hi Hb Hc; cbn [bisect]; cbv zeta.
  - right. exists lo, hi. split; [reflexivity|].
    split; [eapply bracket_refl_lo; eassumption|]. split; [exact Hb|].
    split; [eapply bracket_refl_hi; eassumption|].
    split; [left; reflexivity|]. split; [left; reflexivity|].
    unfold narrowed. change (2 ^ Z.of_nat 0)%Z with 1%Z. lia.
  - destruct (midpoint_bracket lo hi Hb) as [Hl Hr].
    destruct (midpoint_halves lo hi ceiling Hb Hc) as [Nup Ndown].
    set (mid := (lo + hi) / 2) in *.
    destruct (verdict mid) eqn:Hv.
    + left. split; [exact Hv|]. split; assumption.
    + destruct (IH mid hi Hr Hc) as [(Hs & H1 & H2)|(lo' & hi' & Hy & B1 & B2 & B3 & E1 & E2 & Hn)].
      * left. split; [exact Hs|]. split; [eapply bracket_below; eassumption|exact H2].
      * right. exists lo', hi'. split; [exact Hy|].
        split; [eapply bracket_below; eassumption|]. split; [exact B2|]. split; [exact B3|].
        split; [right; destruct E1 as [->|E1]; assumption|]. split; [exact E2|].
        exact (narrowed_step _ _ _ _ _ _ _ _ Nup Hn).
    + assert (Hc' : (fval mid <= ceiling)%Z).
      { destruct (bracket_values _ _ Hr) as (_ & _ & (_ & Hle) & _). lia. }
      destruct (IH lo mid Hl Hc') as [(Hs & H1 & H2)|(lo' & hi' & Hy & B1 & B2 & B3 & E1 & E2 & Hn)].
      * left. split; [exact Hs|]. split; [exact H1|eapply bracket_above; eassumption].
      * right. exists lo', hi'. split; [exact Hy|].
        split; [exact B1|]. split; [exact B2|]. split; [eapply bracket_above; eassumption|].
        split; [exact E1|]. split; [right; destruct E2 as [->|E2]; assumption|].
        exact (narrowed_step _ _ _ _ _ _ _ _ Ndown Hn).
Qed.

Lemma tolerance_relative : (10000 * fval TOLERANCE <= fval 0.01)%Z.
Proof. apply Z.leb_le. vm_compute. reflexivity. Qed.

(** *** A difference against a tolerance *)

Lemma difference_finite v t tol :
  is_finite v = true -> is_finite t = true -> is_nan tol = false ->
  (abs (v - t) <? tol) = (Z.abs (rnd (fval v - fval t) 1) <? fval tol)%Z.
Proof.
  intros Hv Ht Hn. rewrite ltb_fval.
  - rewrite fval_abs, fval_sub by assumption. reflexivity.
  - rewrite abs_nan. apply sub_not_nan; assumption.
  - exact Hn.
Qed.

Lemma difference_infinite v t tol :
  is_finite tol = true ->
  is_finite v = false \/ is_finite t = false -> (abs (v - t) <? tol) = false.
Proof.
  intros Ftol H. apply is_finite_SF in Ftol.
  assert (Hn : ~ (SF_finite (Prim2SF v) /\ SF_finite (Prim2SF t))).
  { intros [Hv Ht]. apply is_finite_SF in Hv, Ht. destruct H; congruence. }
  rewrite FloatAxioms.ltb_spec, FloatAxioms.abs_spec, FloatAxioms.sub_spec.
  destruct (Prim2SF tol) as [s0|s0| |s0 m0 e0]; cbn [SF_finite] in Ftol; try contradiction;
    destruct (Prim2SF v) as [sv|sv| |sv mv ev], (Prim2SF t) as [st|st| |st mt et];
    cbn [SF_finite] in Hn; try (exfalso; apply Hn; split; exact I);
    cbn [SFsub]; try reflexivity;
    destruct sv; try destruct st; try reflexivity; destruct s0; reflexivity.
Qed.

(** a difference that passes the test against [tol] is below [tol],
    exactly *)
Lemma difference_exact v t tol :
  is_finite tol = true -> (abs (v - t) <? tol) = true ->
  is_finite v = true /\ is_finite t = true /\
  (Z.abs (fval v - fval t) < fval tol)%Z.
Proof.
  intros Ftol H.
  destruct (is_finite v) eqn:Fv;
    [|rewrite difference_infinite in H by (assumption || left; assumption); discriminate].
  destruct (is_finite t) eqn:Ft;
    [|rewrite difference_infinite in H by (assumption || right; assumption); discriminate].
  split; [reflexivity|]. split; [reflexivity|].
  rewrite difference_finite in H by (try apply is_finite_not_nan; assumption).
  apply Z.ltb_lt in H.
  pose proof (rnd_fval tol Ftol) as HT.
  set (T := fval tol) in *. set (d := (fval v - fval t)%Z) in *.
  destruct (Z.lt_ge_cases (Z.abs d) T) as [|Hge]; [assumption|exfalso].
  destruct (Z.abs_spec d) as [[Hd Ha]|[Hd Ha]]; rewrite Ha in Hge.
  - pose proof (rnd_mono T d 1 ltac:(lia) Hge). lia.
  - pose proof (rnd_mono d (- T) 1 ltac:(lia) ltac:(lia)) as Hm.
    rewrite rnd_opp in Hm by lia. lia.
Qed.

(** after [k >= 50] halvings a bracket is no wider than
    [2^-48 ceiling + 2^-1072] *)
Lemma narrowed_bound ceiling k lo hi lo' hi' :
  (50 <= k)%nat -> (0 <= fval lo <= fval hi)%Z -> (fval hi <= ceiling)%Z ->
  narrowed ceiling k lo hi lo' hi' ->
  (2 ^ 48 * (fval hi' - fval lo') <= ceiling + 2 ^ 51)%Z.
Proof.
  intros Hk Hlo Hhi. unfold narrowed.
  assert (Hp : (2 ^ 50 <= 2 ^ Z.of_nat k)%Z) by (apply Z.pow_le_mono_r; lia).
  set (Pk := (2 ^ Z.of_nat k)%Z) in *. set (W := (fval hi' - fval lo')%Z).
  change (2 ^ 52)%Z with (16 * 2 ^ 48)%Z. change (2 ^ 55)%Z with (16 * 2 ^ 51)%Z.
  change (2 ^ 50)%Z with (4 * 2 ^ 48)%Z in Hp.
  pose proof (pow2_pos 48 ltac:(lia)) as H48. pose proof (pow2_pos 51 ltac:(lia)) as H51.
  set (P48 := (2 ^ 48)%Z) in *. set (P51 := (2 ^ 51)%Z) in *.
  intros Hn.
  destruct (Z.le_gt_cases (P48 * W) (ceiling + P51)) as [|Hgt]; [assumption|exfalso].
  assert (H1 : (1 <= 16 * P48 * W - (8 * ceiling + 16 * P51))%Z) by lia.
  assert (H2 : (Pk * 1 <= Pk * (16 * P48 * W - (8 * ceiling + 16 * P51)))%Z)
    by (apply Z.mul_le_mono_nonneg_l; lia).
  assert (H3 : (16 * P48 * (fval hi - fval lo) <= 16 * P48 * ceiling)%Z)
    by (apply Z.mul_le_mono_nonneg_l; lia).
  assert (H4 : (4 * P48 * (16 * P48 * W - (8 * ceiling + 16 * P51))
                <= Pk * (16 * P48 * W - (8 * ceiling + 16 * P51)))%Z)
    by (apply Z.mul_le_mono_nonneg_r; lia).
  nia.
Qed.

(** * Properties *)

(** ** Lists and loops *)

Lemma nth_assign_other {X} (l : list X) i j v d :
  i <> j -> nth j (assign l i v) d = nth j l d.
Proof.
  revert i j. induction l as [|x l IH]; intros [|i] [|j] H; simpl;
    try reflexivity; try congruence.
  apply IH. congruence.
Qed.

Lemma nth_assign_same {X} (l : list X) i v d :
  (i < List.length l)%nat -> nth i (assign l i v) d = v.
Proof.
  revert i. induction l as [|x l IH]; intros [|i] H; simpl in *; try lia; try reflexivity.
  apply IH. lia.
Qed.

Lemma length_assign {X} (l : list X) i v : List.length (assign l i v) = List.length l.
Proof.
  revert i. induction l as [|x l IH]; intros [|i]; simpl; try reflexivity. now rewrite IH.
Qed.

(** A property kept by every step of a [forEach]/[for] loop holds at its end. *)
Lemma fold_left_invariant {X Y} (Inv : X -> Prop) (Good : Y -> Prop)
    (f : X -> Y -> X) (l : list Y) :
  (forall x y, Inv x -> Good y -> Inv (f x y)) ->
  Forall Good l -> forall x, Inv x -> Inv (fold_left f l x).
Proof.
  intros Hf Hl. induction Hl as [|y l Hy Hl IH]; intros x Hx; simpl; [exact Hx|].
  apply IH. apply Hf; assumption.
Qed.

Lemma mapi_from_index {X} (l : list X) k :
  Forall (fun si => (k <= snd si < k + List.length l)%nat)
         (mapi_from (fun s i => (s, i)) k l).
Proof.
  revert k. induction l as [|x l IH]; intros k; cbn [mapi_from List.length]; constructor.
  - simpl. lia.
  - eapply Forall_impl; [|apply (IH (S k))]. simpl. intros; lia.
Qed.

Lemma computeSections_cons s rest :
  computeSections (s :: rest) =
  Sec_withSlope s (match Sec.inputMode s with
                   | Elevation => (Sec.usElevation s - Sec.dsElevation s) / Sec.length s
                   | Slope => Sec.slope s
                   end) :: computeSections rest.
Proof. reflexivity. Qed.

Ltac destruct_match :=
  match goal with |- context [match ?t with _ => _ end] => destruct t eqn:? end.

(** ** Geometry *)

(** C7: for every channel shape, every parameter record and every depth
    [y <= 0], [getGeometry] returns the zero geometry: area 0, wetted
    perimeter 0, top width 0, centroid depth 0. *)
Theorem getGeometry_nonpositive_depth {M : MathLib} (type : ChannelType) (p : InputParams)
    (y : number) :
  (y <=? 0) = true ->
  getGeometry type y p = {| A := 0; P := 0; T := 0; centroidDepth := 0 |}.
Proof.
  intros Hy. unfold getGeometry. rewrite Hy. reflexivity.
Qed.

Lemma getGeometry_nonpositive_depth_witness :
  (-1 <=? 0) = true /\
  getGeometry (M := refMath) Circular (-1) defaultRectangle =
  {| A := 0; P := 0; T := 0; centroidDepth := 0 |}.
Proof.
  split; [reflexivity|].
  apply (getGeometry_nonpositive_depth (M := refMath)). reflexivity.
Defined.

(** ** Validation and the error path of [calculateFlow] *)

Section FlowFacts.
Context {M : MathLib}.

Lemma validate_cases type p :
  (validate type p = Throw MSG_POSITIVE /\
   ((slope p <=? 0) || (manningN p <=? 0) || (flowRate p <=? 0)) = true) \/
  (validate type p = Throw MSG_DIAMETER /\
   ((slope p <=? 0) || (manningN p <=? 0) || (flowRate p <=? 0)) = false /\
   type = Circular /\ (diameter p <=? 0) = true) \/
  (validate type p = Throw MSG_WIDTH /\
   ((slope p <=? 0) || (manningN p <=? 0) || (flowRate p <=? 0)) = false /\
   type = Rectangular /\ (width p <=? 0) = true) \/
  (validate type p = Return tt /\
   ((slope p <=? 0) || (manningN p <=? 0) || (flowRate p <=? 0)) = false /\
   (type = Circular -> (diameter p <=? 0) = false) /\
   (type = Rectangular -> (width p <=? 0) = false)).
Proof.
  unfold validate, throwIf, Exc_bind.
  destruct ((slope p <=? 0) || (manningN p <=? 0) || (flowRate p <=? 0)) eqn:Hpos.
  - left. split; reflexivity.
  - right. destruct type; cbn [ChannelType_eqb andb].
    + destruct (width p <=? 0) eqn:Hw.
      * right. left. repeat split.
      * right. right. repeat split; intros; congruence.
    + right. right. repeat split; intros; congruence.
    + right. right. repeat split; intros; congruence.
    + destruct (diameter p <=? 0) eqn:Hd.
      * left. repeat split.
      * right. right. repeat split; intros; congruence.
Qed.

Lemma calculateFlow_throw type p unit message :
  validate type p = Throw message ->
  calculateFlow type p unit = errorResult message.
Proof.
  intros H. unfold calculateFlow, calculateFlow_try. rewrite H. reflexivity.
Qed.

Lemma calculateFlow_return type p unit :
  validate type p = Return tt ->
  calculateFlow type p unit =
  let yn := solveNormalDepth type p unit in
  let yc := solveCriticalDepth type p unit in
  let G_ := G (UNIT_CONSTANTS unit) in
  let geomN := getGeometry type yn p in
  let V := flowRate p / A geomN in
  let Fr := V / sqrt (G_ * (A geomN / T geomN)) in
  {| normalDepth := yn;
     criticalDepth := yc;
     velocity := V;
     froudeNumber := Fr;
     flowRegime :=
       if Fr <? 0.99 then Subcritical
       else if Fr >? 1.01 then Supercritical else Critical;
     criticalVelocity := flowRate p / A (getGeometry type yc p);
     error := None |}.
Proof.
  intros H. unfold calculateFlow, calculateFlow_try. rewrite H. reflexivity.
Qed.

(** The error field is set exactly when a validation guard threw. *)
Lemma calculateFlow_error_iff type p unit :
  error (calculateFlow type p unit) = None <-> validate type p = Return tt.
Proof.
  destruct (validate_cases type p) as [[H _]|[[H _]|[[H _]|[H _]]]].
  1-3: rewrite (calculateFlow_throw _ _ _ _ H), H; split; discriminate.
  rewrite (calculateFlow_return _ _ _ H), H. split; reflexivity.
Qed.

(** *** The flat triangle *)

Lemma pow_zero_two_thirds : Math_pow 0 (2 / 3) = 0.
Proof. apply Math_pow_zero. reflexivity. Qed.

(** With no area the section factor is [0 * pow 0 (2/3) = 0], below the
    target: the bisection moves its lower end up. *)
Lemma flatTriangle_step target k min max :
  ((min + max) / 2 <=? 0) = false ->
  (2 * ((min + max) / 2) * sqrt (1 + 0 * 0) =? 0) = false ->
  0 * ((min + max) / 2) * ((min + max) / 2) = 0 ->
  0 / (2 * ((min + max) / 2) * sqrt (1 + 0 * 0)) = 0 ->
  (abs (0 * 0 - target) <? TOLERANCE) = false ->
  (0 * 0 <? target) = true ->
  normalLoop Triangular flatTriangle target (S k) min max =
  normalLoop Triangular flatTriangle target k ((min + max) / 2) max.
Proof.
  intros Hy HP HA HR Htol Hlt.
  cbn [normalLoop]. unfold getGeometry. rewrite Hy.
  cbn [P A sideSlope flatTriangle]. rewrite HP. unfold sectionFactor. cbn [P A].
  rewrite HA, HR, pow_zero_two_thirds, Htol, Hlt. reflexivity.
Qed.

(** All 100 iterations go up: the solver returns the bracket ceiling. *)
Lemma flatTriangle_normalDepth : solveNormalDepth Triangular flatTriangle SI = 50.
Proof.
  unfold solveNormalDepth, MAX_ITER.
  change (bracketMax Triangular flatTriangle) with 50.
  set (t := normalTarget flatTriangle SI).
  assert (Htol : (abs (0 * 0 - t) <? TOLERANCE) = false) by reflexivity.
  assert (Hlt : (0 * 0 <? t) = true) by reflexivity.
  do 100 (rewrite flatTriangle_step by (assumption || (vm_compute; reflexivity))).
  vm_compute. reflexivity.
Qed.

Lemma flatTriangle_valid : validate Triangular flatTriangle = Return tt.
Proof. reflexivity. Qed.

Lemma flatTriangle_velocity :
  velocity (calculateFlow Triangular flatTriangle SI) = infinity.
Proof.
  rewrite (calculateFlow_return _ _ _ flatTriangle_valid). cbn [velocity].
  rewrite flatTriangle_normalDepth. reflexivity.
Qed.

Lemma flatTriangle_froude :
  is_nan (froudeNumber (calculateFlow Triangular flatTriangle SI)) = true.
Proof.
  rewrite (calculateFlow_return _ _ _ flatTriangle_valid). cbn [froudeNumber].
  rewrite flatTriangle_normalDepth. reflexivity.
Qed.

Lemma flatTriangle_regime :
  flowRegime (calculateFlow Triangular flatTriangle SI) = Critical.
Proof.
  rewrite (calculateFlow_return _ _ _ flatTriangle_valid). cbn [flowRegime].
  rewrite flatTriangle_normalDepth. reflexivity.
Qed.

(** C6: when discharge, roughness or slope is non-positive, or the shape
    is Circular with a non-positive diameter, or Rectangular with a
    non-positive width, [calculateFlow] returns (it does not throw) a
    result whose error field holds one of the three descriptive messages
    and whose numeric fields [normalDepth], [criticalDepth], [velocity],
    [froudeNumber], [criticalVelocity] are all zero. *)
Theorem calculateFlow_validation_failure (type : ChannelType) (p : InputParams)
    (unit : UnitSystem) :
  (flowRate p <=? 0) = true \/ (manningN p <=? 0) = true \/ (slope p <=? 0) = true \/
  (type = Circular /\ (diameter p <=? 0) = true) \/
  (type = Rectangular /\ (width p <=? 0) = true) ->
  exists message,
    In message [MSG_POSITIVE; MSG_DIAMETER; MSG_WIDTH] /\
    message <> EmptyString /\
    error (calculateFlow type p unit) = Some message /\
    normalDepth (calculateFlow type p unit) = 0 /\
    criticalDepth (calculateFlow type p unit) = 0 /\
    velocity (calculateFlow type p unit) = 0 /\
    froudeNumber (calculateFlow type p unit) = 0 /\
    criticalVelocity (calculateFlow type p unit) = 0.
Proof.
  intros Hbad.
  destruct (validate_cases type p) as [[H _]|[[H _]|[[H _]|[_ (Hpos & Hd & Hw)]]]].
  - exists MSG_POSITIVE. rewrite (calculateFlow_throw _ _ _ _ H).
    repeat split; try reflexivity; [simpl; tauto | discriminate].
  - exists MSG_DIAMETER. rewrite (calculateFlow_throw _ _ _ _ H).
    repeat split; try reflexivity; [simpl; tauto | discriminate].
  - exists MSG_WIDTH. rewrite (calculateFlow_throw _ _ _ _ H).
    repeat split; try reflexivity; [simpl; tauto | discriminate].
  - exfalso.
    apply orb_false_elim in Hpos as [Hpos HQ]. apply orb_false_elim in Hpos as [HS Hn].
    destruct Hbad as [HQ'|[Hn'|[HS'|[[-> Hd']|[-> Hw']]]]]; try congruence.
    + specialize (Hd eq_refl). congruence.
    + specialize (Hw eq_refl). congruence.
Qed.

(** C9: [calculateFlow] validates only discharge, slope and roughness
    for all shapes, the diameter only for Circular and the width only
    for Rectangular (the error field is empty exactly when those guards
    pass); so there is an input, Triangular with [sideSlope = 0] and
    positive discharge, slope and roughness, whose result carries no
    error while [velocity] is infinite and [froudeNumber] is NaN. *)
Theorem calculateFlow_unvalidated_sideSlope :
  (forall type p unit,
     error (calculateFlow type p unit) = None <->
     (slope p <=? 0) = false /\ (manningN p <=? 0) = false /\ (flowRate p <=? 0) = false /\
     (type = Circular -> (diameter p <=? 0) = false) /\
     (type = Rectangular -> (width p <=? 0) = false)) /\
  (exists p,
     sideSlope p = 0 /\
     (0 <? flowRate p) = true /\ (0 <? slope p) = true /\ (0 <? manningN p) = true /\
     error (calculateFlow Triangular p SI) = None /\
     velocity (calculateFlow Triangular p SI) = infinity /\
     is_finite (velocity (calculateFlow Triangular p SI)) = false /\
     is_nan (froudeNumber (calculateFlow Triangular p SI)) = true /\
     is_finite (froudeNumber (calculateFlow Triangular p SI)) = false).
Proof.
  split.
  - intros type p unit. rewrite calculateFlow_error_iff.
    destruct (validate_cases type p) as [[H Hc]|[[H Hc]|[[H Hc]|[H (Hpos & Hd & Hw)]]]];
      rewrite H.
    + split; [discriminate|]. intros (HS & Hn & HQ & _).
      rewrite HS, Hn, HQ in Hc. discriminate.
    + split; [discriminate|]. intros (_ & _ & _ & Hd & _).
      destruct Hc as (_ & Ht & Hd'). specialize (Hd Ht). congruence.
    + split; [discriminate|]. intros (_ & _ & _ & _ & Hw).
      destruct Hc as (_ & Ht & Hw'). specialize (Hw Ht). congruence.
    + split; [|reflexivity]. intros _.
      apply orb_false_elim in Hpos as [Hpos HQ]. apply orb_false_elim in Hpos as [HS Hn].
      repeat split; assumption.
  - exists flatTriangle.
    pose proof flatTriangle_velocity as HV. pose proof flatTriangle_froude as HF.
    do 4 (split; [reflexivity|]).
    split; [apply calculateFlow_error_iff; reflexivity|].
    split; [exact HV|].
    split; [rewrite HV; reflexivity|].
    split; [exact HF|].
    unfold is_finite. rewrite HF. reflexivity.
Qed.

(** C10: whenever [calculateFlow] returns a result with the error field
    set, its [flowRegime] is the literal ['Critical']; the regime type
    has no value reserved for failure, and ['Critical'] is also what a
    successful computation returns, both for a flow whose Froude number
    is within the critical band (here under the reference host library)
    and, under any host library, for the flat triangle.  A caller who
    reads [flowRegime] alone cannot tell the cases apart. *)
Theorem calculateFlow_error_regime (type : ChannelType) (p : InputParams)
    (unit : UnitSystem) :
  error (calculateFlow type p unit) <> None ->
  flowRegime (calculateFlow type p unit) = Critical /\
  (exists p',
     error (calculateFlow Triangular p' SI) = None /\
     flowRegime (calculateFlow Triangular p' SI) = Critical) /\
  (exists p',
     let r := calculateFlow (M := refMath) Rectangular p' SI in
     error r = None /\ flowRegime r = Critical /\
     (0.99 <=? froudeNumber r) = true /\ (froudeNumber r <=? 1.01) = true).
Proof.
  intros Herr. split; [|split].
  - destruct (validate_cases type p) as [[H _]|[[H _]|[[H _]|[H _]]]].
    1-3: rewrite (calculateFlow_throw _ _ _ _ H); reflexivity.
    exfalso. apply Herr. apply calculateFlow_error_iff. exact H.
  - exists flatTriangle. split.
    + apply calculateFlow_error_iff. reflexivity.
    + apply flatTriangle_regime.
  - exists criticalRectangle. vm_compute. repeat split.
Qed.

(** The velocity reported by [calculateFlow] is the velocity of
    [calculateSectionProperties] at the normal depth, whenever the
    section has positive area there. *)
Theorem velocity_consistent (type : ChannelType) (p : InputParams) (unit : UnitSystem) :
  error (calculateFlow type p unit) = None ->
  (0 <? A (getGeometry type (normalDepth (calculateFlow type p unit)) p)) = true ->
  sp_velocity (calculateSectionProperties type (normalDepth (calculateFlow type p unit)) p unit)
  = velocity (calculateFlow type p unit).
Proof.
  intros Herr. apply calculateFlow_error_iff in Herr.
  rewrite (calculateFlow_return _ _ _ Herr). cbn [normalDepth velocity].
  intros HA. unfold calculateSectionProperties. cbn [sp_velocity]. rewrite HA. reflexivity.
Qed.

End FlowFacts.

Lemma calculateFlow_validation_failure_witness :
  exists message,
    In message [MSG_POSITIVE; MSG_DIAMETER; MSG_WIDTH] /\
    message <> EmptyString /\
    error (calculateFlow (M := refMath) Circular defaultRectangle SI) = Some message /\
    normalDepth (calculateFlow (M := refMath) Circular defaultRectangle SI) = 0 /\
    criticalDepth (calculateFlow (M := refMath) Circular defaultRectangle SI) = 0 /\
    velocity (calculateFlow (M := refMath) Circular defaultRectangle SI) = 0 /\
    froudeNumber (calculateFlow (M := refMath) Circular defaultRectangle SI) = 0 /\
    criticalVelocity (calculateFlow (M := refMath) Circular defaultRectangle SI) = 0.
Proof.
  apply (calculateFlow_validation_failure (M := refMath) Circular defaultRectangle SI).
  right. right. right. left. split; reflexivity.
Defined.

Lemma calculateFlow_error_regime_witness :
  error (calculateFlow (M := refMath) Rectangular flatTriangle SI) = Some MSG_WIDTH /\
  flowRegime (calculateFlow (M := refMath) Rectangular flatTriangle SI) = Critical.
Proof.
  split; [reflexivity|].
  apply (calculateFlow_error_regime (M := refMath) Rectangular flatTriangle SI).
  vm_compute. discriminate.
Defined.

Lemma velocity_consistent_witness :
  sp_velocity (calculateSectionProperties (M := refMath) Rectangular
                 (normalDepth (calculateFlow (M := refMath) Rectangular defaultRectangle SI))
                 defaultRectangle SI)
  = velocity (calculateFlow (M := refMath) Rectangular defaultRectangle SI).
Proof.
  apply (velocity_consistent (M := refMath) Rectangular defaultRectangle SI);
    vm_compute; reflexivity.
Defined.

(** ** The normal-depth bisection *)

Section BisectionFacts.
Context {M : MathLib}.

Lemma getGeometry_withManningN type y p n :
  getGeometry type y (withManningN p n) = getGeometry type y p.
Proof. reflexivity. Qed.

(** The loop reads the parameters only through the geometry. *)
Lemma normalLoop_withManningN type p n target iters :
  forall min max,
    normalLoop type (withManningN p n) target iters min max =
    normalLoop type p target iters min max.
Proof.
  induction iters as [|k IH]; intros min max; cbn [normalLoop]; [reflexivity|].
  rewrite getGeometry_withManningN, !IH. reflexivity.
Qed.

Lemma normalLoop_bisect type p target iters : forall lo hi,
  normalLoop type p target iters lo hi = bisect (normalVerdict type p target) iters lo hi.
Proof.
  induction iters as [|k IH]; intros lo hi; cbn [normalLoop bisect]; [reflexivity|].
  cbv zeta. unfold normalVerdict at 1. cbv zeta.
  destruct (P (getGeometry type ((lo + hi) / 2) p) =? 0); [apply IH|].
  destruct (abs (sectionFactor (getGeometry type ((lo + hi) / 2) p) - target) <? TOLERANCE);
    [reflexivity|].
  destruct (sectionFactor (getGeometry type ((lo + hi) / 2) p) <? target); apply IH.
Qed.

Lemma normalVerdict_cases type p target d :
  match normalVerdict type p target d with
  | Stop =>
      (P (getGeometry type d p) =? 0) = false /\
      (abs (sectionFactor (getGeometry type d p) - target) <? TOLERANCE) = true
  | GoUp =>
      (P (getGeometry type d p) =? 0) = true \/
      (sectionFactor (getGeometry type d p) <? target) = true
  | GoDown =>
      (P (getGeometry type d p) =? 0) = false /\
      (sectionFactor (getGeometry type d p) <? target) = false
  end.
Proof.
  unfold normalVerdict. cbv zeta.
  destruct (P (getGeometry type d p) =? 0); [left; reflexivity|].
  destruct (abs (sectionFactor (getGeometry type d p) - target) <? TOLERANCE);
    [split; reflexivity|].
  destruct (sectionFactor (getGeometry type d p) <? target);
    [right; reflexivity|split; reflexivity].
Qed.

(** C2 (amended): what [solveNormalDepth] returns, for a bracket
    ceiling in [[0, 2^1023)].  Either the bisection left through its
    tolerance test: then the section factor [A·R^(2/3)] at the returned
    depth is within 1e-6 of the target [n·Q/(k·√S)], exactly, which is
    within 1e-4 of the target, relatively, whenever the target is at
    least 0.01.  Or it ran its 100 iterations: then the returned depth
    is the midpoint of a bracket [[lo, hi]] inside [[0, max]], no wider
    than [2^-48 max + 2^-1072], whose lower end is 0 or a depth where
    the section factor is below the target (or the wetted perimeter is
    zero), and whose upper end is [max] or a depth where the section
    factor is not below the target.  ([fval] is the exact value of a
    float in units of [2^-1075].) *)
Theorem solveNormalDepth_postcondition (type : ChannelType) (p : InputParams)
    (unit : UnitSystem) :
  (0 <=? bracketMax type p) = true -> (bracketMax type p <? BRACKET_LIMIT) = true ->
  let target := normalTarget p unit in
  let factor := fun d => sectionFactor (getGeometry type d p) in
  let y := solveNormalDepth type p unit in
  ((P (getGeometry type y p) =? 0) = false /\
   (abs (factor y - target) <? TOLERANCE) = true /\
   (Z.abs (fval (factor y) - fval target) < fval 1e-6)%Z /\
   ((0.01 <=? target) = true ->
    (10000 * Z.abs (fval (factor y) - fval target) < fval target)%Z)) \/
  (exists lo hi,
      y = (lo + hi) / 2 /\
      (0 <=? lo) = true /\ (lo <=? y) = true /\ (y <=? hi) = true /\
      (hi <=? bracketMax type p) = true /\
      (lo = 0 \/ (P (getGeometry type lo p) =? 0) = true \/ (factor lo <? target) = true) /\
      (hi = bracketMax type p \/
       ((P (getGeometry type hi p) =? 0) = false /\ (factor hi <? target) = false)) /\
      (2 ^ 48 * (fval hi - fval lo) <= fval (bracketMax type p) + 2 ^ 51)%Z).
Proof.
  intros HB0 HB1. cbv zeta. unfold solveNormalDepth. rewrite normalLoop_bisect.
  assert (Hb : bracket 0 (bracketMax type p)) by (split; [reflexivity|split; assumption]).
  destruct (bracket_values _ _ Hb) as (_ & _ & (_ & Hmx) & _). rewrite fval_zero in Hmx.
  destruct (bisect_post (normalVerdict type p (normalTarget p unit))
              (fval (bracketMax type p)) MAX_ITER 0 (bracketMax type p) Hb (Z.le_refl _))
    as [(Hs & _ & _)|(lo & hi & Hy & B1 & B2 & B3 & E1 & E2 & Hn)].
  - left. set (y := bisect _ _ _ _) in *.
    pose proof (normalVerdict_cases type p (normalTarget p unit) y) as Hcase.
    rewrite Hs in Hcase. destruct Hcase as [HP Htol].
    split; [exact HP|]. split; [exact Htol|].
    destruct (difference_exact _ _ TOLERANCE eq_refl Htol) as (Fv & Ft & Hd).
    split; [exact Hd|]. intros Ht.
    rewrite leb_fval in Ht by (reflexivity || apply is_finite_not_nan; assumption).
    apply Z.leb_le in Ht. pose proof tolerance_relative. unfold TOLERANCE in *. lia.
  - right. exists lo, hi. split; [exact Hy|].
    destruct (midpoint_bracket lo hi B2) as [(_ & M1 & _) (_ & M2 & _)].
    rewrite <- Hy in M1, M2.
    split; [apply B2|]. split; [exact M1|]. split; [exact M2|]. split; [apply B3|].
    split; [|split].
    + destruct E1 as [->|E1]; [left; reflexivity|right].
      pose proof (normalVerdict_cases type p (normalTarget p unit) lo) as Hcase.
      rewrite E1 in Hcase. exact Hcase.
    + destruct E2 as [->|E2]; [left; reflexivity|right].
      pose proof (normalVerdict_cases type p (normalTarget p unit) hi) as Hcase.
      rewrite E2 in Hcase. exact Hcase.
    + apply (narrowed_bound (fval (bracketMax type p)) MAX_ITER 0 (bracketMax type p) lo hi);
        [unfold MAX_ITER; lia|rewrite fval_zero; lia|lia|exact Hn].
Qed.

(** *** The order of the depths

    The bisection keeps its result inside the bracket it is given; a
    larger target can only turn a "go down" into a "stop" or a "go up",
    and a "stop" into a "go up". *)

(** the loop returns a depth of its bracket *)
Lemma normalLoop_in_bracket type p target iters : forall lo hi,
  bracket lo hi ->
  bracket lo (normalLoop type p target iters lo hi) /\
  bracket (normalLoop type p target iters lo hi) hi.
Proof.
  induction iters as [|k IH]; intros lo hi Hb; cbn [normalLoop]; cbv zeta.
  - apply midpoint_bracket, Hb.
  - destruct (midpoint_bracket lo hi Hb) as [Hl Hr].
    assert (Up : bracket lo (normalLoop type p target k ((lo + hi) / 2) hi) /\
                 bracket (normalLoop type p target k ((lo + hi) / 2) hi) hi).
    { destruct (IH _ _ Hr) as [H1 H2]. split; [eapply bracket_below; eassumption|assumption]. }
    assert (Down : bracket lo (normalLoop type p target k lo ((lo + hi) / 2)) /\
                   bracket (normalLoop type p target k lo ((lo + hi) / 2)) hi).
    { destruct (IH _ _ Hl) as [H1 H2]. split; [assumption|eapply bracket_above; eassumption]. }
    destruct (P (getGeometry type ((lo + hi) / 2) p) =? 0); [exact Up|].
    destruct (abs (sectionFactor (getGeometry type ((lo + hi) / 2) p) - target) <? TOLERANCE);
      [split; assumption|].
    destruct (sectionFactor (getGeometry type ((lo + hi) / 2) p) <? target); assumption.
Qed.

(** a larger target gives a depth at least as large *)
Lemma normalLoop_monotone type p t1 t2 iters : forall lo hi,
  (t1 <=? t2) = true -> bracket lo hi ->
  (normalLoop type p t1 iters lo hi <=? normalLoop type p t2 iters lo hi) = true.
Proof.
  induction iters as [|k IH]; intros lo hi Ht Hb; cbn [normalLoop]; cbv zeta.
  - apply leb_refl. destruct (midpoint_bracket lo hi Hb) as [Hl _].
    apply (bracket_not_nan _ _ Hl).
  - destruct (midpoint_bracket lo hi Hb) as [Hl Hr].
    set (mid := (lo + hi) / 2) in *.
    assert (Nm : is_nan mid = false) by apply (bracket_not_nan _ _ Hl).
    assert (Below : forall t, (normalLoop type p t k lo mid <=? mid) = true).
    { intros t. destruct (normalLoop_in_bracket type p t k lo mid Hl) as [_ (_ & H & _)]. exact H. }
    assert (Above : forall t, (mid <=? normalLoop type p t k mid hi) = true).
    { intros t. destruct (normalLoop_in_bracket type p t k mid hi Hr) as [(_ & H & _) _]. exact H. }
    destruct (P (getGeometry type mid p) =? 0); [apply IH; assumption|].
    set (v := sectionFactor (getGeometry type mid p)).
    destruct (abs (v - t1) <? TOLERANCE) eqn:Tol1.
    + destruct (abs (v - t2) <? TOLERANCE) eqn:Tol2; [apply leb_refl, Nm|].
      rewrite (tests_within v t1 t2 Ht Tol1 Tol2). apply Above.
    + destruct (v <? t1) eqn:Lt1.
      * destruct (tests_above v t1 t2 Ht Tol1 Lt1) as [-> ->]. apply IH; assumption.
      * destruct (abs (v - t2) <? TOLERANCE); [apply Below|].
        destruct (v <? t2); [|apply IH; assumption].
        eapply leb_trans; [apply Below|apply Above].
Qed.

(** the target [n·Q/(k·√S)] grows with the roughness *)
Lemma normalTarget_monotone p unit n1 n2 :
  (0 <=? flowRate p) = true -> is_finite (flowRate p) = true ->
  (0 <? slope p) = true -> is_finite (slope p) = true ->
  (n1 <=? n2) = true -> is_finite n1 = true -> is_finite n2 = true ->
  (normalTarget (withManningN p n1) unit <=? normalTarget (withManningN p n2) unit) = true.
Proof.
  intros HQ FQ HS FS Hn F1 F2. unfold normalTarget. cbn [flowRate manningN slope withManningN].
  destruct (denominator_positive unit (slope p) HS FS) as [Hd Fd].
  apply div_mono_l; [assumption|assumption|].
  apply mul_mono_r; assumption.
Qed.

(** C8 (amended): the normal depth never decreases as the roughness
    grows.  For a non-negative finite discharge, a positive finite
    slope and a bracket ceiling below [2^1023] (it is 50 unless the
    section is circular), two finite roughness values [n1 <= n2] give
    depths [solveNormalDepth n1 <= solveNormalDepth n2], in the
    binary64 arithmetic the solver runs in.  (The order is not strict:
    both depths may be the same midpoint, or the bracket ceiling.) *)
Theorem solveNormalDepth_monotone type p unit n1 n2 :
  (0 <=? flowRate p) = true -> is_finite (flowRate p) = true ->
  (0 <? slope p) = true -> is_finite (slope p) = true ->
  (n1 <=? n2) = true -> is_finite n1 = true -> is_finite n2 = true ->
  (0 <=? bracketMax type p) = true -> (bracketMax type p <? BRACKET_LIMIT) = true ->
  (solveNormalDepth type (withManningN p n1) unit <=?
   solveNormalDepth type (withManningN p n2) unit) = true.
Proof.
  intros HQ FQ HS FS Hn F1 F2 HB0 HB1. unfold solveNormalDepth.
  change (bracketMax type (withManningN p n1)) with (bracketMax type p).
  change (bracketMax type (withManningN p n2)) with (bracketMax type p).
  rewrite !normalLoop_withManningN.
  apply normalLoop_monotone.
  - apply normalTarget_monotone; assumption.
  - split; [reflexivity|split; assumption].
Qed.

(** The depth [solveNormalDepth] returns lies in its bracket
    [[0, max]], for a ceiling [max] in [[0, 2^1023)]: 50, or the
    diameter of a circular section. *)
Theorem solveNormalDepth_in_bracket type p unit :
  (0 <=? bracketMax type p) = true -> (bracketMax type p <? BRACKET_LIMIT) = true ->
  (0 <=? solveNormalDepth type p unit) = true /\
  (solveNormalDepth type p unit <=? bracketMax type p) = true.
Proof.
  intros HB0 HB1. unfold solveNormalDepth.
  assert (Hb : bracket 0 (bracketMax type p)) by (split; [reflexivity|split; assumption]).
  destruct (normalLoop_in_bracket type p (normalTarget p unit) MAX_ITER _ _ Hb)
    as [(_ & H1 & _) (_ & H2 & _)].
  split; assumption.
Qed.

Lemma criticalLoop_in_bracket type p G_ Q2 iters : forall lo hi,
  bracket lo hi ->
  bracket lo (criticalLoop type p G_ Q2 iters lo hi) /\
  bracket (criticalLoop type p G_ Q2 iters lo hi) hi.
Proof.
  induction iters as [|k IH]; intros lo hi Hb; cbn [criticalLoop]; cbv zeta.
  - apply midpoint_bracket, Hb.
  - destruct (midpoint_bracket lo hi Hb) as [Hl Hr].
    destruct (abs _ <? TOLERANCE); [split; assumption|].
    destruct (_ <? 0).
    + destruct (IH _ _ Hr) as [H1 H2]. split; [eapply bracket_below; eassumption|assumption].
    + destruct (IH _ _ Hl) as [H1 H2]. split; [assumption|eapply bracket_above; eassumption].
Qed.

(** The depth [solveCriticalDepth] returns lies in the same bracket. *)
Theorem solveCriticalDepth_in_bracket type p unit :
  (0 <=? bracketMax type p) = true -> (bracketMax type p <? BRACKET_LIMIT) = true ->
  (0 <=? solveCriticalDepth type p unit) = true /\
  (solveCriticalDepth type p unit <=? bracketMax type p) = true.
Proof.
  intros HB0 HB1. unfold solveCriticalDepth.
  assert (Hb : bracket 0 (bracketMax type p)) by (split; [reflexivity|split; assumption]).
  destruct (criticalLoop_in_bracket type p (G (UNIT_CONSTANTS unit))
              (Math_pow (flowRate p) 2) MAX_ITER _ _ Hb)
    as [(_ & H1 & _) (_ & H2 & _)].
  split; assumption.
Qed.

End BisectionFacts.

(** ** The critical-depth bisection *)

Section CriticalFacts.
Context {M : MathLib}.

Lemma criticalLoop_bisect type p G_ Q2 iters : forall lo hi,
  criticalLoop type p G_ Q2 iters lo hi = bisect (criticalVerdict type p G_ Q2) iters lo hi.
Proof.
  induction iters as [|k IH]; intros lo hi; cbn [criticalLoop bisect]; [reflexivity|].
  cbv zeta. unfold criticalVerdict at 1. cbv zeta.
  destruct (abs _ <? TOLERANCE); [reflexivity|].
  destruct (_ <? 0); apply IH.
Qed.

Lemma criticalVerdict_cases type p G_ Q2 d :
  let val := G_ * Math_pow (A (getGeometry type d p)) 3 - Q2 * T (getGeometry type d p) in
  match criticalVerdict type p G_ Q2 d with
  | Stop => (abs val <? TOLERANCE) = true
  | GoUp => (val <? 0) = true
  | GoDown => (val <? 0) = false
  end.
Proof.
  cbv zeta. unfold criticalVerdict. cbv zeta.
  destruct (abs _ <? TOLERANCE); [reflexivity|].
  destruct (_ <? 0) eqn:H; reflexivity.
Qed.

(** What [solveCriticalDepth] returns, for a bracket ceiling in
    [[0, 2^1023)], with [r(y) = g·A³ - Q²·T] the residual of the
    critical-flow condition.  Either the bisection left through its
    tolerance test, and [|r| < 1e-6] at the returned depth; or it ran
    its 100 iterations, and the returned depth is the midpoint of a
    bracket [[lo, hi]] inside [[0, max]], no wider than
    [2^-48 max + 2^-1072], with [r(lo) < 0] unless [lo] is still 0 and
    [r(hi) < 0] false unless [hi] is still [max]. *)
Theorem solveCriticalDepth_postcondition (type : ChannelType) (p : InputParams)
    (unit : UnitSystem) :
  (0 <=? bracketMax type p) = true -> (bracketMax type p <? BRACKET_LIMIT) = true ->
  let residual := fun d =>
    G (UNIT_CONSTANTS unit) * Math_pow (A (getGeometry type d p)) 3
    - Math_pow (flowRate p) 2 * T (getGeometry type d p) in
  let y := solveCriticalDepth type p unit in
  ((abs (residual y) <? TOLERANCE) = true /\
   (Z.abs (fval (residual y)) < fval 1e-6)%Z) \/
  (exists lo hi,
      y = (lo + hi) / 2 /\
      (0 <=? lo) = true /\ (lo <=? y) = true /\ (y <=? hi) = true /\
      (hi <=? bracketMax type p) = true /\
      (lo = 0 \/ (residual lo <? 0) = true) /\
      (hi = bracketMax type p \/ (residual hi <? 0) = false) /\
      (2 ^ 48 * (fval hi - fval lo) <= fval (bracketMax type p) + 2 ^ 51)%Z).
Proof.
  intros HB0 HB1. cbv zeta. unfold solveCriticalDepth. rewrite criticalLoop_bisect.
  assert (Hb : bracket 0 (bracketMax type p)) by (split; [reflexivity|split; assumption]).
  destruct (bracket_values _ _ Hb) as (_ & _ & (_ & Hmx) & _). rewrite fval_zero in Hmx.
  set (v := criticalVerdict type p (G (UNIT_CONSTANTS unit)) (Math_pow (flowRate p) 2)).
  destruct (bisect_post v (fval (bracketMax type p)) MAX_ITER 0 (bracketMax type p) Hb
              (Z.le_refl _))
    as [(Hs & _ & _)|(lo & hi & Hy & B1 & B2 & B3 & E1 & E2 & Hn)].
  - left. set (y := bisect _ _ _ _) in *.
    pose proof (criticalVerdict_cases type p (G (UNIT_CONSTANTS unit))
                  (Math_pow (flowRate p) 2) y) as Hcase.
    cbv zeta in Hcase. fold v in Hcase. rewrite Hs in Hcase.
    split; [exact Hcase|].
    destruct (ltb_not_nan _ _ Hcase) as [Na _].
    rewrite ltb_fval in Hcase by (assumption || reflexivity).
    rewrite fval_abs in Hcase. apply Z.ltb_lt in Hcase. exact Hcase.
  - right. exists lo, hi. split; [exact Hy|].
    destruct (midpoint_bracket lo hi B2) as [(_ & M1 & _) (_ & M2 & _)].
    rewrite <- Hy in M1, M2.
    split; [apply B2|]. split; [exact M1|]. split; [exact M2|]. split; [apply B3|].
    split; [|split].
    + destruct E1 as [->|E1]; [left; reflexivity|right].
      pose proof (criticalVerdict_cases type p (G (UNIT_CONSTANTS unit))
                    (Math_pow (flowRate p) 2) lo) as Hcase.
      cbv zeta in Hcase. fold v in Hcase. rewrite E1 in Hcase. exact Hcase.
    + destruct E2 as [->|E2]; [left; reflexivity|right].
      pose proof (criticalVerdict_cases type p (G (UNIT_CONSTANTS unit))
                    (Math_pow (flowRate p) 2) hi) as Hcase.
      cbv zeta in Hcase. fold v in Hcase. rewrite E2 in Hcase. exact Hcase.
    + apply (narrowed_bound (fval (bracketMax type p)) MAX_ITER 0 (bracketMax type p) lo hi);
        [unfold MAX_ITER; lia|rewrite fval_zero; lia|lia|exact Hn].
Qed.

End CriticalFacts.

(** C2 (counterexample): two valid inputs (every parameter positive).
    For [floodRectangle] the root is above the bracket: the solver
    returns 50, and Manning's equation gives about 1084 there against a
    discharge of 1500.  For [trickleRectangle] the bisection does stop
    on its tolerance test, and the discharge at the returned depth is
    still off by more than 6e-4 of the target. *)
Lemma solveNormalDepth_misses_discharge :
  (let p := floodRectangle in
   let y := solveNormalDepth (M := refMath) Rectangular p SI in
   (0 <? flowRate p) = true /\ (0 <? slope p) = true /\ (0 <? manningN p) = true /\
   (0 <? width p) = true /\
   y = 50 /\
   (manningDischarge (M := refMath) Rectangular p SI y <? 1085) = true /\
   (1e-4 <? abs (manningDischarge (M := refMath) Rectangular p SI y - flowRate p)
            / flowRate p) = true) /\
  (let p := trickleRectangle in
   let y := solveNormalDepth (M := refMath) Rectangular p SI in
   (0 <? flowRate p) = true /\ (0 <? slope p) = true /\ (0 <? manningN p) = true /\
   (0 <? width p) = true /\
   normalLoopStops (M := refMath) Rectangular p (normalTarget p SI) MAX_ITER 0
                   (bracketMax Rectangular p) = true /\
   (6e-4 <? abs (manningDischarge (M := refMath) Rectangular p SI y - flowRate p)
            / flowRate p) = true).
Proof. vm_compute. repeat split. Qed.

Lemma solveNormalDepth_postcondition_witness :
  let type := Rectangular in
  let p := defaultRectangle in
  let target := normalTarget p SI in
  let factor := fun d => sectionFactor (M := refMath) (getGeometry (M := refMath) type d p) in
  let y := solveNormalDepth (M := refMath) type p SI in
  ((P (getGeometry (M := refMath) type y p) =? 0) = false /\
   (abs (factor y - target) <? TOLERANCE) = true /\
   (Z.abs (fval (factor y) - fval target) < fval 1e-6)%Z /\
   ((0.01 <=? target) = true ->
    (10000 * Z.abs (fval (factor y) - fval target) < fval target)%Z)) \/
  (exists lo hi,
      y = (lo + hi) / 2 /\
      (0 <=? lo) = true /\ (lo <=? y) = true /\ (y <=? hi) = true /\
      (hi <=? bracketMax type p) = true /\
      (lo = 0 \/ (P (getGeometry (M := refMath) type lo p) =? 0) = true \/
       (factor lo <? target) = true) /\
      (hi = bracketMax type p \/
       ((P (getGeometry (M := refMath) type hi p) =? 0) = false /\
        (factor hi <? target) = false)) /\
      (2 ^ 48 * (fval hi - fval lo) <= fval (bracketMax type p) + 2 ^ 51)%Z).
Proof.
  apply (solveNormalDepth_postcondition (M := refMath) Rectangular defaultRectangle SI);
    reflexivity.
Defined.

Lemma solveCriticalDepth_postcondition_witness :
  let type := Rectangular in
  let p := defaultRectangle in
  let residual := fun d =>
    G (UNIT_CONSTANTS SI) * Math_pow (MathLib := refMath) (A (getGeometry (M := refMath) type d p)) 3
    - Math_pow (MathLib := refMath) (flowRate p) 2 * T (getGeometry (M := refMath) type d p) in
  let y := solveCriticalDepth (M := refMath) type p SI in
  ((abs (residual y) <? TOLERANCE) = true /\
   (Z.abs (fval (residual y)) < fval 1e-6)%Z) \/
  (exists lo hi,
      y = (lo + hi) / 2 /\
      (0 <=? lo) = true /\ (lo <=? y) = true /\ (y <=? hi) = true /\
      (hi <=? bracketMax type p) = true /\
      (lo = 0 \/ (residual lo <? 0) = true) /\
      (hi = bracketMax type p \/ (residual hi <? 0) = false) /\
      (2 ^ 48 * (fval hi - fval lo) <= fval (bracketMax type p) + 2 ^ 51)%Z).
Proof.
  apply (solveCriticalDepth_postcondition (M := refMath) Rectangular defaultRectangle SI);
    reflexivity.
Defined.

(** C8 (counterexample): roughness 0.013 against 0.014 in
    [floodRectangle]; both bisections end at the bracket ceiling. *)
Lemma solveNormalDepth_not_strictly_increasing :
  let y1 := solveNormalDepth (M := refMath) Rectangular (withManningN floodRectangle 0.013) SI in
  let y2 := solveNormalDepth (M := refMath) Rectangular (withManningN floodRectangle 0.014) SI in
  (0.013 <? 0.014) = true /\ y1 = 50 /\ y2 = 50 /\ (y1 <? y2) = false.
Proof. vm_compute. repeat split. Qed.

Lemma solveNormalDepth_monotone_witness :
  (solveNormalDepth (M := refMath) Rectangular (withManningN defaultRectangle 0.013) SI <=?
   solveNormalDepth (M := refMath) Rectangular (withManningN defaultRectangle 0.02) SI) = true.
Proof.
  apply (solveNormalDepth_monotone (M := refMath) Rectangular defaultRectangle SI 0.013 0.02);
    vm_compute; reflexivity.
Defined.

Lemma solveNormalDepth_in_bracket_witness :
  (0 <=? solveNormalDepth (M := refMath) Rectangular defaultRectangle SI) = true /\
  (solveNormalDepth (M := refMath) Rectangular defaultRectangle SI <=? 50) = true.
Proof.
  apply (solveNormalDepth_in_bracket (M := refMath) Rectangular defaultRectangle SI);
    vm_compute; reflexivity.
Defined.

Lemma solveCriticalDepth_in_bracket_witness :
  (0 <=? solveCriticalDepth (M := refMath) Rectangular defaultRectangle SI) = true /\
  (solveCriticalDepth (M := refMath) Rectangular defaultRectangle SI <=? 50) = true.
Proof.
  apply (solveCriticalDepth_in_bracket (M := refMath) Rectangular defaultRectangle SI);
    vm_compute; reflexivity.
Defined.

(** ** Junctions and the standard-step loop *)

Lemma boundsCheck_bounds y :
  (boundsCheck y <=? 0) = false /\ (100 <? boundsCheck y) = false.
Proof.
  unfold boundsCheck. destruct (y <=? 0) eqn:Hy.
  - split; reflexivity.
  - destruct (100 <? y) eqn:Hc; [split; reflexivity|]. split; assumption.
Qed.

Lemma last_cons {X} (l : list X) : forall a d, last (a :: l) d = last l a.
Proof.
  induction l as [|b l IH]; intros a d; [reflexivity|].
  change (last (a :: b :: l) d) with (last (b :: l) d). rewrite !IH. reflexivity.
Qed.

(** the bounds check, by its two replacements *)
Lemma boundsCheck_values y :
  boundsCheck y = if y <=? 0 then 0.01 else if y >? 100 then 100 else y.
Proof. unfold boundsCheck. cbv zeta. destruct (y <=? 0); reflexivity. Qed.

Section ReachFacts.
Context {M : MathLib}.

(** C4 (amended): after every sub-step a depth [<= 0] is replaced by
    0.01 and a depth [> 100] by 100: each recorded depth is the depth
    before it (the entry depth [y] for the first), advanced by the
    sub-step ([steppedDepth]) and passed through the two replacements.
    So no depth recorded by a sub-step is [<= 0] or [> 100]; the loop
    records at most [steps] points, the depth it is left with is the
    last depth recorded, and it stops before [steps] sub-steps only when
    the depth it starts a sub-step with is [<= 0] (then no sub-step has
    run: this is the reach's entry depth) or the section there has zero
    area or zero top width.  A depth reset to the floor does not stop
    the integration. *)
Theorem gvfLoop_bounds_and_exit (type : ChannelType) (baseParams sectionParams : InputParams)
    (unit : UnitSystem) (dx : number) (originalIdx : nat) (steps : nat) :
  forall (y x_local : number) (sectionPoints : list ProfilePoint),
  exists more,
    snd (gvfLoop type baseParams sectionParams unit dx originalIdx steps y x_local sectionPoints)
    = sectionPoints ++ more /\
    depthChain
      (fun d =>
         let raw := steppedDepth type baseParams sectionParams unit dx d in
         if raw <=? 0 then 0.01 else if raw >? 100 then 100 else raw)
      y (map depth more) /\
    Forall (fun pt => (depth pt <=? 0) = false /\ (100 <? depth pt) = false) more /\
    (List.length more <= steps)%nat /\
    let y_exit :=
      fst (gvfLoop type baseParams sectionParams unit dx originalIdx steps y x_local sectionPoints) in
    y_exit = last (map depth more) y /\
    (List.length more = steps \/
     ((y <=? 0) = true /\ more = [] /\ y_exit = y) \/
     ((A (getGeometry type y_exit sectionParams) =? 0) ||
      (T (getGeometry type y_exit sectionParams) =? 0)) = true).
Proof.
  induction steps as [|k IH]; intros y x_local pts; cbn [gvfLoop].
  - exists []. rewrite app_nil_r. cbn [fst snd List.length map depthChain last].
    split; [reflexivity|]. split; [exact I|]. split; [constructor|]. split; [lia|].
    split; [reflexivity|]. left. reflexivity.
  - destruct (y <=? 0) eqn:Hy.
    { exists []. rewrite app_nil_r. cbn [fst snd List.length map depthChain last].
      split; [reflexivity|]. split; [exact I|]. split; [constructor|]. split; [lia|].
      split; [reflexivity|]. right. left. repeat split. }
    destruct ((A (getGeometry type y sectionParams) =? 0) ||
              (T (getGeometry type y sectionParams) =? 0)) eqn:Hgeom.
    { exists []. rewrite app_nil_r. cbn [fst snd List.length map depthChain last].
      split; [reflexivity|]. split; [exact I|]. split; [constructor|]. split; [lia|].
      split; [reflexivity|]. right. right. exact Hgeom. }
    cbv zeta.
    match goal with
    | |- context [gvfLoop _ _ _ _ _ _ k (boundsCheck ?u) ?x' (pts ++ [?pt])] =>
        destruct (IH (boundsCheck u) x' (pts ++ [pt]))
          as (more & Hmore & Hchain & Hall & Hlen & Hlast & Hexit);
        destruct (boundsCheck_bounds u) as [Hlo Hhi];
        exists (pt :: more)
    end.
    rewrite Hmore, <- app_assoc.
    split; [reflexivity|].
    split.
    { cbn [map depthChain rawPoint depth]. split; [|exact Hchain].
      rewrite boundsCheck_values. reflexivity. }
    split; [constructor; [split; assumption|exact Hall]|].
    split; [simpl; lia|].
    split.
    { rewrite Hlast. cbn [map]. rewrite last_cons. reflexivity. }
    destruct Hexit as [Hfull|[(Hneg & _)|Hzero]].
    + left. simpl. lia.
    + congruence.
    + right. right. exact Hzero.
Qed.

(** The integration loop only appends to the points it was given. *)
Lemma gvfLoop_extends type baseParams sectionParams unit dx originalIdx steps y x_local
    sectionPoints :
  exists more,
    snd (gvfLoop type baseParams sectionParams unit dx originalIdx steps y x_local sectionPoints)
    = sectionPoints ++ more.
Proof.
  revert y x_local sectionPoints.
  induction steps as [|k IH]; intros y x_local pts; cbn [gvfLoop].
  - exists []. now rewrite app_nil_r.
  - destruct (y <=? 0); [exists []; now rewrite app_nil_r|].
    destruct ((A (getGeometry type y sectionParams) =? 0) ||
              (T (getGeometry type y sectionParams) =? 0));
      [exists []; now rewrite app_nil_r|].
    cbv zeta.
    match goal with
    | |- context [gvfLoop _ _ _ _ _ _ k ?y' ?x' (pts ++ [?pt])] =>
        destruct (IH y' x' (pts ++ [pt])) as [more Hmore]; exists (pt :: more);
        rewrite Hmore, <- app_assoc; reflexivity
    end.
Qed.

End ReachFacts.

(** C4 (counterexample): default rectangle, one reach of 100 in 4
    sub-steps, entered at depth 0.75.  The first sub-step drives the
    depth below zero, it is reset to the floor 0.01, and the integration
    goes on: all 4 sub-step points are recorded after the start point. *)
Lemma integration_continues_past_floor :
  let out := calculateMultiReachProfile (M := refMath) Rectangular defaultRectangle
               [mildReach] upstreamDepth SI 4 in
  map depth (firstn 2 out) = [0.75; 0.01] /\
  map distance out = [0; 25; 50; 75; 100] /\
  List.length out = 5%nat.
Proof. vm_compute. repeat split. Qed.

(** ** Bed-elevation nodes *)

(** C1 (the code departs from it): whenever the first reach is in Slope
    mode, node 0 of [z_nodes] receives the arbitrary datum 100, whatever
    the later reaches specify.  The datum is written before the forward
    pass, the forward pass then fills every node, and the backward pass
    finds nothing left to fill: a leading node is never back-filled from
    the first Elevation-specified reach. *)
Theorem z_nodes_leading_slope_reach (s : CanalSectionInput) (rest : list CanalSectionInput) :
  Sec.inputMode s = Slope ->
  nth 0 (z_nodes (computeSections (s :: rest))) None = Some 100.
Proof.
  intros Hs. rewrite computeSections_cons. rewrite Hs.
  set (s' := Sec_withSlope s (Sec.slope s)). set (cs := computeSections rest).
  assert (Hidx : Forall (fun si : CanalSectionInput * nat =>
                           (1 <= snd si < 1 + List.length cs)%nat)
                        (mapi_from (fun s i => (s, i)) 1 cs)) by apply mapi_from_index.
  unfold z_nodes.
  (* fill knowns: node 0 stays null, and the array keeps its entries *)
  assert (Hfill : nth 0 (fillKnowns (s' :: cs)) None = None /\
                  (0 < List.length (fillKnowns (s' :: cs)))%nat).
  { unfold fillKnowns, indexed, mapi. cbn [mapi_from fold_left].
    assert (H0 : forall z, fillStep z (s', 0%nat) = z)
      by (intros z; unfold fillStep; cbn [s' Sec_withSlope Sec.inputMode];
          rewrite Hs; reflexivity).
    rewrite H0.
    apply (fold_left_invariant
             (fun z => nth 0 z None = None /\ (0 < List.length z)%nat)
             (fun si : CanalSectionInput * nat => (1 <= snd si < 1 + List.length cs)%nat));
      [|exact Hidx|].
    - intros z [si i] [Hz Hl] Hi. simpl in Hi. unfold fillStep.
      destruct (Sec.inputMode si); [tauto|].
      rewrite !nth_assign_other, !length_assign by lia. tauto.
    - split; [reflexivity|]. simpl. lia. }
  destruct Hfill as [Hnull Hlen].
  (* the datum is written because node 0 is still null *)
  assert (Hdatum : nth 0 (anchorDatum (fillKnowns (s' :: cs))) None = Some 100).
  { unfold anchorDatum. rewrite Hnull. apply nth_assign_same. exact Hlen. }
  (* the forward pass writes nodes i+1 only *)
  assert (Hfwd : nth 0 (forwardPass (s' :: cs) (anchorDatum (fillKnowns (s' :: cs)))) None
                 = Some 100).
  { unfold forwardPass.
    apply (fold_left_invariant (fun z => nth 0 z None = Some 100) (fun _ => True));
      [|apply Forall_forall; trivial|exact Hdatum].
    intros z [si i] Hz _. unfold forwardStep. destruct_match; [exact Hz|].
    rewrite nth_assign_other by lia. exact Hz. }
  (* the backward pass writes null nodes only *)
  unfold backwardPass.
  apply (fold_left_invariant (fun z => nth 0 z None = Some 100) (fun _ => True));
    [|apply Forall_forall; trivial|exact Hfwd].
  intros z [si i] Hz _. unfold backwardStep.
  destruct (Nat.eq_dec i 0) as [->|Hi].
  - unfold number in *. rewrite Hz. exact Hz.
  - destruct_match; [exact Hz|]. destruct_match; [|exact Hz].
    rewrite nth_assign_other by lia. exact Hz.
Qed.

Lemma z_nodes_leading_slope_reach_witness :
  z_nodes (computeSections [slopeReach; elevationReach]) = [Some 100; Some 50; Some 49] /\
  50 + Sec.slope slopeReach * Sec.length slopeReach = 51 /\
  nth 0 (z_nodes (computeSections [slopeReach; elevationReach])) None = Some 100.
Proof.
  split; [reflexivity|]. split; [reflexivity|].
  apply (z_nodes_leading_slope_reach slopeReach [elevationReach]). reflexivity.
Defined.

Lemma length_fillKnowns cs : List.length (fillKnowns cs) = S (List.length cs).
Proof.
  unfold fillKnowns.
  apply (fold_left_invariant (fun z => List.length z = S (List.length cs)) (fun _ => True)).
  - intros z [s i] Hz _. unfold fillStep. destruct (Sec.inputMode s); [exact Hz|].
    now rewrite !length_assign.
  - apply Forall_forall. trivial.
  - rewrite repeat_length. lia.
Qed.

Lemma anchorDatum_known z :
  (0 < List.length z)%nat ->
  List.length (anchorDatum z) = List.length z /\ known (anchorDatum z) 0.
Proof.
  intros Hl. unfold anchorDatum, known. destruct (nth 0 z None) eqn:Hn.
  - split; [reflexivity|]. rewrite Hn. discriminate.
  - rewrite length_assign. split; [reflexivity|].
    rewrite nth_assign_same by exact Hl. discriminate.
Qed.

(** The forward loop from reach [k] on: with the nodes up to [k] known
    before, all nodes up to the last are known after. *)
Lemma forward_fills (l : list CanalSectionInput) :
  forall k z,
    (k + List.length l < List.length z)%nat ->
    (forall j, (j <= k)%nat -> known z j) ->
    List.length (fold_left forwardStep (mapi_from (fun s i => (s, i)) k l) z)
    = List.length z /\
    forall j, (j <= k + List.length l)%nat ->
              known (fold_left forwardStep (mapi_from (fun s i => (s, i)) k l) z) j.
Proof.
  induction l as [|s l IH]; intros k z Hlen Hk; cbn [mapi_from fold_left List.length] in *.
  - split; [reflexivity|]. intros j Hj. apply Hk. lia.
  - assert (Hstep : List.length (forwardStep z (s, k)) = List.length z /\
                    forall j, (j <= S k)%nat -> known (forwardStep z (s, k)) j).
    { unfold forwardStep. destruct (nth (k + 1) z None) eqn:Hn.
      - split; [reflexivity|]. intros j Hj. destruct (Nat.eq_dec j (k + 1)) as [->|Hne].
        + unfold known. rewrite Hn. discriminate.
        + apply Hk. lia.
      - rewrite length_assign. split; [reflexivity|]. intros j Hj. unfold known.
        destruct (Nat.eq_dec j (k + 1)) as [->|Hne].
        + rewrite nth_assign_same by lia. discriminate.
        + rewrite nth_assign_other by lia. apply Hk. lia. }
    destruct Hstep as [Hl1 Hk1].
    destruct (IH (S k) (forwardStep z (s, k)) ltac:(lia) Hk1) as [Hl2 Hk2].
    split; [congruence|]. intros j Hj. apply Hk2. lia.
Qed.

(** After the datum and the forward pass every node of [z_nodes] is
    known, so the backward pass changes nothing: [z_nodes] is the result
    of the forward pass. *)
Theorem backwardPass_fills_nothing (computedSections : list CanalSectionInput) :
  z_nodes computedSections =
    forwardPass computedSections (anchorDatum (fillKnowns computedSections)) /\
  List.length (z_nodes computedSections) = S (List.length computedSections) /\
  Forall (fun z => z <> None) (z_nodes computedSections).
Proof.
  set (cs := computedSections).
  pose proof (length_fillKnowns cs) as Hlf.
  destruct (anchorDatum_known (fillKnowns cs) ltac:(lia)) as [Hla Hk0].
  destruct (forward_fills cs 0 (anchorDatum (fillKnowns cs)) ltac:(lia)) as [Hlen Hknown].
  { intros j Hj. replace j with 0%nat by lia. exact Hk0. }
  change (fold_left forwardStep (mapi_from (fun s i => (s, i)) 0 cs) (anchorDatum (fillKnowns cs)))
    with (forwardPass cs (anchorDatum (fillKnowns cs))) in *.
  set (zf := forwardPass cs (anchorDatum (fillKnowns cs))) in *.
  assert (Hback : z_nodes cs = zf).
  { unfold z_nodes. fold zf. unfold backwardPass.
    apply (fold_left_invariant (fun z => z = zf)
             (fun si : CanalSectionInput * nat => (0 <= snd si < 0 + List.length cs)%nat)).
    - intros z [s i] -> Hi. simpl in Hi. unfold backwardStep.
      pose proof (Hknown i ltac:(lia)) as Hi'. unfold known in Hi'.
      match goal with |- context [match ?t with _ => _ end] => destruct t eqn:E end;
        [reflexivity | exfalso; apply Hi'; first [exact E | reflexivity]].
    - apply Forall_rev. apply (mapi_from_index cs 0).
    - reflexivity. }
  split; [exact Hback|]. rewrite Hback. split; [lia|].
  apply Forall_forall. intros o Ho. destruct (In_nth _ _ None Ho) as (j & Hj & <-).
  apply Hknown. lia.
Qed.

(** ** The final sort *)

Lemma sort_insert_Permutation {X} (cmp : X -> X -> number) x l :
  Permutation (x :: l) (sort_insert cmp x l).
Proof.
  induction l as [|y r IH]; cbn [sort_insert]; [reflexivity|].
  destruct (0 <? cmp x y); [|reflexivity].
  rewrite perm_swap. now constructor.
Qed.

Lemma Array_sort_Permutation {X} (cmp : X -> X -> number) l :
  Permutation l (Array_sort cmp l).
Proof.
  induction l as [|x r IH]; cbn [Array_sort]; [constructor|].
  rewrite <- sort_insert_Permutation. now constructor.
Qed.

(** The head of an insertion is the inserted element or the old head. *)
Lemma sort_insert_HdRel (R : ProfilePoint -> ProfilePoint -> Prop) y x l :
  R y x -> HdRel R y l -> HdRel R y (sort_insert byDistance x l).
Proof.
  intros Hyx Hl. destruct l as [|z r]; cbn [sort_insert].
  - constructor. exact Hyx.
  - destruct (0 <? byDistance x z); constructor; [now inversion Hl | exact Hyx].
Qed.

Lemma sort_insert_never_decreases x l :
  Sorted never_decreases l -> Sorted never_decreases (sort_insert byDistance x l).
Proof.
  intros Hs. induction Hs as [|y r Hr IH Hhd]; cbn [sort_insert].
  - repeat constructor.
  - unfold byDistance at 1. rewrite sub_pos_iff.
    destruct (distance y <? distance x) eqn:Hlt.
    + constructor; [exact IH|].
      apply sort_insert_HdRel; [|exact Hhd].
      unfold never_decreases. apply ltb_asym. exact Hlt.
    + constructor; [constructor; assumption|].
      constructor. exact Hlt.
Qed.

Lemma Array_sort_never_decreases l : Sorted never_decreases (Array_sort byDistance l).
Proof.
  induction l as [|x r IH]; cbn [Array_sort]; [constructor|].
  apply sort_insert_never_decreases. exact IH.
Qed.

Lemma sort_insert_sorted x l :
  hasDistance x -> Forall hasDistance l ->
  Sorted distance_le l -> Sorted distance_le (sort_insert byDistance x l).
Proof.
  intros Hx Hl Hs. induction Hs as [|y r Hr IH Hhd]; cbn [sort_insert].
  - repeat constructor.
  - inversion Hl as [|? ? Hy Hr']; subst.
    unfold byDistance at 1. rewrite sub_pos_iff.
    destruct (distance y <? distance x) eqn:Hlt.
    + constructor; [apply IH; assumption|].
      apply sort_insert_HdRel; [|exact Hhd].
      apply ltb_leb. exact Hlt.
    + constructor; [constructor; assumption|].
      constructor. apply not_ltb_leb; assumption.
Qed.

Lemma Array_sort_sorted l :
  Forall hasDistance l -> Sorted distance_le (Array_sort byDistance l).
Proof.
  induction l as [|x r IH]; intros Hl; cbn [Array_sort]; [constructor|].
  inversion Hl; subst. apply sort_insert_sorted; auto.
  eapply Permutation_Forall; [apply Array_sort_Permutation|assumption].
Qed.

Lemma distance_le_trans : Relation_Definitions.transitive _ distance_le.
Proof. intros a b c. unfold distance_le. apply leb_trans. Qed.

Lemma forallb_hasDistance (l : list ProfilePoint) :
  forallb (fun p => negb (is_nan (distance p))) l = true -> Forall hasDistance l.
Proof.
  rewrite forallb_forall, Forall_forall. intros H p Hp.
  specialize (H p Hp). unfold hasDistance. now destruct (is_nan (distance p)).
Qed.

(** *** The assembled distances are numbers *)

Lemma steady_step dx x : is_nan dx = false -> steady dx x -> steady dx (x + dx).
Proof.
  intros Hdx [Hx Hinf]. destruct (is_finite dx) eqn:Hf.
  - split; [apply add_finite_r; assumption | intros H; congruence].
  - rewrite (add_infinite x dx Hdx Hf (Hinf eq_refl)). split; [exact Hdx | now right].
Qed.

Section DistanceFacts.
Context {M : MathLib}.

Lemma gvfLoop_distances type baseParams sectionParams unit dx originalIdx steps :
  is_nan dx = false ->
  forall y x_local sectionPoints,
    steady dx x_local -> Forall hasDistance sectionPoints ->
    Forall hasDistance
      (snd (gvfLoop type baseParams sectionParams unit dx originalIdx steps y x_local
              sectionPoints)).
Proof.
  intros Hdx. induction steps as [|k IH]; intros y x pts Hx Hpts; cbn [gvfLoop].
  - exact Hpts.
  - destruct (y <=? 0); [exact Hpts|].
    destruct ((A (getGeometry type y sectionParams) =? 0) ||
              (T (getGeometry type y sectionParams) =? 0)); [exact Hpts|].
    cbv zeta. pose proof (steady_step dx x Hdx Hx) as Hx'.
    apply IH; [exact Hx'|].
    apply Forall_app. split; [exact Hpts|]. constructor; [|constructor].
    exact (proj1 Hx').
Qed.

Lemma processReach_distances type baseParams bc unit stepPerSection isUpstreamCalc prev
    currentDepth s originalIdx :
  properLength s ->
  Forall hasDistance
    (snd (processReach type baseParams bc unit stepPerSection isUpstreamCalc prev
            currentDepth s originalIdx)).
Proof.
  intros [Hpos Hfin]. unfold processReach. cbv zeta.
  match goal with
  | |- context [gvfLoop ?a ?b ?c ?d ?e ?f ?g ?h ?i ?j] =>
      pose proof (gvfLoop_distances a b c d e f g) as Hloop;
      specialize (fun Hdx => Hloop Hdx h i j);
      destruct (gvfLoop a b c d e f g h i j) as [y pts]
  end.
  cbn [snd] in *.
  assert (Hq : is_nan (Sec.length s / of_nat stepPerSection) = false)
    by (apply div_positive_not_nan; [assumption|assumption|apply of_nat_not_nan]).
  assert (HL : is_nan (Sec.length s) = false) by (apply is_finite_not_nan; exact Hfin).
  assert (Hpts : Forall hasDistance pts).
  { apply Hloop.
    - destruct isUpstreamCalc; [apply mul_minus_one_not_nan | apply mul_one_not_nan]; exact Hq.
    - destruct isUpstreamCalc; (split; [|intros _; left]); try assumption; reflexivity.
    - constructor; [|constructor]. destruct isUpstreamCalc; [exact HL|reflexivity]. }
  destruct isUpstreamCalc; [apply Forall_rev|]; exact Hpts.
Qed.

Lemma reachLoop_distances type baseParams bc unit stepPerSection isUpstreamCalc order :
  Forall (fun si => properLength (fst si)) order ->
  forall prev currentDepth allPoints,
    Forall hasDistance allPoints ->
    Forall hasDistance
      (reachLoop type baseParams bc unit stepPerSection isUpstreamCalc order prev
                 currentDepth allPoints).
Proof.
  intros Hord. induction Hord as [|[s idx] rest Hs Hrest IH]; intros prev d pts Hpts;
    cbn [reachLoop]; [exact Hpts|].
  pose proof (processReach_distances type baseParams bc unit stepPerSection isUpstreamCalc
                prev d s idx Hs) as Hp.
  destruct (processReach type baseParams bc unit stepPerSection isUpstreamCalc prev d s idx)
    as [y new]. cbn [snd] in Hp.
  apply IH. apply Forall_app. split; assumption.
Qed.
End DistanceFacts.

Lemma mapi_from_Forall {X Y} (Q : Y -> Prop) (f : X -> nat -> Y) (R : X -> Prop) l :
  (forall x i, R x -> Q (f x i)) -> Forall R l -> forall k, Forall Q (mapi_from f k l).
Proof.
  intros Hf Hl. induction Hl as [|x l Hx Hl IH]; intros k; cbn [mapi_from]; constructor; auto.
Qed.

Lemma computeSections_properLength sections :
  Forall properLength sections -> Forall properLength (computeSections sections).
Proof.
  intros H. unfold computeSections. apply Forall_map.
  eapply Forall_impl; [|exact H]. intros s Hs. exact Hs.
Qed.

Lemma processingOrder_properLength isUpstreamCalc cs :
  Forall properLength cs ->
  Forall (fun si => properLength (fst si)) (processingOrder isUpstreamCalc cs).
Proof.
  intros H. unfold processingOrder, mapi. destruct isUpstreamCalc.
  - apply (mapi_from_Forall _ _ properLength); [auto|]. apply Forall_rev. exact H.
  - apply (mapi_from_Forall _ _ properLength); [auto|exact H].
Qed.

Lemma Map_push_Forall (Q : ProfilePoint -> Prop) m k p :
  Forall (fun kv => Forall Q (snd kv)) m -> Q p ->
  Forall (fun kv => Forall Q (snd kv)) (Map_push m k p).
Proof.
  intros Hm Hp. induction Hm as [|[k' v] r Hv Hr IH]; cbn [Map_push].
  - repeat constructor. exact Hp.
  - destruct (Nat.eqb k' k); constructor; try assumption.
    cbn [snd] in *. apply Forall_app. split; [exact Hv|]. now repeat constructor.
Qed.

Lemma Map_get_Forall (Q : ProfilePoint -> Prop) m k v :
  Forall (fun kv => Forall Q (snd kv)) m -> Map_get m k = Some v -> Forall Q v.
Proof.
  intros Hm. induction Hm as [|[k' v'] r Hv Hr IH]; cbn [Map_get]; [discriminate|].
  destruct (Nat.eqb k' k); [|exact IH]. intros [= <-]. exact Hv.
Qed.

Lemma pointsBySection_Forall (Q : ProfilePoint -> Prop) allPoints :
  Forall Q allPoints -> Forall (fun kv => Forall Q (snd kv)) (pointsBySection allPoints).
Proof.
  intros H. unfold pointsBySection.
  apply (fold_left_invariant (fun m => Forall (fun kv => Forall Q (snd kv)) m) Q);
    [|exact H|constructor].
  intros m p Hm Hp. apply Map_push_Forall; assumption.
Qed.

Lemma sectionStartDist_computeSections sections : forall d,
  sectionStartDist d (computeSections sections) = sectionStartDist d sections.
Proof.
  induction sections as [|s r IH]; intros d; cbn [computeSections map sectionStartDist];
    [reflexivity|].
  f_equal. apply IH.
Qed.

Lemma finalPoints_distances {M : MathLib} type baseParams sections bc unit stepPerSection :
  Forall properLength sections -> finiteChainage sections ->
  Forall hasDistance (finalPoints type baseParams sections bc unit stepPerSection).
Proof.
  intros Hlen Hchain. unfold finalPoints. cbv zeta.
  set (up := match BC.location bc with Upstream => false | Downstream => true end).
  set (cs := computeSections sections).
  assert (Hcs : Forall properLength cs) by (apply computeSections_properLength; exact Hlen).
  match goal with |- context [pointsBySection ?pts] =>
    assert (Hall : Forall hasDistance pts)
      by (apply reachLoop_distances;
          [apply processingOrder_properLength; exact Hcs | constructor]);
    pose proof (pointsBySection_Forall hasDistance pts Hall) as Hmap
  end.
  apply Forall_concat. unfold mapi.
  apply (mapi_from_Forall _ _ (fun _ => True)); [|apply Forall_forall; trivial].
  intros s i _. unfold mapPoints. cbv zeta. apply Forall_map.
  assert (Hstart : is_finite (nth i (sectionStartDist 0 cs) 0) = true).
  { unfold cs. rewrite sectionStartDist_computeSections.
    destruct (nth_in_or_default i (sectionStartDist 0 sections) 0) as [Hin| ->];
      [|reflexivity].
    unfold finiteChainage in Hchain. rewrite Forall_forall in Hchain. apply Hchain, Hin. }
  assert (Hpts : Forall hasDistance
                   match Map_get (pointsBySection
                     (reachLoop type baseParams bc unit stepPerSection up
                        (processingOrder up cs) None (BC.value bc) [])) i with
                   | Some v => v | None => [] end).
  { destruct (Map_get _ i) eqn:Hg; [|constructor].
    eapply Map_get_Forall; [exact Hmap|exact Hg]. }
  eapply Forall_impl; [|exact Hpts].
  intros p Hp. unfold hasDistance. cbn [distance].
  apply add_finite_l; assumption.
Qed.

(** C5: for every input, the ProfilePoint sequence returned by
    [calculateMultiReachProfile] is the assembled point set rearranged
    by global distance: no point is followed by a point of smaller
    distance.  When the assembled distances are numbers, as they are
    whenever every reach length is positive and finite and the total
    length is finite, the comparator is consistent and the sequence is
    in the order [<=] between any earlier and any later point. *)
Theorem profile_sorted_by_distance {M : MathLib} (type : ChannelType) (baseParams : InputParams)
    (sections : list CanalSectionInput) (bc : BoundaryCondition) (unit : UnitSystem)
    (stepPerSection : nat) :
  let assembled := finalPoints type baseParams sections bc unit stepPerSection in
  let out := calculateMultiReachProfile type baseParams sections bc unit stepPerSection in
  Permutation assembled out /\
  Sorted never_decreases out /\
  (Forall hasDistance assembled -> StronglySorted distance_le out) /\
  (Forall properLength sections -> finiteChainage sections ->
   Forall hasDistance assembled /\ StronglySorted distance_le out).
Proof.
  cbv zeta. unfold calculateMultiReachProfile.
  assert (Hstrong : Forall hasDistance
                      (finalPoints type baseParams sections bc unit stepPerSection) ->
                    StronglySorted distance_le
                      (Array_sort byDistance
                         (finalPoints type baseParams sections bc unit stepPerSection))).
  { intros Hnum. apply Sorted_StronglySorted; [exact distance_le_trans|].
    apply Array_sort_sorted. exact Hnum. }
  split; [apply Array_sort_Permutation|].
  split; [apply Array_sort_never_decreases|].
  split; [exact Hstrong|].
  intros Hlen Hchain.
  pose proof (finalPoints_distances type baseParams sections bc unit stepPerSection
                Hlen Hchain) as Hnum.
  split; [exact Hnum | exact (Hstrong Hnum)].
Qed.

Lemma properLength_mildReach : properLength mildReach.
Proof. split; reflexivity. Qed.

Lemma profile_sorted_by_distance_witness :
  StronglySorted distance_le
    (calculateMultiReachProfile (M := refMath) Rectangular defaultRectangle
       [mildReach; mildReach] downstreamDepth SI 4).
Proof.
  apply (profile_sorted_by_distance (M := refMath) Rectangular defaultRectangle
           [mildReach; mildReach] downstreamDepth SI 4).
  - repeat constructor; apply properLength_mildReach.
  - repeat constructor.
Defined.

(** ** The profile, reach by reach *)

Lemma Forall_concat_mapi_from {X Y} (Q : Y -> Prop) (f : X -> nat -> list Y) (l : list X) :
  forall k,
    (forall j x, nth_error l j = Some x -> Forall Q (f x (k + j)%nat)) ->
    Forall Q (List.concat (mapi_from f k l)).
Proof.
  induction l as [|x r IH]; intros k H; cbn [mapi_from List.concat]; [constructor|].
  apply Forall_app. split.
  - specialize (H 0%nat x eq_refl). rewrite Nat.add_0_r in H. exact H.
  - apply IH. intros j y Hj. specialize (H (S j) y Hj).
    replace (S k + j)%nat with (k + S j)%nat by lia. exact H.
Qed.

Lemma Map_getOr_push m k p i :
  Map_getOr (Map_push m k p) i =
  if Nat.eqb k i then Map_getOr m i ++ [p] else Map_getOr m i.
Proof.
  unfold Map_getOr. induction m as [|[k' v] r IH]; cbn [Map_push Map_get].
  - destruct (Nat.eqb k i); reflexivity.
  - destruct (Nat.eqb k' k) eqn:Ek; cbn [Map_get].
    + apply Nat.eqb_eq in Ek. subst k'. destruct (Nat.eqb k i); reflexivity.
    + destruct (Nat.eqb k' i) eqn:Ei.
      * apply Nat.eqb_eq in Ei. subst k'. rewrite Nat.eqb_sym in Ek. rewrite Ek. reflexivity.
      * exact IH.
Qed.

Lemma Map_getOr_fold l : forall m i,
  Map_getOr (fold_left (fun m p => Map_push m (sectionIndex p) p) l m) i =
  Map_getOr m i ++ pointsOfReach i l.
Proof.
  induction l as [|p r IH]; intros m i; cbn [fold_left pointsOfReach filter].
  - rewrite app_nil_r. reflexivity.
  - rewrite IH, Map_getOr_push. fold (pointsOfReach i r).
    destruct (Nat.eqb (sectionIndex p) i); [rewrite <- app_assoc|]; reflexivity.
Qed.

(** the grouping pass collects, for each reach, its points in order *)
Lemma pointsBySection_get allPoints i :
  Map_getOr (pointsBySection allPoints) i = pointsOfReach i allPoints.
Proof. unfold pointsBySection. rewrite Map_getOr_fold. reflexivity. Qed.

Section ProfileFacts.
Context {M : MathLib}.

Lemma mapPoints_consistent type baseParams unit starts z m cs s i :
  nth_error cs i = Some s ->
  Forall (consistentPoint type baseParams unit cs)
         (mapPoints type baseParams unit starts z m s i).
Proof.
  intros Hs. unfold mapPoints. cbv zeta. apply Forall_map, Forall_forall.
  intros p _. exists s.
  cbn [sectionIndex waterElevation bedElevation depth normalDepthElevation
       criticalDepthElevation].
  split; [exact Hs|]. split; [reflexivity|]. split; reflexivity.
Qed.

(** Every point of the profile has its water surface at bed + depth and
    the normal- and critical-depth lines at bed + yn and bed + yc of
    the reach it belongs to. *)
Theorem profile_elevations_consistent type baseParams sections bc unit stepPerSection :
  Forall (consistentPoint type baseParams unit (computeSections sections))
         (calculateMultiReachProfile type baseParams sections bc unit stepPerSection).
Proof.
  unfold calculateMultiReachProfile.
  eapply Permutation_Forall; [apply Array_sort_Permutation|].
  unfold finalPoints. cbv zeta. unfold mapi.
  apply Forall_concat_mapi_from. intros j s Hj. cbn [Nat.add].
  apply mapPoints_consistent. exact Hj.
Qed.

End ProfileFacts.


Lemma length_mapi_from {X Y} (f : X -> nat -> Y) l : forall k,
  List.length (mapi_from f k l) = List.length l.
Proof. induction l as [|x r IH]; intros k; cbn [mapi_from List.length]; [|rewrite IH]; reflexivity. Qed.







Section CountFacts.
Context {M : MathLib}.

Lemma gvfLoop_points type baseParams sectionParams unit dx originalIdx steps :
  forall y x_local sectionPoints,
  exists more,
    snd (gvfLoop type baseParams sectionParams unit dx originalIdx steps y x_local sectionPoints)
    = sectionPoints ++ more /\
    (List.length more <= steps)%nat /\
    Forall (fun p => sectionIndex p = originalIdx) more.
Proof.
  induction steps as [|k IH]; intros y x_local pts; cbn [gvfLoop].
  - exists []. rewrite app_nil_r. repeat split; [cbn; lia|constructor].
  - destruct (y <=? 0).
    { exists []. rewrite app_nil_r. repeat split; [cbn; lia|constructor]. }
    cbv zeta.
    destruct ((A (getGeometry type y sectionParams) =? 0) ||
              (T (getGeometry type y sectionParams) =? 0)).
    { exists []. rewrite app_nil_r. repeat split; [cbn; lia|constructor]. }
    match goal with
    | |- context [gvfLoop _ _ _ _ _ _ k ?y' ?x' (pts ++ [?pt])] =>
        destruct (IH y' x' (pts ++ [pt])) as (more & Hm & Hl & Hi);
        exists (pt :: more); rewrite Hm, <- app_assoc
    end.
    repeat split; [cbn; lia|]. constructor; [reflexivity|exact Hi].
Qed.

(** one reach: its entry point first (in sweep order), then at most
    [stepPerSection] more, all labelled with the reach's index *)
Lemma processReach_points type baseParams bc unit stepPerSection isUpstreamCalc prev
    currentDepth s originalIdx :
  let pts := snd (processReach type baseParams bc unit stepPerSection isUpstreamCalc prev
                    currentDepth s originalIdx) in
  (1 <= List.length pts <= stepPerSection + 1)%nat /\
  Forall (fun p => sectionIndex p = originalIdx) pts /\
  In (rawPoint (if isUpstreamCalc then Sec.length s else 0)
               (entryDepth type baseParams bc unit isUpstreamCalc prev s currentDepth)
               originalIdx) pts.
Proof.
  cbv zeta. unfold processReach. cbv zeta.
  match goal with
  | |- context [gvfLoop ?a ?b ?c ?d ?e ?f ?g ?h ?i ?j] =>
      destruct (gvfLoop_points a b c d e f g h i j) as (more & Hm & Hl & Hi);
      destruct (gvfLoop a b c d e f g h i j) as [y pts] eqn:Hloop
  end.
  cbn [snd] in Hm |- *. subst pts.
  assert (Hall : Forall (fun p => sectionIndex p = originalIdx)
                   ([rawPoint (if isUpstreamCalc then Sec.length s else 0)
                       (entryDepth type baseParams bc unit isUpstreamCalc prev s currentDepth)
                       originalIdx] ++ more)).
  { apply Forall_app. split; [repeat constructor|exact Hi]. }
  destruct isUpstreamCalc.
  - rewrite length_rev. cbn [List.length app]. repeat split; try lia.
    + apply Forall_rev. exact Hall.
    + apply in_rev. rewrite rev_involutive. left. reflexivity.
  - cbn [List.length app]. repeat split; try lia; [exact Hall|left; reflexivity].
Qed.

Lemma reachLoop_acc type baseParams bc unit stepPerSection isUpstreamCalc order :
  forall prev currentDepth allPoints,
  exists more,
    reachLoop type baseParams bc unit stepPerSection isUpstreamCalc order prev currentDepth
              allPoints = allPoints ++ more /\
    Forall (fun p => In (sectionIndex p) (map snd order)) more.
Proof.
  induction order as [|[s k] rest IH]; intros prev y acc; cbn [reachLoop].
  - exists []. rewrite app_nil_r. split; [reflexivity|constructor].
  - pose proof (processReach_points type baseParams bc unit stepPerSection isUpstreamCalc
                  prev y s k) as (_ & Hk & _).
    destruct (processReach type baseParams bc unit stepPerSection isUpstreamCalc prev y s k)
      as [y' pts]. cbn [snd] in Hk.
    destruct (IH (Some s) y' (acc ++ pts)) as (more & Hm & Hi).
    exists (pts ++ more). rewrite Hm, <- app_assoc. split; [reflexivity|].
    apply Forall_app. split.
    + eapply Forall_impl; [|exact Hk]. intros p Hp. left. symmetry. exact Hp.
    + eapply Forall_impl; [|exact Hi]. intros p Hp. right. exact Hp.
Qed.





End CountFacts.

Lemma In_concat_mapi_from {X Y} (f : X -> nat -> list Y) (l : list X) y : forall k j x,
  nth_error l j = Some x -> In y (f x (k + j)%nat) -> In y (List.concat (mapi_from f k l)).
Proof.
  induction l as [|x0 r IH]; intros k j x Hj Hy; [destruct j; discriminate|].
  cbn [mapi_from List.concat]. apply in_or_app. destruct j as [|j].
  - left. inversion Hj; subst. rewrite Nat.add_0_r in Hy. exact Hy.
  - right. apply (IH (S k) j x Hj). replace (S k + j)%nat with (k + S j)%nat by lia. exact Hy.
Qed.

(** the reach the sweep starts with: the last one when the control is
    downstream, the first one otherwise *)
Lemma processingOrder_head (isUpstreamCalc : bool) (cs : list CanalSectionInput) d :
  cs <> [] ->
  let idx := if isUpstreamCalc then (List.length cs - 1)%nat else 0%nat in
  exists rest, processingOrder isUpstreamCalc cs = (nth idx cs d, idx) :: rest.
Proof.
  intros Hne. cbv zeta. unfold processingOrder, mapi. destruct isUpstreamCalc.
  - assert (Hlen : (0 < List.length cs)%nat) by (destruct cs; [congruence|cbn; lia]).
    pose proof (rev_nth cs d (n := 0) Hlen) as Hn.
    destruct (rev cs) as [|h t] eqn:Hr.
    + apply (f_equal (@List.length _)) in Hr. rewrite length_rev in Hr. cbn in Hr. lia.
    + cbn [nth] in Hn. cbn [mapi_from]. rewrite Nat.sub_0_r.
      replace (List.length cs - 1)%nat with (List.length cs - 1)%nat in * by reflexivity.
      rewrite Hn. eexists. reflexivity.
  - destruct cs as [|c r]; [congruence|]. cbn [mapi_from nth]. eexists. reflexivity.
Qed.

Section BoundaryFacts.
Context {M : MathLib}.

(** The boundary condition is honoured: the reach at the controlled end
    (the last reach for a downstream control, the first for an upstream
    one) has, at that end, a point whose depth is the boundary depth:
    the reach's normal depth, its critical depth, or the given value. *)
Theorem boundary_depth_recorded type baseParams s0 rest bc unit stepPerSection :
  let sections := s0 :: rest in
  let cs := computeSections sections in
  let isUpstreamCalc := match BC.location bc with Downstream => true | Upstream => false end in
  let idx := if isUpstreamCalc then (List.length cs - 1)%nat else 0%nat in
  let s := nth idx cs s0 in
  let x := if isUpstreamCalc then Sec.length s else 0 in
  let d :=
    match BC.type bc with
    | NormalDepth => solveNormalDepth type (withSlope baseParams (Sec.slope s)) unit
    | CriticalDepth => solveCriticalDepth type (withSlope baseParams (Sec.slope s)) unit
    | FixedDepth => BC.value bc
    end in
  exists pt,
    In pt (calculateMultiReachProfile type baseParams sections bc unit stepPerSection) /\
    sectionIndex pt = idx /\ depth pt = d /\
    distance pt = nth idx (sectionStartDist 0 cs) 0 + x.
Proof.
  cbv zeta.
  set (cs := computeSections (s0 :: rest)).
  set (isUp := match BC.location bc with Downstream => true | Upstream => false end).
  set (idx := if isUp then (List.length cs - 1)%nat else 0%nat).
  set (s := nth idx cs s0).
  assert (Hcs : cs <> []) by (subst cs; rewrite computeSections_cons; discriminate).
  assert (Hidx : (idx < List.length cs)%nat).
  { subst idx. destruct cs; [congruence|]. destruct isUp; cbn [List.length]; lia. }
  destruct (processingOrder_head isUp cs s0 Hcs) as (order & Horder). fold idx s in Horder.
  set (raw := rawPoint (if isUp then Sec.length s else 0)
                       (entryDepth type baseParams bc unit isUp None s (BC.value bc)) idx).
  set (allPoints := reachLoop type baseParams bc unit stepPerSection isUp
                      (processingOrder isUp cs) None (BC.value bc) []).
  assert (Hraw : In raw allPoints).
  { subst allPoints. rewrite Horder. cbn [reachLoop].
    pose proof (processReach_points type baseParams bc unit stepPerSection isUp None
                  (BC.value bc) s idx) as (_ & _ & Hin).
    destruct (processReach type baseParams bc unit stepPerSection isUp None (BC.value bc) s idx)
      as [y pts]. cbn [snd] in Hin.
    destruct (reachLoop_acc type baseParams bc unit stepPerSection isUp order (Some s) y
                ([] ++ pts)) as (more & -> & _).
    apply in_or_app. left. exact Hin. }
  assert (Hgrp : In raw (Map_getOr (pointsBySection allPoints) idx)).
  { rewrite pointsBySection_get. apply filter_In. split; [exact Hraw|]. apply Nat.eqb_refl. }
  eexists. split; [|split; [|split]].
  - unfold calculateMultiReachProfile.
    eapply Permutation_in; [apply Array_sort_Permutation|].
    unfold finalPoints. cbv zeta. fold cs isUp allPoints. unfold mapi.
    eapply (In_concat_mapi_from _ _ _ 0%nat idx s).
    + subst s. apply nth_error_nth'. exact Hidx.
    + cbn [Nat.add]. unfold mapPoints. cbv zeta. fold (Map_getOr (pointsBySection allPoints) idx).
      apply in_map_iff. exists raw. split; [reflexivity|exact Hgrp].
  - reflexivity.
  - cbn [depth]. subst raw. cbn [rawPoint depth]. unfold entryDepth. cbv zeta. reflexivity.
  - cbn [distance]. subst raw. cbn [rawPoint distance]. reflexivity.
Qed.

End BoundaryFacts.

(** ** The energy solver and the junctions of the sweep *)

Section EnergyFacts.
Context {M : MathLib}.




End EnergyFacts.



Section JunctionFacts.
Context {M : MathLib}.









End JunctionFacts.


(** ** Bed-elevation nodes, in closed form *)

Lemma assign_app {X} (pre arr : list X) j v :
  assign (pre ++ arr) (List.length pre + j) v = pre ++ assign arr j v.
Proof.
  induction pre as [|x pre IH]; cbn [app List.length Nat.add assign]; [reflexivity|].
  rewrite IH. reflexivity.
Qed.

Lemma nth_app_plus {X} (pre arr : list X) j d :
  nth (List.length pre + j) (pre ++ arr) d = nth j arr d.
Proof. apply app_nth2_plus. Qed.

Lemma fillKnowns_local cs : forall k pre arr,
  List.length pre = k -> List.length arr = S (List.length cs) ->
  fold_left fillStep (mapi_from (fun s i => (s, i)) k cs) (pre ++ arr) = pre ++ fillLocal cs arr.
Proof.
  induction cs as [|s r IH]; intros k pre arr Hk Ha; cbn [mapi_from fold_left].
  - destruct arr; reflexivity.
  - destruct arr as [|a [|b t]]; try (cbn in Ha; lia).
    cbn [fillLocal fillStep]. subst k.
    destruct (Sec.inputMode s).
    + specialize (IH (S (List.length pre)) (pre ++ [a]) (b :: t)).
      rewrite length_app, Nat.add_comm in IH. rewrite <- !app_assoc in IH.
      apply IH; [reflexivity|cbn in *; lia].
    + replace (assign (pre ++ a :: b :: t) (List.length pre) (Some (Sec.usElevation s)))
        with (pre ++ Some (Sec.usElevation s) :: b :: t)
        by (rewrite <- (Nat.add_0_r (List.length pre)), assign_app; reflexivity).
      rewrite assign_app. cbn [assign].
      specialize (IH (S (List.length pre)) (pre ++ [Some (Sec.usElevation s)])
                     (Some (Sec.dsElevation s) :: t)).
      rewrite length_app, Nat.add_comm in IH. rewrite <- !app_assoc in IH.
      apply IH; [reflexivity|cbn in *; lia].
Qed.

Lemma forwardPass_local cs : forall k pre arr,
  List.length pre = k -> List.length arr = S (List.length cs) ->
  fold_left forwardStep (mapi_from (fun s i => (s, i)) k cs) (pre ++ arr)
  = pre ++ forwardLocal cs arr.
Proof.
  induction cs as [|s r IH]; intros k pre arr Hk Ha; cbn [mapi_from fold_left].
  - destruct arr; reflexivity.
  - destruct arr as [|a [|b t]]; try (cbn in Ha; lia).
    cbn [forwardLocal forwardStep]. subst k.
    rewrite nth_app_plus. cbn [nth].
    replace (nth (List.length pre) (pre ++ a :: b :: t) None) with a
      by (rewrite <- (Nat.add_0_r (List.length pre)), nth_app_plus; reflexivity).
    destruct b as [vb|].
    + specialize (IH (S (List.length pre)) (pre ++ [a]) (Some vb :: t)).
      rewrite length_app, Nat.add_comm in IH. rewrite <- !app_assoc in IH.
      apply IH; [reflexivity|cbn in *; lia].
    + rewrite assign_app. cbn [assign].
      specialize (IH (S (List.length pre)) (pre ++ [a])
                     (Some (toNumber a - Sec.slope s * Sec.length s) :: t)).
      rewrite length_app, Nat.add_comm in IH. rewrite <- !app_assoc in IH.
      apply IH; [reflexivity|cbn in *; lia].
Qed.

Lemma fillLocal_form cs : forall h,
  fillLocal cs (h :: repeat None (List.length cs)) = fillForm h cs.
Proof.
  induction cs as [|s r IH]; intros h; cbn [List.length repeat fillLocal fillForm]; [reflexivity|].
  destruct (Sec.inputMode s); rewrite IH; reflexivity.
Qed.

Lemma fillForm_head h cs : exists t, fillForm h cs = filledHead h cs :: t /\
                                     forall h', fillForm h' cs = filledHead h' cs :: t.
Proof.
  destruct cs as [|s r]; cbn [fillForm filledHead].
  - exists []. split; reflexivity.
  - destruct (Sec.inputMode s); eexists; split; reflexivity.
Qed.

Lemma forward_fillForm cs : forall h v,
  filledHead h cs = Some v ->
  forwardLocal cs (fillForm h cs) = map Some (nodesFrom v cs).
Proof.
  induction cs as [|s r IH]; intros h v Hh.
  - cbn in *. rewrite Hh. reflexivity.
  - cbn [fillForm nodesFrom map].
    set (h' := match Sec.inputMode s with
               | Elevation => Some (Sec.dsElevation s) | Slope => None end).
    assert (Hf : fillForm h (s :: r) = Some v :: fillForm h' r).
    { cbn [fillForm filledHead] in *. subst h'. destruct (Sec.inputMode s); rewrite <- Hh; reflexivity. }
    cbn [fillForm] in Hf. rewrite Hf. clear Hf.
    destruct (fillForm_head h' r) as (t & Ht & Hany). rewrite Ht.
    cbn [forwardLocal toNumber]. f_equal.
    set (own := match Sec.inputMode s with
                | Elevation => Sec.dsElevation s
                | Slope => v - Sec.slope s * Sec.length s end).
    assert (Hb : match filledHead h' r with
                 | None => Some (v - Sec.slope s * Sec.length s)
                 | Some _ => filledHead h' r
                 end = filledHead (Some own) r /\
                 filledHead (Some own) r = Some (tailElevation v s (hd_error r))).
    { unfold tailElevation. fold own. subst h' own.
      destruct r as [|s' r']; cbn [filledHead hd_error].
      - destruct (Sec.inputMode s); split; reflexivity.
      - destruct (Sec.inputMode s'); [|split; reflexivity].
        destruct (Sec.inputMode s); split; reflexivity. }
    destruct Hb as [Hb1 Hb2]. rewrite Hb1, <- (Hany (Some own)).
    apply IH. exact Hb2.
Qed.

Lemma backwardPass_known (l : list (CanalSectionInput * nat)) vs :
  Forall (fun si => (snd si < List.length vs)%nat) l ->
  fold_left backwardStep l (map Some vs) = map Some vs.
Proof.
  induction 1 as [|[s i] r Hi _ IH]; cbn [fold_left]; [reflexivity|].
  cbn [snd] in Hi. unfold backwardStep at 2.
  rewrite (nth_indep _ None (Some 0)) by (rewrite length_map; exact Hi).
  rewrite map_nth. exact IH.
Qed.

Lemma length_nodesFrom cs : forall z, List.length (nodesFrom z cs) = S (List.length cs).
Proof. induction cs as [|s r IH]; intros z; cbn [nodesFrom List.length]; [|rewrite IH]; reflexivity. Qed.

(** The reconciliation pass in closed form: no node is left [null];
    node 0 is the upstream elevation of an Elevation-specified first
    reach and the datum 100 otherwise; every later node is the upstream
    elevation of the reach it heads when that reach is
    Elevation-specified, else the downstream elevation of the
    Elevation-specified reach it ends, else the node before it less
    [slope * length] of the reach between them. *)
Theorem z_nodes_closed_form (computedSections : list CanalSectionInput) :
  z_nodes computedSections = map Some (nodeElevations computedSections).
Proof.
  set (cs := computedSections).
  unfold z_nodes, backwardPass, forwardPass, fillKnowns, indexed, mapi.
  replace (repeat (@None number) (List.length cs + 1))
    with ([] ++ @None number :: repeat None (List.length cs))
    by (rewrite Nat.add_1_r; reflexivity).
  rewrite (fillKnowns_local cs 0 [] _ eq_refl)
    by (cbn [List.length]; rewrite repeat_length; reflexivity).
  cbn [app]. rewrite fillLocal_form.
  assert (Ha : anchorDatum (fillForm None cs) = fillForm (Some 100) cs /\
               filledHead (Some 100) cs = Some (headElevation cs)).
  { destruct cs as [|s r]; cbn [fillForm filledHead headElevation]; [split; reflexivity|].
    destruct (Sec.inputMode s); split; reflexivity. }
  destruct Ha as [Ha Hh]. rewrite Ha.
  change (fillForm (Some 100) cs) with ([] ++ fillForm (Some 100) cs).
  rewrite (forwardPass_local cs 0 [] _ eq_refl).
  2:{ destruct (fillForm_head (Some 100) cs) as (t & Ht & _).
      clear -cs. generalize (Some 100). induction cs as [|s r IH]; intros h; cbn [fillForm List.length].
      - reflexivity.
      - destruct (Sec.inputMode s); cbn [List.length]; rewrite IH; reflexivity. }
  cbn [app]. rewrite (forward_fillForm cs _ _ Hh).
  apply backwardPass_known. apply Forall_rev.
  eapply Forall_impl; [|apply (mapi_from_index cs 0)]. intros [s i] H. cbn [snd] in *.
  unfold nodeElevations. rewrite length_nodesFrom. lia.
Qed.

(** ** The depths [calculateFlow] reports *)

Section SolverFacts.
Context {M : MathLib}.

Lemma getGeometry_section type y p p' :
  width p = width p' -> sideSlope p = sideSlope p' -> diameter p = diameter p' ->
  getGeometry type y p = getGeometry type y p'.
Proof.
  intros Hw Hz Hd. unfold getGeometry. rewrite Hw, Hz, Hd. reflexivity.
Qed.

Lemma criticalLoop_section type p p' G_ Q2 iters : forall lo hi,
  width p = width p' -> sideSlope p = sideSlope p' -> diameter p = diameter p' ->
  criticalLoop type p G_ Q2 iters lo hi = criticalLoop type p' G_ Q2 iters lo hi.
Proof.
  induction iters as [|k IH]; intros lo hi Hw Hz Hd; cbn [criticalLoop]; [reflexivity|].
  cbv zeta. rewrite (getGeometry_section type _ p p' Hw Hz Hd).
  rewrite !(IH _ _ Hw Hz Hd). reflexivity.
Qed.

(** The critical depth depends on the discharge and the shape of the
    section only: two parameter sets that differ in slope and roughness
    alone have the same critical depth. *)
Theorem solveCriticalDepth_ignores_slope_and_roughness type p p' unit :
  flowRate p = flowRate p' -> width p = width p' -> sideSlope p = sideSlope p' ->
  diameter p = diameter p' ->
  solveCriticalDepth type p unit = solveCriticalDepth type p' unit.
Proof.
  intros HQ Hw Hz Hd. unfold solveCriticalDepth, bracketMax. rewrite HQ, Hd.
  apply criticalLoop_section; assumption.
Qed.

(** A successful [calculateFlow] reports depths inside the search
    bracket: both the normal and the critical depth lie between 0 and
    50, or between 0 and the diameter of a circular section (for a
    diameter below [2^1023]). *)
Theorem calculateFlow_depths_bounded type p unit :
  let r := calculateFlow type p unit in
  error r = None ->
  (type = Circular -> (diameter p <? BRACKET_LIMIT) = true) ->
  ((0 <=? normalDepth r) = true /\ (normalDepth r <=? bracketMax type p) = true) /\
  ((0 <=? criticalDepth r) = true /\ (criticalDepth r <=? bracketMax type p) = true).
Proof.
  cbv zeta. intros He Hd.
  apply calculateFlow_error_iff in He.
  destruct (validate_cases type p) as [[E _]|[[E _]|[[E _]|(_ & _ & HD & _)]]];
    try (rewrite E in He; discriminate).
  rewrite (calculateFlow_return type p unit He). cbv zeta. cbn [normalDepth criticalDepth].
  assert (Hb : bracket 0 (bracketMax type p)).
  { split; [reflexivity|]. unfold bracketMax. destruct type; try (split; reflexivity).
    specialize (HD eq_refl). specialize (Hd eq_refl).
    split; [|exact Hd]. apply ltb_leb, nan_not_positive; [exact HD|].
    apply (ltb_not_nan _ _ Hd). }
  destruct (normalLoop_in_bracket type p (normalTarget p unit) MAX_ITER _ _ Hb)
    as [(_ & H1 & _) (_ & H2 & _)].
  destruct (criticalLoop_in_bracket type p (G (UNIT_CONSTANTS unit))
              (Math_pow (flowRate p) 2) MAX_ITER _ _ Hb)
    as [(_ & H3 & _) (_ & H4 & _)].
  repeat split; assumption.
Qed.

(** A circular section filled above its crown is the full pipe: at a
    depth above a positive diameter the area, wetted perimeter,
    hydraulic radius, top width, velocity and specific force are those
    at [y = D].  (The depth reported, and with it the depth term of the
    specific energy, stays the depth asked for.) *)
Theorem surcharged_pipe_is_full p y unit :
  (0 <? diameter p) = true -> (y >? diameter p) = true ->
  let over := calculateSectionProperties Circular y p unit in
  let full := calculateSectionProperties Circular (diameter p) p unit in
  area over = area full /\ perimeter over = perimeter full /\
  hydraulicRadius over = hydraulicRadius full /\ topWidth over = topWidth full /\
  sp_velocity over = sp_velocity full /\ specificForce over = specificForce full.
Proof.
  intros HD Hy. cbv zeta.
  assert (Hg : getGeometry Circular y p = getGeometry Circular (diameter p) p).
  { unfold getGeometry. cbv zeta. rewrite Hy.
    assert (H0 : (y <=? 0) = false).
    { destruct (ltb_not_nan _ _ HD) as [_ ND]. destruct (ltb_not_nan _ _ Hy) as [_ Ny].
      pose proof HD as HD'. pose proof Hy as Hy'.
      rewrite ltb_fval in HD', Hy' by (assumption || reflexivity).
      rewrite leb_fval by (assumption || reflexivity).
      apply Z.ltb_lt in HD', Hy'. apply Z.leb_gt. lia. }
    assert (H1 : (diameter p <=? 0) = false).
    { destruct (ltb_not_nan _ _ HD) as [_ ND]. pose proof HD as HD'.
      rewrite ltb_fval in HD' by (assumption || reflexivity).
      rewrite leb_fval by (assumption || reflexivity).
      apply Z.ltb_lt in HD'. apply Z.leb_gt. lia. }
    rewrite H0, H1. destruct (diameter p >? diameter p); reflexivity. }
  unfold calculateSectionProperties. cbv zeta. rewrite Hg.
  cbn [area perimeter hydraulicRadius topWidth sp_velocity specificForce].
  repeat split; reflexivity.
Qed.

End SolverFacts.

Lemma solveCriticalDepth_ignores_slope_and_roughness_witness :
  solveCriticalDepth (M := refMath) Rectangular defaultRectangle SI =
  solveCriticalDepth (M := refMath) Rectangular
    (withSlope (withManningN defaultRectangle 0.02) 0.005) SI.
Proof.
  apply (solveCriticalDepth_ignores_slope_and_roughness (M := refMath) Rectangular
           defaultRectangle (withSlope (withManningN defaultRectangle 0.02) 0.005) SI);
    reflexivity.
Defined.

Lemma calculateFlow_depths_bounded_witness :
  ((0 <=? normalDepth (calculateFlow (M := refMath) Circular (DEFAULT_PARAMS Circular) SI))
   = true /\
   (normalDepth (calculateFlow (M := refMath) Circular (DEFAULT_PARAMS Circular) SI)
      <=? bracketMax Circular (DEFAULT_PARAMS Circular)) = true) /\
  ((0 <=? criticalDepth (calculateFlow (M := refMath) Circular (DEFAULT_PARAMS Circular) SI))
   = true /\
   (criticalDepth (calculateFlow (M := refMath) Circular (DEFAULT_PARAMS Circular) SI)
      <=? bracketMax Circular (DEFAULT_PARAMS Circular)) = true).
Proof.
  apply (calculateFlow_depths_bounded (M := refMath) Circular (DEFAULT_PARAMS Circular) SI);
    [vm_compute; reflexivity|intros _; reflexivity].
Defined.

Lemma surcharged_pipe_is_full_witness :
  area (calculateSectionProperties (M := refMath) Circular 3 (DEFAULT_PARAMS Circular) SI)
  = area (calculateSectionProperties (M := refMath) Circular 2 (DEFAULT_PARAMS Circular) SI) /\
  perimeter (calculateSectionProperties (M := refMath) Circular 3 (DEFAULT_PARAMS Circular) SI)
  = perimeter (calculateSectionProperties (M := refMath) Circular 2 (DEFAULT_PARAMS Circular) SI) /\
  hydraulicRadius (calculateSectionProperties (M := refMath) Circular 3 (DEFAULT_PARAMS Circular) SI)
  = hydraulicRadius (calculateSectionProperties (M := refMath) Circular 2 (DEFAULT_PARAMS Circular) SI) /\
  topWidth (calculateSectionProperties (M := refMath) Circular 3 (DEFAULT_PARAMS Circular) SI)
  = topWidth (calculateSectionProperties (M := refMath) Circular 2 (DEFAULT_PARAMS Circular) SI) /\
  sp_velocity (calculateSectionProperties (M := refMath) Circular 3 (DEFAULT_PARAMS Circular) SI)
  = sp_velocity (calculateSectionProperties (M := refMath) Circular 2 (DEFAULT_PARAMS Circular) SI) /\
  specificForce (calculateSectionProperties (M := refMath) Circular 3 (DEFAULT_PARAMS Circular) SI)
  = specificForce (calculateSectionProperties (M := refMath) Circular 2 (DEFAULT_PARAMS Circular) SI).
Proof.
  apply (surcharged_pipe_is_full (M := refMath) (DEFAULT_PARAMS Circular) 3 SI); reflexivity.
Defined.

(** ** The calculator view *)

Section AppFacts.
Context {M : MathLib}.

Lemma calculateFlow_error type p unit :
  error (calculateFlow type p unit) =
  match validate type p with Return _ => None | Throw m => Some m end.
Proof.
  destruct (validate type p) as [[]|m] eqn:E.
  - rewrite (calculateFlow_return type p unit E). reflexivity.
  - rewrite (calculateFlow_throw type p unit m E). reflexivity.
Qed.

Lemma validate_toImperial type p : validate type (App.toImperial p) = validate type p.
Proof.
  unfold validate, App.toImperial. cbn [flowRate slope manningN width diameter].
  rewrite !scale_up_leb0 by reflexivity. reflexivity.
Qed.

(** Switching the view from SI to Imperial never changes whether the
    input is accepted: the converted parameters pass or fail the
    validation of [calculateFlow] exactly as the original ones did,
    with the same message. *)
Theorem toggleUnit_keeps_validation st :
  App.unit st = SI ->
  error (App.result (App.toggleUnit st)) = error (App.result st).
Proof.
  intros Hu. unfold App.result, App.toggleUnit. rewrite Hu.
  cbn [App.unit App.activeTab App.params]. rewrite !calculateFlow_error, validate_toImperial.
  reflexivity.
Qed.

(** An entry that does not parse as a number in the discharge, slope or
    roughness field is stored as 0, and the calculation then reports
    the validation message rather than a result. *)
Theorem blank_entry_reports_error st field numVal :
  is_nan numVal = true ->
  field = Key.flowRate \/ field = Key.slope \/ field = Key.manningN ->
  error (App.result (App.handleChange st field numVal)) = Some MSG_POSITIVE.
Proof.
  intros Hn Hf. unfold App.result, App.handleChange.
  cbn [App.unit App.activeTab App.params]. rewrite Hn, calculateFlow_error.
  unfold validate, throwIf, Exc_bind.
  assert (H0 : (0 <=? 0) = true) by reflexivity.
  destruct Hf as [->|[->| ->]]; cbn [withField flowRate slope manningN]; rewrite H0.
  - rewrite !orb_true_r. reflexivity.
  - reflexivity.
  - rewrite orb_true_r. reflexivity.
Qed.

(** at depth zero every property of the section is zero *)
Lemma calculateSectionProperties_dry type p unit :
  calculateSectionProperties type 0 p unit = drySection.
Proof.
  unfold calculateSectionProperties, getGeometry. cbv zeta.
  change (0 <=? 0) with true. cbv iota. cbn [A P T centroidDepth].
  change (0 >? 0) with false. cbv iota.
  rewrite (Math_pow_zero 2) by reflexivity.
  unfold drySection. f_equal. destruct unit; reflexivity.
Qed.

(** While the input is rejected, the section analysis of the normal or
    of the critical depth shows a dry section: depth, area, perimeter,
    hydraulic radius, top width, specific energy, specific force and
    velocity are all zero. *)
Theorem sectionProps_after_error st :
  error (App.result st) <> None ->
  App.analysisMode st <> App.Custom ->
  App.sectionProps st = drySection.
Proof.
  intros He Hm. unfold App.sectionProps. cbv zeta.
  assert (Hr : App.result st = errorResult
                 match error (App.result st) with Some m => m | None => EmptyString end).
  { unfold App.result in *. rewrite calculateFlow_error in *.
    destruct (validate (App.activeTab st) (App.params st)) as [[]|m] eqn:E;
      [exfalso; apply He; reflexivity|].
    apply calculateFlow_throw, E. }
  rewrite Hr. cbn [normalDepth criticalDepth errorResult].
  destruct (App.analysisMode st); try (exfalso; apply Hm; reflexivity);
    change (is_nan 0) with false; cbv iota; apply calculateSectionProperties_dry.
Qed.

End AppFacts.

Lemma toggleUnit_keeps_validation_witness :
  error (App.result (M := refMath) (App.toggleUnit metricRectangle))
  = error (App.result (M := refMath) metricRectangle).
Proof. apply (toggleUnit_keeps_validation (M := refMath) metricRectangle). reflexivity. Defined.

Lemma blank_entry_reports_error_witness :
  error (App.result (M := refMath) (App.handleChange metricRectangle Key.slope nan))
  = Some MSG_POSITIVE.
Proof.
  apply (blank_entry_reports_error (M := refMath) metricRectangle Key.slope nan);
    [reflexivity|right; left; reflexivity].
Defined.

Lemma sectionProps_after_error_witness :
  App.sectionProps (M := refMath) flatRectangle = drySection.
Proof.
  apply (sectionProps_after_error (M := refMath) flatRectangle);
    [vm_compute; discriminate|discriminate].
Defined.

(** ** Channel types that coincide *)

Section ShapeFacts.
Context {M : MathLib}.

(** a trapezoid without side slope has the area, the wetted perimeter
    and the top width of the rectangle *)
Lemma trapezoid_rectangle_geometry p y :
  sideSlope p = 0 -> (0 <? width p) = true -> is_finite y = true ->
  A (getGeometry Trapezoidal y p) = A (getGeometry Rectangular y p) /\
  P (getGeometry Trapezoidal y p) = P (getGeometry Rectangular y p) /\
  T (getGeometry Trapezoidal y p) = T (getGeometry Rectangular y p).
Proof.
  intros Hz Hb Fy. unfold getGeometry.
  destruct (y <=? 0) eqn:H0; [repeat split; reflexivity|].
  cbv zeta. cbn [A P T]. rewrite Hz.
  change (2 * 0) with 0. change (sqrt (1 + 0 * 0)) with 1.
  rewrite (zero_times y H0 Fy), (plus_zero _ Hb), times_one.
  repeat split; reflexivity.
Qed.

Lemma normalLoop_trapezoid_rectangle p target iters : forall lo hi,
  sideSlope p = 0 -> (0 <? width p) = true -> bracket lo hi ->
  normalLoop Trapezoidal p target iters lo hi = normalLoop Rectangular p target iters lo hi.
Proof.
  induction iters as [|k IH]; intros lo hi Hz Hb Hbr; cbn [normalLoop]; [reflexivity|].
  cbv zeta. destruct (midpoint_bracket lo hi Hbr) as [Hl Hr].
  destruct (bracket_values _ _ Hl) as (_ & Fm & _).
  destruct (trapezoid_rectangle_geometry p ((lo + hi) / 2) Hz Hb Fm) as (HA & HP & HT).
  unfold sectionFactor. rewrite HA, HP.
  rewrite (IH _ _ Hz Hb Hl), (IH _ _ Hz Hb Hr). reflexivity.
Qed.

Lemma criticalLoop_trapezoid_rectangle p G_ Q2 iters : forall lo hi,
  sideSlope p = 0 -> (0 <? width p) = true -> bracket lo hi ->
  criticalLoop Trapezoidal p G_ Q2 iters lo hi = criticalLoop Rectangular p G_ Q2 iters lo hi.
Proof.
  induction iters as [|k IH]; intros lo hi Hz Hb Hbr; cbn [criticalLoop]; [reflexivity|].
  cbv zeta. destruct (midpoint_bracket lo hi Hbr) as [Hl Hr].
  destruct (bracket_values _ _ Hl) as (_ & Fm & _).
  destruct (trapezoid_rectangle_geometry p ((lo + hi) / 2) Hz Hb Fm) as (HA & HP & HT).
  rewrite HA, HT.
  rewrite (IH _ _ Hz Hb Hl), (IH _ _ Hz Hb Hr). reflexivity.
Qed.

(** A trapezoidal channel with zero side slope is computed as the
    rectangular channel of the same bottom width: for a positive width,
    [calculateFlow] returns the same result for the two channel types,
    field by field, error included. *)
Theorem calculateFlow_trapezoid_as_rectangle p unit :
  sideSlope p = 0 -> (0 <? width p) = true ->
  calculateFlow Trapezoidal p unit = calculateFlow Rectangular p unit.
Proof.
  intros Hz Hb.
  assert (Hw : (width p <=? 0) = false).
  { destruct (ltb_not_nan _ _ Hb) as [_ Nb]. pose proof (fval_positive _ Hb).
    rewrite leb_fval by (assumption || reflexivity). apply Z.leb_gt. rewrite fval_zero. lia. }
  assert (Hv : validate Trapezoidal p = validate Rectangular p).
  { unfold validate. cbn [ChannelType_eqb andb]. rewrite Hw. reflexivity. }
  destruct (validate Rectangular p) as [[]|m] eqn:E.
  - rewrite (calculateFlow_return Trapezoidal p unit Hv),
            (calculateFlow_return Rectangular p unit E). cbv zeta.
    assert (Hbr : bracket 0 50) by (repeat split; reflexivity).
    assert (Hn : solveNormalDepth Trapezoidal p unit = solveNormalDepth Rectangular p unit).
    { unfold solveNormalDepth. cbn [bracketMax].
      apply normalLoop_trapezoid_rectangle; assumption. }
    assert (Hc : solveCriticalDepth Trapezoidal p unit = solveCriticalDepth Rectangular p unit).
    { unfold solveCriticalDepth. cbn [bracketMax].
      apply criticalLoop_trapezoid_rectangle; assumption. }
    rewrite Hn, Hc.
    assert (Fn : is_finite (solveNormalDepth Rectangular p unit) = true).
    { unfold solveNormalDepth. cbn [bracketMax].
      destruct (normalLoop_in_bracket Rectangular p (normalTarget p unit) MAX_ITER _ _ Hbr)
        as [H1 _].
      apply (bracket_values _ _ H1). }
    assert (Fc : is_finite (solveCriticalDepth Rectangular p unit) = true).
    { unfold solveCriticalDepth. cbn [bracketMax].
      destruct (criticalLoop_in_bracket Rectangular p (G (UNIT_CONSTANTS unit))
                  (Math_pow (flowRate p) 2) MAX_ITER _ _ Hbr) as [H1 _].
      apply (bracket_values _ _ H1). }
    destruct (trapezoid_rectangle_geometry p _ Hz Hb Fn) as (HA & _ & HT).
    destruct (trapezoid_rectangle_geometry p _ Hz Hb Fc) as (HA' & _ & _).
    rewrite HA, HT, HA'. reflexivity.
  - rewrite (calculateFlow_throw Trapezoidal p unit m Hv),
            (calculateFlow_throw Rectangular p unit m E). reflexivity.
Qed.

End ShapeFacts.

Lemma calculateFlow_trapezoid_as_rectangle_witness :
  calculateFlow (M := refMath) Trapezoidal (DEFAULT_PARAMS Rectangular) SI =
  calculateFlow (M := refMath) Rectangular (DEFAULT_PARAMS Rectangular) SI.
Proof.
  apply (calculateFlow_trapezoid_as_rectangle (M := refMath) (DEFAULT_PARAMS Rectangular) SI);
    reflexivity.
Defined.

Section TriangleFacts.
Context {M : MathLib}.

(** a trapezoid without bottom width has the area, the wetted
    perimeter and the top width of the triangle *)
Lemma triangle_trapezoid_geometry p y :
  width p = 0 -> (0 <? sideSlope p) = true ->
  A (getGeometry Triangular y p) = A (getGeometry Trapezoidal y p) /\
  P (getGeometry Triangular y p) = P (getGeometry Trapezoidal y p) /\
  T (getGeometry Triangular y p) = T (getGeometry Trapezoidal y p).
Proof.
  intros Hb Hz. unfold getGeometry.
  destruct (y <=? 0) eqn:H0; [repeat split; reflexivity|].
  cbv zeta. cbn [A P T]. rewrite Hb.
  pose proof (positive_unsigned _ Hz) as Uz. pose proof (not_leb_unsigned _ H0) as Uy.
  assert (U1 : unsigned 1) by reflexivity. assert (U2 : unsigned 2) by reflexivity.
  rewrite !zero_plus; [repeat split; reflexivity| | |];
    repeat (apply mul_unsigned || apply add_unsigned || apply sqrt_unsigned); assumption.
Qed.

Lemma normalLoop_triangle_trapezoid p target iters : forall lo hi,
  width p = 0 -> (0 <? sideSlope p) = true ->
  normalLoop Triangular p target iters lo hi = normalLoop Trapezoidal p target iters lo hi.
Proof.
  induction iters as [|k IH]; intros lo hi Hb Hz; cbn [normalLoop]; [reflexivity|].
  cbv zeta.
  destruct (triangle_trapezoid_geometry p ((lo + hi) / 2) Hb Hz) as (HA & HP & HT).
  unfold sectionFactor. rewrite HA, HP, !(IH _ _ Hb Hz). reflexivity.
Qed.

Lemma criticalLoop_triangle_trapezoid p G_ Q2 iters : forall lo hi,
  width p = 0 -> (0 <? sideSlope p) = true ->
  criticalLoop Triangular p G_ Q2 iters lo hi = criticalLoop Trapezoidal p G_ Q2 iters lo hi.
Proof.
  induction iters as [|k IH]; intros lo hi Hb Hz; cbn [criticalLoop]; [reflexivity|].
  cbv zeta.
  destruct (triangle_trapezoid_geometry p ((lo + hi) / 2) Hb Hz) as (HA & HP & HT).
  rewrite HA, HT, !(IH _ _ Hb Hz). reflexivity.
Qed.

(** A triangular channel is computed as the trapezoidal channel of
    zero bottom width: for a positive side slope, [calculateFlow]
    returns the same result for the two channel types, field by field,
    error included. *)
Theorem calculateFlow_triangle_as_trapezoid p unit :
  width p = 0 -> (0 <? sideSlope p) = true ->
  calculateFlow Triangular p unit = calculateFlow Trapezoidal p unit.
Proof.
  intros Hb Hz.
  assert (Hv : validate Triangular p = validate Trapezoidal p) by reflexivity.
  destruct (validate Trapezoidal p) as [[]|m] eqn:E.
  - rewrite (calculateFlow_return Triangular p unit Hv),
            (calculateFlow_return Trapezoidal p unit E). cbv zeta.
    assert (Hn : solveNormalDepth Triangular p unit = solveNormalDepth Trapezoidal p unit).
    { unfold solveNormalDepth. cbn [bracketMax].
      apply normalLoop_triangle_trapezoid; assumption. }
    assert (Hc : solveCriticalDepth Triangular p unit = solveCriticalDepth Trapezoidal p unit).
    { unfold solveCriticalDepth. cbn [bracketMax].
      apply criticalLoop_triangle_trapezoid; assumption. }
    rewrite Hn, Hc.
    destruct (triangle_trapezoid_geometry p (solveNormalDepth Trapezoidal p unit) Hb Hz)
      as (HA & _ & HT).
    destruct (triangle_trapezoid_geometry p (solveCriticalDepth Trapezoidal p unit) Hb Hz)
      as (HA' & _ & _).
    rewrite HA, HT, HA'. reflexivity.
  - rewrite (calculateFlow_throw Triangular p unit m Hv),
            (calculateFlow_throw Trapezoidal p unit m E). reflexivity.
Qed.

End TriangleFacts.

Lemma calculateFlow_triangle_as_trapezoid_witness :
  calculateFlow (M := refMath) Triangular (DEFAULT_PARAMS Triangular) SI =
  calculateFlow (M := refMath) Trapezoidal (DEFAULT_PARAMS Triangular) SI.
Proof.
  apply (calculateFlow_triangle_as_trapezoid (M := refMath) (DEFAULT_PARAMS Triangular) SI);
    reflexivity.
Defined.
